(** * outy-back: event identity, catalog merge, section dates and
    description formatting

    A shallow embedding of the Python modules
    [eventsearch/orchestrate_event_extraction.py] and
    [eventsearch/enrich_descriptions.py], of the report of
    [eventsearch/extract_events.py] and of the choice of a search result
    in [eventsearch/shotgun_scraper.py], and the properties their
    specification states about them.

    Conventions of the embedding.
    - A Python [str] is a list of Unicode code points ([list N]); [len] is
      [length], [s[:n]] is [take n s], [a + b] is [a ++ b].
    - The character database of the Python runtime (case mapping, the
      classes behind [\s], [\w], [\d], case-insensitive matching) is not
      part of the repository: it is the interface [Unicode].  The
      theorems hold for any instance, those that need a fact about the
      tables for any instance that agrees with Latin-1 below 256
      ([Latin1Exact]); [latin1] is the instance used to evaluate the
      functions on concrete inputs.
    - An event is a [dict] with string keys, embedded as a [gmap]; its
      values are JSON strings or [null] (section 3 of the specification:
      every attribute of an event record is an optional string).
    - [merge_events] mutates the dictionaries it is given and stores the
      new ones in the merged list without copying them; the embedding
      therefore keeps the dictionaries in a store indexed by object
      identity, and a catalog is a list of identities. *)

From Stdlib Require Import QArith.
From Stdlib Require Import Ascii String.
From stdpp Require Import base list gmap.

(* stdpp's solvers clear hypotheses that are already gone *)
Set Warnings "-clear-no-such-hyp".

Local Open Scope string_scope.
Local Open Scope N_scope.
Local Open Scope list_scope.
Local Open Scope bool_scope.

(** ** Strings *)

Abbreviation str := (list N).

(** [py "abc"] is the Python literal ['abc'] (ASCII text only; other
    characters are written as code points). *)
Definition py (s : string) : str := N_of_ascii <$> list_ascii_of_string s.

Class Unicode := {
  (** [str.lower()] *)
  lower : str → str;
  (** [str.isspace()] on one character, also the class [\s] *)
  is_space : N → bool;
  (** the class [\w] *)
  is_word : N → bool;
  (** the class [\d], with the value [int()] gives the digit *)
  digit_val : N → option N;
  (** [ci_eq p c]: the pattern character [p] matches the text character
      [c] under [re.IGNORECASE] *)
  ci_eq : N → N → bool
}.

Module Latin1.

Definition lower_char (c : N) : N :=
  if ((65 <=? c) && (c <=? 90)) || ((192 <=? c) && (c <=? 222) && negb (c =? 215))
  then c + 32 else c.

Definition is_space (c : N) : bool :=
  ((9 <=? c) && (c <=? 13)) || ((28 <=? c) && (c <=? 32)) || (c =? 133) || (c =? 160).

Definition is_alnum (c : N) : bool :=
  ((48 <=? c) && (c <=? 57)) || ((65 <=? c) && (c <=? 90)) || ((97 <=? c) && (c <=? 122))
  || (c =? 170) || (c =? 178) || (c =? 179) || (c =? 181) || (c =? 185) || (c =? 186)
  || ((188 <=? c) && (c <=? 190))
  || ((192 <=? c) && (c <=? 255) && negb (c =? 215) && negb (c =? 247)).

Definition is_word (c : N) : bool := is_alnum c || (c =? 95).

Definition digit_val (c : N) : option N :=
  if (48 <=? c) && (c <=? 57) then Some (c - 48) else None.

Definition ci_eq (p c : N) : bool := lower_char p =? lower_char c.

End Latin1.

(** The tables of the Latin-1 block (code points below 256), where the
    French and English text of the scraped sites lives; characters above
    it are taken as caseless symbols, which is what the two emoji of the
    formatter's labels are. *)
Definition latin1 : Unicode := {|
  lower := fmap Latin1.lower_char;
  is_space := Latin1.is_space;
  is_word := Latin1.is_word;
  digit_val := Latin1.digit_val;
  ci_eq := Latin1.ci_eq
|}.

(** [str.startswith] *)
Fixpoint startswith (s p : str) {struct p} : bool :=
  match p, s with
  | [], _ => true
  | _ :: _, [] => false
  | a :: p', b :: s' => (a =? b) && startswith s' p'
  end.

(** [needle in hay] *)
Fixpoint contains (needle hay : str) : bool :=
  startswith hay needle ||
  match hay with
  | [] => false
  | _ :: hay' => contains needle hay'
  end.

(** [any(k in s for k in keywords)] *)
Definition any_in (keywords : list str) (s : str) : bool :=
  existsb (λ k, contains k s) keywords.

Section Text.
Context `{U : Unicode}.

(** [str.lstrip()] *)
Fixpoint lstrip (s : str) : str :=
  match s with
  | [] => []
  | c :: s' => if is_space c then lstrip s' else s
  end.

(** [str.rstrip()] *)
Definition rstrip (s : str) : str := reverse (lstrip (reverse s)).
(** [str.strip()] *)
Definition strip (s : str) : str := rstrip (lstrip s).

(** [re.sub(r'\s+', ' ', s)]: every maximal run of white space becomes
    one space.  [in_run] tells that the previous character was white
    space, already replaced. *)
Fixpoint collapse_from (in_run : bool) (s : str) : str :=
  match s with
  | [] => []
  | c :: s' =>
      if is_space c
      then (if in_run then collapse_from true s' else 32 :: collapse_from true s')
      else c :: collapse_from false s'
  end.

Definition collapse_spaces (s : str) : str := collapse_from false s.

(** [re.sub(r'[^\w\s]', '', s)] *)
Definition drop_punctuation (s : str) : str :=
  filter (λ c, is_word c || is_space c = true) s.

(** [str.split()] without argument: the maximal runs of characters that
    are not white space.  [cur] is the word being read, reversed. *)
Fixpoint split_go (cur : str) (s : str) : list str :=
  match s with
  | [] => match cur with [] => [] | _ => [reverse cur] end
  | c :: s' =>
      if is_space c
      then match cur with [] => split_go [] s' | _ => reverse cur :: split_go [] s' end
      else split_go (c :: cur) s'
  end.

Definition split (s : str) : list str := split_go [] s.

End Text.

(** ['sep'.join(pieces)] *)
Fixpoint join (sep : str) (pieces : list str) : str :=
  match pieces with
  | [] => []
  | [p] => p
  | p :: rest => p ++ sep ++ join sep rest
  end.

(** ** Event records *)

(** A JSON value of an event attribute: [None] or a string. *)
Inductive value :=
  | VNone
  | VStr (s : str).

#[global] Instance value_eq_dec : EqDecision value.
Proof. solve_decision. Defined.

(** Python truthiness: [None] and [''] are false. *)
Definition truthy (v : value) : bool :=
  match v with
  | VStr (_ :: _) => true
  | _ => false
  end.

(** An event: a [dict] from attribute names to values. *)
Abbreviation event := (gmap str value).

(** [d.get(key, default)] *)
Definition get (d : event) (key : str) (dflt : value) : value :=
  default dflt (d !! key).

Section Identity.
Context `{U : Unicode}.

Definition normalize_event_name (name : value) : str :=
  match name with
  | VStr (c :: s) => strip (collapse_spaces (drop_punctuation (lower (c :: s))))
  | _ => []
  end.

(** [set(name.split())] *)
Definition word_set (name : str) : gset str := list_to_set (split name).

(** [len(words1 & words2) / max(len(words1), len(words2))].  The source
    computes it in double precision; for operands below 2^53, which list
    lengths are, the quotient is the correctly rounded rational and
    compares with 0.5 as the rational does. *)
Definition overlap (words1 words2 : gset str) : Q :=
  (inject_Z (Z.of_nat (size (words1 ∩ words2)))
   / inject_Z (Z.of_nat (size words1 `max` size words2)))%Q.

Definition name_match (name1 name2 : str) : bool :=
  if negb (bool_decide (name1 = [])) && negb (bool_decide (name2 = [])) then
    if contains name1 name2 || contains name2 name1 then true
    else
      let words1 := word_set name1 in
      let words2 := word_set name2 in
      if negb (bool_decide (words1 = ∅)) && negb (bool_decide (words2 = ∅))
      then Qle_bool (1 # 2) (overlap words1 words2)
      else false
  else false.

(** [x == y if x and y else False] on two attribute values *)
Definition both_set_and_equal (x y : value) : bool :=
  if truthy x && truthy y then bool_decide (x = y) else false.

Definition events_match (event1 event2 : event) : bool :=
  let name1 := normalize_event_name (get event1 (py "name") (VStr [])) in
  let name2 := normalize_event_name (get event2 (py "name") (VStr [])) in
  let date1 := get event1 (py "date") (VStr []) in
  let date2 := get event2 (py "date") (VStr []) in
  let venue1 := normalize_event_name (get event1 (py "venueName") (VStr [])) in
  let venue2 := normalize_event_name (get event2 (py "venueName") (VStr [])) in
  let date_match := both_set_and_equal date1 date2 in
  let venue_match :=
    if negb (bool_decide (venue1 = [])) && negb (bool_decide (venue2 = []))
    then bool_decide (venue1 = venue2) else false in
  name_match name1 name2 && (date_match || venue_match).

End Identity.

(** The records of the specification's examples. *)
Definition ev (fields : list (string * string)) : event :=
  list_to_map ((λ kv, (py kv.1, VStr (py kv.2))) <$> fields).

(** An attribute of a record as [events_match] normalizes it. *)
Definition normalized `{U : Unicode} (e : event) (key : string) : str :=
  normalize_event_name (get e (py key) (VStr [])).

(** The decision rule in the words of section 4.6 of the specification:
    the normalization (strip punctuation, lowercase, collapse
    whitespace), name similarity, date equality, venue similarity, and
    their combination. *)
Section IdentitySpec.
Context `{U : Unicode}.

(** Punctuation: a character that is neither part of a word (a letter,
    a digit, the underscore) nor white space. *)
Definition is_punctuation (c : N) : bool := negb (is_word c) && negb (is_space c).

Definition strip_punctuation (s : str) : str :=
  filter (λ c, is_punctuation c = false) s.

(** White space collapsed: the words of the text, one space between two
    of them. *)
Definition collapse_whitespace (s : str) : str := join [32] (split s).

(** The normal form of an attribute: its text in lower case, without
    punctuation, white space collapsed; the empty text for an attribute
    that is absent or null. *)
Definition canonical (e : event) (key : string) : str :=
  match e !! py key with
  | Some (VStr s) => collapse_whitespace (strip_punctuation (lower s))
  | _ => []
  end.





End IdentitySpec.

(** ** The catalog and the merge engine *)

(** Identity of a dictionary object. *)
Abbreviation loc := nat.

(** The dictionaries alive during a merge, by identity. *)
Definition store := loc → event.

Definition update (h : store) (l : loc) (e : event) : store :=
  λ l', if decide (l' = l) then e else h l'.

(** The records a list of identities denotes. *)
Definition contents (h : store) (catalog : list loc) : list event := h <$> catalog.

Section Merge.
Context `{U : Unicode}.

(** The inner loop of [merge_events]:
    [for key, value in new_event.items():
         if value and not existing_event.get(key): existing_event[key] = value] *)
Definition fill_missing (new_event existing_event : event) : event :=
  map_fold
    (λ key value existing,
       if truthy value && negb (truthy (get existing key VNone))
       then <[key := value]> existing else existing)
    existing_event new_event.

(** [covers e n]: every attribute set on [n] is set on [e], so that [n]
    has nothing to give to [e]. *)
Definition covers (e n : event) : Prop :=
  ∀ k v, n !! k = Some v → truthy v = true → truthy (get e k VNone) = true.

(** The scan [for i, existing_event in enumerate(merged)] up to its
    [break]: the first dictionary of [merged] that matches. *)
Fixpoint find_duplicate (h : store) (new_event : event) (merged : list loc) : option loc :=
  match merged with
  | [] => None
  | l :: rest =>
      if events_match new_event (h l) then Some l
      else find_duplicate h new_event rest
  end.

(** One turn of the outer loop.  A match updates the matched dictionary
    in place ([merged[i] = existing_event] stores the same object back);
    otherwise the new dictionary itself is appended. *)
Definition merge_event (state : store * list loc) (new_event : loc) : store * list loc :=
  let '(h, merged) := state in
  match find_duplicate h (h new_event) merged with
  | Some l => (update h l (fill_missing (h new_event) (h l)), merged)
  | None => (h, merged ++ [new_event])
  end.

(** [merge_events(existing_events, new_events)], from the store [h]:
    the store after the call and the list returned. *)
Definition merge_events (h : store) (existing_events new_events : list loc)
  : store * list loc :=
  foldl merge_event (h, existing_events) new_events.

(** The new records that match no record of the catalog, each one judged
    at its own turn of the loop, from the state the turns before it left. *)
Fixpoint unmatched (state : store * list loc) (new_events : list loc) : list loc :=
  match new_events with
  | [] => []
  | n :: rest =>
      match find_duplicate state.1 (state.1 n) state.2 with
      | Some _ => unmatched (merge_event state n) rest
      | None => n :: unmatched (merge_event state n) rest
      end
  end.

End Merge.

(** Two records with the same name, date and venue name: the three
    attributes [events_match] reads. *)
Definition same_key (e e' : event) : Prop :=
  e !! py "name" = e' !! py "name"
  ∧ e !! py "date" = e' !! py "date"
  ∧ e !! py "venueName" = e' !! py "venueName".

(** The state of the loop of [merge_events h C _] after a prefix [N1] of
    the batch, when the key attributes never change: the three key
    attributes are those of the start, the merged list holds records of
    the catalog and of the prefix, and every record of the prefix finds a
    duplicate, which is itself or a record that covers it. *)
Definition merged_prefix `{U : Unicode} (h : store) (C N1 : list loc)
    (state : store * list loc) : Prop :=
  (∀ l, same_key (state.1 l) (h l))
  ∧ (∀ l, l ∈ state.2 → l ∈ C ∨ l ∈ N1)
  ∧ (∀ n, n ∈ N1 → ∃ l,
       find_duplicate h (h n) state.2 = Some l
       ∧ (l = n ∨ ((n ∉ state.2) ∧ covers (state.1 l) (state.1 n)))).

(** A store whose objects are the given dictionaries, in allocation
    order. *)
Definition objects (es : list event) : store := λ l, default ∅ (es !! l).

(** A record as [extract_events_from_queerparis_homepage] builds it when
    the section header has no date and the third line no venue. *)
Definition undated : event :=
  {[ py "name" := VStr (py "BBB"); py "time" := VStr (py "23:00");
     py "venueName" := VNone; py "date" := VNone;
     py "queerParisUrl" := VNone; py "source" := VStr (py "queer.paris") ]}.

(** ** Section dates *)

(** The tables of a Python runtime agree with [Latin1] on the code
    points below 256. *)
Class Latin1Exact (U : Unicode) : Prop := {
  lower_latin1 : ∀ s, Forall (λ c, c < 256) s → lower s = Latin1.lower_char <$> s;
  is_space_latin1 : ∀ c, c < 256 → is_space c = Latin1.is_space c;
  is_word_latin1 : ∀ c, c < 256 → is_word c = Latin1.is_word c;
  digit_val_latin1 : ∀ c, c < 256 → digit_val c = Latin1.digit_val c;
  ci_eq_latin1 : ∀ p c, p < 256 → c < 256 → ci_eq p c = Latin1.ci_eq p c
}.

(** What a call does: it returns a value or raises an exception. *)
Inductive outcome (A : Type) :=
  | Return (a : A)
  | Raise.
Arguments Return {A} a.
Arguments Raise {A}.

(** The calendar date of a [datetime]. *)
Record datetime := { year : N; month : N; day : N }.

Definition is_leap (y : N) : bool :=
  (y mod 4 =? 0) && (negb (y mod 100 =? 0) || (y mod 400 =? 0)).

Definition days_in_month (y m : N) : N :=
  if (m =? 2) then (if is_leap y then 29 else 28)
  else if (m =? 4) || (m =? 6) || (m =? 9) || (m =? 11) then 30
  else if (1 <=? m) && (m <=? 12) then 31
  else 0.

(** [datetime(year, month, day)]; [None] is its [ValueError]. *)
Definition make_datetime (y m d : N) : option datetime :=
  if (1 <=? y) && (y <=? 9999) && (1 <=? m) && (m <=? 12)
     && (1 <=? d) && (d <=? days_in_month y m)
  then Some {| year := y; month := m; day := d |}
  else None.

(** [t + timedelta(days=1)]; [None] is its [OverflowError], past the
    last day of year 9999. *)
Definition add_one_day (t : datetime) : option datetime :=
  if day t <? days_in_month (year t) (month t)
  then Some {| year := year t; month := month t; day := day t + 1 |}
  else if month t <? 12
  then Some {| year := year t; month := month t + 1; day := 1 |}
  else make_datetime (year t + 1) 1 1.

Definition digit (n : N) : N := 48 + n mod 10.

(** [t.strftime('%Y-%m-%d')], the year on four digits (years from 1000
    on, as the clock gives them). *)
Definition strftime_ymd (t : datetime) : str :=
  [digit (year t / 1000); digit (year t / 100); digit (year t / 10); digit (year t)]
  ++ [45; digit (month t / 10); digit (month t)]
  ++ [45; digit (day t / 10); digit (day t)].

(** The table [months_fr]; its keys in this order are also the
    alternatives of the pattern. *)
Definition months_fr : list (str * N) :=
  [ (py "janvier", 1); (py "f" ++ [233] ++ py "vrier", 2); (py "mars", 3);
    (py "avril", 4); (py "mai", 5); (py "juin", 6); (py "juillet", 7);
    (py "ao" ++ [251] ++ py "t", 8); (py "septembre", 9); (py "octobre", 10);
    (py "novembre", 11); (py "d" ++ [233] ++ py "cembre", 12) ].

(** [table.get(key, dflt)] *)
Fixpoint table_get (table : list (str * N)) (key : str) (dflt : N) : N :=
  match table with
  | [] => dflt
  | (k, v) :: table' => if bool_decide (k = key) then v else table_get table' key dflt
  end.

(** [sys.int_info.default_max_str_digits], the longest digit string that
    [int] converts. *)
Definition max_str_digits : nat := 4300.

Section Dates.
Context `{U : Unicode}.

(** The number that a string of decimal digits denotes. *)
Definition decimal (s : str) : N :=
  foldl (λ acc c, 10 * acc + default 0 (digit_val c)) 0 s.

(** [int(s)] on a string of decimal digits: a [ValueError] when the
    string has more than [max_str_digits] digits. *)
Definition int_of (s : str) : outcome N :=
  if (max_str_digits <? length s)%nat then Raise else Return (decimal s).

(** The longest prefix matching [\d*], and the rest. *)
Fixpoint span_digits (s : str) : str * str :=
  match s with
  | [] => ([], [])
  | c :: s' =>
      match digit_val c with
      | Some _ => let '(ds, rest) := span_digits s' in (c :: ds, rest)
      | None => ([], s)
      end
  end.

(** The literal [pat] matches at the start of [text] under
    [re.IGNORECASE]. *)
Fixpoint ci_startswith (text pat : str) {struct pat} : bool :=
  match pat, text with
  | [], _ => true
  | _ :: _, [] => false
  | p :: pat', c :: text' => ci_eq p c && ci_startswith text' pat'
  end.

(** The alternation of literals [alts] at the start of [text]: the text
    matched by the first alternative that matches. *)
Fixpoint match_alternatives (alts : list str) (text : str) : option str :=
  match alts with
  | [] => None
  | p :: alts' =>
      if ci_startswith text p then Some (take (length p) text)
      else match_alternatives alts' text
  end.

(** [(\d+)\s+(janvier|...|décembre)] at the start of [s]: groups 1 and
    2.  The digits and the white space are the longest runs: a shorter
    run would leave a digit where white space, or white space where the
    first letter of a month, is required. *)
Definition match_day_month (s : str) : option (str * str) :=
  let '(ds, rest) := span_digits s in
  match ds with
  | [] => None
  | _ :: _ =>
      let rest' := lstrip rest in
      if bool_decide (length rest' = length rest) then None
      else match match_alternatives (months_fr.*1) rest' with
           | Some name => Some (ds, name)
           | None => None
           end
  end.

(** [re.search]: the match at the leftmost position that has one. *)
Fixpoint search_day_month (s : str) : option (str * str) :=
  match match_day_month s with
  | Some groups => Some groups
  | None =>
      match s with
      | [] => None
      | _ :: s' => search_day_month s'
      end
  end.

Definition parse_date_from_section (today : datetime) (date_section : str)
  : outcome (option str) :=
  match date_section with
  | [] => Return None
  | _ :: _ =>
      let lowered := lower date_section in
      if contains (py "aujourd'hui") lowered || contains (py "today") lowered
      then Return (Some (strftime_ymd today))
      else if contains (py "demain") lowered || contains (py "tomorrow") lowered
      then match add_one_day today with
           | Some t => Return (Some (strftime_ymd t))
           | None => Raise
           end
      else
        match search_day_month date_section with
        | Some (group1, group2) =>
            match int_of group1 with
            | Raise => Raise
            | Return d =>
                let month_name := lower group2 in
                let m := table_get months_fr month_name (month today) in
                let y :=
                  if (m <? month today) || ((m =? month today) && (d <? day today))
                  then year today + 1 else year today in
                match make_datetime y m d with
                | Some t => Return (Some (strftime_ymd t))
                | None => Return None
                end
            end
        | None => Return None
        end
  end.

End Dates.

(** The rule of section 4.5 for a day and a month: the year of today,
    rolled forward by one when the month and day are earlier in the year
    than today; no date for an invalid combination. *)
Definition upcoming (today : datetime) (m d : N) : option str :=
  let earlier := (m <? month today) || ((m =? month today) && (d <? day today)) in
  let y := if earlier then year today + 1 else year today in
  match make_datetime y m d with
  | Some t => Some (strftime_ymd t)
  | None => None
  end.

(** No alternative of [alts] matches at the start of another one. *)
Definition prefix_free (alts : list str) : bool :=
  forallb (λ a, forallb (λ p,
    bool_decide (p = a)
    || (negb (@ci_startswith latin1 a p) && negb (@ci_startswith latin1 p a))) alts) alts.

(** The reference date of the specification's examples. *)
Definition nov_19 : datetime := {| year := 2025; month := 11; day := 19 |}.

(** ** The description formatter *)

(** The pieces of the label patterns: a literal character, an optional
    literal character ([s?]) and an optional arbitrary character ([.?]
    under [re.DOTALL]); both options are greedy. *)
Inductive item :=
  | Lit (c : N)
  | OptLit (c : N)
  | OptAny.

Definition lits (s : string) : list item := Lit <$> py s.

(** The ways a sequence of items matches at the start of [text], as the
    texts left after the match, in the order the backtracking matcher
    tries them.  [eqc p c] tells that the pattern character [p] matches
    the text character [c]. *)
Fixpoint match_items (eqc : N → N → bool) (items : list item) (text : str) : list str :=
  match items with
  | [] => [text]
  | Lit p :: items' =>
      match text with
      | c :: text' => if eqc p c then match_items eqc items' text' else []
      | [] => []
      end
  | OptLit p :: items' =>
      match text with
      | c :: text' => if eqc p c then match_items eqc items' text' else []
      | [] => []
      end ++ match_items eqc items' text
  | OptAny :: items' =>
      match text with
      | c :: text' => match_items eqc items' text'
      | [] => []
      end ++ match_items eqc items' text
  end.

(** [s[:limit - 3] + "..."] when [len(s) > limit] *)
Definition truncate (limit : nat) (s : str) : str :=
  if (limit <? length s)%nat then take (limit - 3) s ++ py "..." else s.

(** [re.split(r'[.!?]+', s)]: the pieces between the maximal runs of
    sentence marks, empty pieces included. *)
Definition is_mark (c : N) : bool := (c =? 46) || (c =? 33) || (c =? 63).

Fixpoint split_marks_go (cur : str) (in_run : bool) (s : str) : list str :=
  match s with
  | [] => [reverse cur]
  | c :: s' =>
      if is_mark c
      then (if in_run then split_marks_go [] true s'
            else reverse cur :: split_marks_go [] true s')
      else split_marks_go (c :: cur) false s'
  end.

Definition split_marks (s : str) : list str := split_marks_go [] false s.

(** Deleting the matches of a pattern, left to right: [match_length s]
    is the length of the match at the start of [s], and [skip] counts
    the characters of the current match still to delete. *)
Fixpoint delete_matches (match_length : str → option nat) (skip : nat) (s : str) : str :=
  match s with
  | [] => []
  | c :: s' =>
      match skip with
      | S k => delete_matches match_length k s'
      | O =>
          match match_length s with
          | Some (S k) => delete_matches match_length k s'
          | _ => c :: delete_matches match_length 0 s'
          end
      end
  end.

(** A lazy group [(.*?)] under [re.DOTALL] before a lookahead: the
    shortest prefix of [text] after which [stop] holds (the lookaheads of
    the source all hold at the end of the text). *)
Fixpoint lazy_until (stop : str → bool) (text : str) : str :=
  if stop text then []
  else match text with
       | [] => []
       | c :: text' => c :: lazy_until stop text'
       end.

(** The labels and the tokens that end a section. *)
Definition lineup_labels : list (list item) :=
  [ lits "mainstage"; lits "playstage"; lits "line" ++ [OptAny] ++ lits "up";
    lits "line-up"; lits "artist" ++ [OptLit 115]; lits "dj" ++ [OptLit 115] ].

Definition lineup_stops : list str :=
  [ [10; 10]; py "dress"; py "code"; py "vestiaire"; py "info"; py "pratique";
    py "consentement" ].

Definition dress_code_labels : list (list item) :=
  [ lits "dress" ++ [OptAny] ++ lits "code"; lits "tenue"; lits "code vestimentaire" ].

Definition dress_code_stops : list str :=
  [ [10; 10]; py "vestiaire"; py "info"; py "pratique"; py "consentement" ].

(** ["\n\n🎧 Lineup:\n"] and ["\n\n👔 Dress Code: "] *)
Definition lineup_header : str := [10; 10; 127911] ++ py " Lineup:" ++ [10].
Definition dress_code_header : str := [10; 10; 128084] ++ py " Dress Code: ".

Section Formatter.
Context `{U : Unicode}.

(** The class [[:\s]] *)
Definition is_separator (c : N) : bool := (c =? 58) || is_space c.

Fixpoint drop_separators (s : str) : str :=
  match s with
  | [] => []
  | c :: s' => if is_separator c then drop_separators s' else s
  end.

(** [(label1|label2|...)[:\s]+] at the start of [text]: the text after
    the separators, for the first reading of a label that a separator
    follows.  The separators are the longest run, as nothing after them
    in the patterns can fail. *)
Definition match_label (labels : list (list item)) (text : str) : option str :=
  let readings := labels ≫= (λ label, match_items ci_eq label text) in
  match filter (λ rest, from_option is_separator false (head rest) = true) readings with
  | rest :: _ => Some (drop_separators rest)
  | [] => None
  end.

(** The lookahead [(?=stop1|stop2|...|$)]; [$] matches at the end and
    before a final newline. *)
Definition at_stop (stops : list str) (text : str) : bool :=
  existsb (ci_startswith text) stops
  || bool_decide (text = []) || bool_decide (text = [10]).

(** The lazy group [(.*?)] before the lookahead: the shortest text after
    which the lookahead holds. *)
Definition lazy_group (stops : list str) (text : str) : str :=
  lazy_until (at_stop stops) text.

(** [re.search] of [(labels)[:\s]+(.*?)(?=stops|$)]: the start of the
    leftmost match and its group 2.  [pos] is the position of [text] in
    the string searched. *)
Fixpoint search_section (labels : list (list item)) (stops : list str)
    (pos : nat) (text : str) : option (nat * str) :=
  match match_label labels text with
  | Some rest => Some (pos, lazy_group stops rest)
  | None =>
      match text with
      | [] => None
      | _ :: text' => search_section labels stops (S pos) text'
      end
  end.

(** [[s.strip() for s in re.split(r'[.!?]+', text) if s.strip() and len(s) > 10]] *)
Definition sentences_of (text : str) : list str :=
  strip <$> filter (λ s, strip s ≠ [] ∧ (10 < length s)%nat) (split_marks text).

(** The match of [https?://[^\s]+] at the start of [s], by its length. *)
Fixpoint non_space_run (s : str) : nat :=
  match s with
  | [] => O
  | c :: s' => if is_space c then O else S (non_space_run s')
  end.

Definition url_length (s : str) : option nat :=
  match match_items N.eqb (lits "http" ++ [OptLit 115] ++ lits "://") s with
  | rest :: _ =>
      match non_space_run rest with
      | O => None
      | run => Some (length s - length rest + run)%nat
      end
  | [] => None
  end.

(** The match of [@[\w.]+] at the start of [s], by its length. *)
Fixpoint handle_run (s : str) : nat :=
  match s with
  | [] => O
  | c :: s' => if is_word c || (c =? 46) then S (handle_run s') else O
  end.

Definition handle_length (s : str) : option nat :=
  match s with
  | 64 :: s' =>
      match handle_run s' with
      | O => None
      | run => Some (S run)
      end
  | _ => None
  end.

(** The main summary: the text before the first section, its first three
    sentences, at most 300 characters. *)
Definition main_summary (description_en : str) (lineup_match dress_code_match : option (nat * str))
  : option str :=
  let main_desc :=
    match lineup_match, dress_code_match with
    | None, None => description_en
    | Some (a, _), None => strip (take a description_en)
    | None, Some (b, _) => strip (take b description_en)
    | Some (a, _), Some (b, _) => strip (take (a `min` b) description_en)
    end in
  match main_desc with
  | [] => None
  | _ :: _ =>
      match sentences_of main_desc with
      | [] => None
      | sentences =>
          let main_text := truncate 300 (join (py ". ") (take 3 sentences)) in
          match main_text with
          | [] => None
          | _ :: _ => Some main_text
          end
      end
  end.

(** The text of the lineup block, between 20 and 500 characters. *)
Definition lineup_block (lineup_match : option (nat * str)) : option str :=
  match lineup_match with
  | None => None
  | Some (_, group2) =>
      let lineup_text := strip group2 in
      let lineup_text := collapse_spaces lineup_text in
      let lineup_text := delete_matches url_length 0 lineup_text in
      let lineup_text := delete_matches handle_length 0 lineup_text in
      let lineup_text := strip (collapse_spaces lineup_text) in
      match lineup_text with
      | [] => None
      | _ :: _ =>
          if (20 <? length lineup_text)%nat && (length lineup_text <? 500)%nat
          then Some lineup_text else None
      end
  end.

(** The text of the dress-code block: the first two sentences, at most
    200 characters. *)
Definition dress_code_block (dress_code_match : option (nat * str)) : option str :=
  match dress_code_match with
  | None => None
  | Some (_, group2) =>
      let dress_code_text := strip group2 in
      let dress_code_text := collapse_spaces dress_code_text in
      match sentences_of dress_code_text with
      | [] => None
      | dress_sentences =>
          let dress_text := truncate 200 (join (py ". ") (take 2 dress_sentences)) in
          match dress_text with
          | [] => None
          | _ :: _ => Some dress_text
          end
      end
  end.

(** The translated and cleaned text the blocks are cut from.  The
    translator is the external service: it returns a text or raises. *)
Definition translated (translate : str → outcome str) (raw_description : str) : str :=
  let description_en :=
    match translate raw_description with
    | Return text => text
    | Raise => raw_description
    end in
  strip (collapse_spaces description_en).

(** The three blocks of the output, each if it is produced: the main
    summary, the lineup text and the dress-code text. *)
Definition description_blocks (translate : str → outcome str) (raw_description : str)
  : option str * option str * option str :=
  let description_en := translated translate raw_description in
  let lineup_match := search_section lineup_labels lineup_stops 0 description_en in
  let dress_code_match := search_section dress_code_labels dress_code_stops 0 description_en in
  (main_summary description_en lineup_match dress_code_match,
   lineup_block lineup_match,
   dress_code_block dress_code_match).

(** The list [parts] *)
Definition description_parts (blocks : option str * option str * option str) : list str :=
  let '(main_text, lineup_text, dress_text) := blocks in
  from_option (λ t, [t]) [] main_text
  ++ from_option (λ t, [lineup_header ++ t]) [] lineup_text
  ++ from_option (λ t, [dress_code_header ++ t]) [] dress_text.

Definition parse_and_format_description (translate : str → outcome str)
    (raw_description : str) : option str :=
  match raw_description with
  | [] => None
  | _ :: _ =>
      let parts := description_parts (description_blocks translate raw_description) in
      match strip (concat parts) with
      | [] => None
      | result => Some result
      end
  end.

End Formatter.

(** A text that is not empty and neither starts nor ends with white
    space, as [strip] leaves it. *)
Definition starts_with_text `{U : Unicode} (s : str) : Prop :=
  ∃ c, head s = Some c ∧ is_space c = false.

Definition ends_with_text `{U : Unicode} (s : str) : Prop :=
  ∃ c, last s = Some c ∧ is_space c = false.

Definition trimmed `{U : Unicode} (s : str) : Prop :=
  starts_with_text s ∧ ends_with_text s.

(** A translator that returns its input, and one that always fails. *)
Definition no_translation (text : str) : outcome str := Return text.
Definition failing_translation (text : str) : outcome str := Raise.

(** ** The description extraction cascade *)

(** The CSS selectors the cascade queries. *)
Inductive selector :=
  | SelDiv                  (** [div] *)
  | SelClassDescription     (** [[class*="description"]] *)
  | SelClassDescriptionCap  (** [[class*="Description"]] *)
  | SelClassContent         (** [[class*="content"]] *)
  | SelClassText            (** [[class*="text"]] *)
  | SelTestidDescription    (** [[data-testid*="description"]] *)
  | SelEventDescription     (** [.event-description] *)
  | SelItempropDescription  (** [[itemprop="description"]] *)
  | SelSections             (** [section, [class*="event"], [class*="detail"], [class*="info"]] *)
  | SelMain                 (** [main, [role="main"], article, [class*="event"]] *)
  | SelMainOrEvent.         (** the same with [[class*="Event"]] added *)

#[global] Instance selector_eq_dec : EqDecision selector.
Proof. solve_decision. Defined.

(** An element handle: its [inner_text()] and the texts of the [p]
    elements below it. *)
Record element := { inner_text : str; paragraphs : list str }.

(** A parsed [application/ld+json] block, as far as the cascade reads
    it: an object with its [description] and [@type] where present, or an
    array, whose items that are objects are kept. *)
Record ld_object := { description : option str; type_ : option str }.

Inductive json_ld :=
  | LdObject (object : ld_object)
  | LdArray (items : list (option ld_object))
  | LdOther.

(** The page view: the text of [body], the elements each selector gives,
    and the structured-data blocks ([None] where [json.loads] fails). *)
Record page := {
  body_text : str;
  query_selector_all : selector → list element;
  structured_data : list (option json_ld)
}.

(** [page.query_selector]: the first element or [None] *)
Definition query_selector (p : page) (sel : selector) : option element :=
  head (query_selector_all p sel).

(** [s.split(sep)] for a separator of one character *)
Fixpoint split_on_go (sep : N) (cur : str) (s : str) : list str :=
  match s with
  | [] => [reverse cur]
  | c :: s' =>
      if c =? sep then reverse cur :: split_on_go sep [] s'
      else split_on_go sep (c :: cur) s'
  end.

Definition split_on (sep : N) (s : str) : list str := split_on_go sep [] s.

Definition a_propos : str := [224] ++ py " propos".
Definition about_keywords : list str :=
  [ a_propos; py "about"; py "description"; py "details"; py "info" ].
Definition event_keywords : list str :=
  [ py "dj"; py "music"; py "sc" ++ [232] ++ py "ne"; py "scene"; py "stage"; py "dress";
    py "tenue"; py "lineup"; py "line-up"; py "mainstage"; py "playstage" ].
Definition stop_keywords : list str :=
  [ py "vestiaire"; py "info"; py "pratique"; py "consentement"; py "partenaires" ].
Definition section_keywords : list str :=
  [ py "club"; py "venue"; py "paris"; py "rue"; py "nov"; py "dec"; py "dj"; py "music" ].
Definition skip_keywords : list str :=
  [ py "cookie"; py "consent"; py "privacy"; py "billet"; py "ticket"; py "november";
    py "nov"; py "d" ++ [233] ++ py "cembre"; py "december" ].

(** The labels of the four [description_patterns], with whether
    [[:\s]*] follows the label. *)
Definition description_patterns : list (str * bool) :=
  [ (py "Nouveaut" ++ [233] ++ py " pour", false); ([192] ++ py " propos", true);
    (py "About", true); (py "Description", true) ].

Definition description_selectors : list selector :=
  [ SelClassDescription; SelClassDescriptionCap; SelClassContent; SelClassText;
    SelTestidDescription; SelEventDescription; SelItempropDescription ].

Section Extraction.
Context `{U : Unicode}.

(** [[l.strip() for l in text.split('\n') if l.strip()]] *)
Definition stripped_lines (text : str) : list str :=
  filter (λ l, l ≠ []) (strip <$> split_on 10 text).

(** [re.match(r'^\d+', s)] *)
Definition starts_with_digit (s : str) : bool :=
  from_option (λ c, bool_decide (is_Some (digit_val c))) false (head s).

(** [re.match(r'^\d{1,2}\s+(nov|dec|jan)', s)] *)
Definition month_after_spaces (s : str) : bool :=
  let s' := lstrip s in
  negb (bool_decide (length s' = length s))
  && (startswith s' (py "nov") || startswith s' (py "dec") || startswith s' (py "jan")).

Definition starts_with_day_month (s : str) : bool :=
  match s with
  | d1 :: rest =>
      bool_decide (is_Some (digit_val d1))
      && (match rest with
          | d2 :: rest' => bool_decide (is_Some (digit_val d2)) && month_after_spaces rest'
          | [] => false
          end
          || month_after_spaces rest)
  | [] => false
  end.

(** *** Strategy 0: a labelled section of the page text *)

(** The lookahead [(?=\n\n[^\n]{0,30}(?:VESTIAIRE|INFO|PRATIQUE|CONSENTEMENT|PARTENAIRES)|$)] *)
Fixpoint keyword_within (n : nat) (text : str) : bool :=
  existsb (ci_startswith text) stop_keywords
  || match n, text with
     | S n', c :: text' => negb (c =? 10) && keyword_within n' text'
     | _, _ => false
     end.

Definition section_end (text : str) : bool :=
  match text with
  | 10 :: 10 :: text' => keyword_within 30 text'
  | _ => false
  end
  || bool_decide (text = []) || bool_decide (text = [10]).

Fixpoint separators (s : str) : str :=
  match s with
  | [] => []
  | c :: s' => if is_separator c then c :: separators s' else []
  end.

(** Group 1 of a description pattern at the start of [text]: the label,
    the separators where the pattern has them (all of them: the lazy
    group after them cannot fail), and the lazy group. *)
Definition match_description (pattern : str * bool) (text : str) : option str :=
  let '(label, with_separators) := pattern in
  if ci_startswith text label then
    let rest := drop (length label) text in
    let seps := if with_separators then separators rest else [] in
    Some (take (length label) text ++ seps
          ++ lazy_until section_end (drop (length seps) rest))
  else None.

Fixpoint search_description (pattern : str * bool) (text : str) : option str :=
  match match_description pattern text with
  | Some group1 => Some group1
  | None =>
      match text with
      | [] => None
      | _ :: text' => search_description pattern text'
      end
  end.

(** [re.sub(r'^label[:\s]*', '', s, flags=re.IGNORECASE)] for the first
    of [labels] that starts [s] *)
Fixpoint remove_heading (labels : list str) (s : str) : str :=
  match labels with
  | [] => s
  | label :: labels' =>
      if ci_startswith s label then drop_separators (drop (length label) s)
      else remove_heading labels' s
  end.

(** [re.sub(r'^[àa] propos[:\s]*', '', s, flags=re.IGNORECASE)] *)
Definition remove_a_propos (s : str) : str :=
  remove_heading [a_propos; py "a propos"] s.

Fixpoint labelled_section (patterns : list (str * bool)) (all_text : str) : option str :=
  match patterns with
  | [] => None
  | pattern :: patterns' =>
      match search_description pattern all_text with
      | Some group1 =>
          let extracted := strip group1 in
          let extracted := remove_a_propos extracted in
          let extracted := remove_heading [py "about"] extracted in
          let extracted := remove_heading [py "description"] extracted in
          if (200 <? length extracted)%nat then Some (strip extracted)
          else labelled_section patterns' all_text
      | None => labelled_section patterns' all_text
      end
  end.

(** *** Strategy 1: the best-scoring [div] *)

Definition has_about_keyword (text : str) : bool :=
  any_in about_keywords (take 200 (lower text)).

Definition has_event_keywords (text : str) : bool :=
  any_in event_keywords (lower text).

(** The filter of the scoring loop; the whole lowered text is searched
    for the forbidden words. *)
Definition div_qualifies (text : str) : bool :=
  let text_lower := lower text in
  (500 <? length text)%nat
  && (N.of_nat (length text) <? 10000)
  && negb (contains (py "cookie") text_lower)
  && negb (contains (py "consent") text_lower)
  && negb (contains (py "discover upcoming events") text_lower)
  && (has_about_keyword text || has_event_keywords text).

Definition div_score (text : str) : nat :=
  (length text + (if has_about_keyword text then 1000 else 0)
   + (if has_event_keywords text then 500 else 0))%nat.

(** One turn of the loop over the [div]s, on [(best_content, best_length)]. *)
Definition score_div (best : option str * nat) (div : element) : option str * nat :=
  let text := inner_text div in
  match text with
  | [] => best
  | _ :: _ =>
      if div_qualifies text && (best.2 <? div_score text)%nat
      then (Some text, div_score text) else best
  end.

Definition best_content (divs : list element) : option str :=
  (foldl score_div (None, O) divs).1.

(** The index after the first short line with an about keyword *)
Fixpoint about_start (lines : list str) : option (list str) :=
  match lines with
  | [] => None
  | line :: rest =>
      if any_in about_keywords (strip (lower line)) && (length line <? 50)%nat
      then Some rest else about_start rest
  end.

(** The loop over [lines[about_start:]].  On a short line with a stop
    keyword the source evaluates [keyword], a name that is bound only
    inside the generator expressions: a [NameError]. *)
Fixpoint extracted_lines (lines : list str) : outcome (list str) :=
  match lines with
  | [] => Return []
  | line :: rest =>
      if any_in stop_keywords (strip (lower line)) && (length (strip line) <? 80)%nat
      then Raise
      else match extracted_lines rest with
           | Return collected => Return (line :: collected)
           | Raise => Raise
           end
  end.

(** What the cascade makes of the best [div]. *)
Definition description_of_div (content : str) : outcome str :=
  let lines := split_on 10 content in
  match about_start lines with
  | Some after =>
      match extracted_lines after with
      | Raise => Raise
      | Return [] => Return (strip content)
      | Return collected =>
          let result := strip (join [10] collected) in
          let result := remove_a_propos result in
          if (200 <? length result)%nat then Return (strip result)
          else Return (strip content)
      end
  | None => Return (strip content)
  end.

Definition best_div (p : page) : outcome (option str) :=
  match best_content (query_selector_all p SelDiv) with
  | Some content =>
      if (500 <? length content)%nat
      then match description_of_div content with
           | Return text => Return (Some text)
           | Raise => Raise
           end
      else Return None
  | None => Return None
  end.

(** *** Structured data *)

Definition long_description (object : ld_object) : option str :=
  match description object with
  | Some desc => if (50 <? length desc)%nat then Some desc else None
  | None => None
  end.

Definition event_description (item : option ld_object) : option str :=
  match item with
  | Some object =>
      if bool_decide (type_ object = Some (py "Event")) then long_description object
      else None
  | None => None
  end.

Fixpoint first_some {A B : Type} (f : A → option B) (l : list A) : option B :=
  match l with
  | [] => None
  | x :: l' => match f x with Some y => Some y | None => first_some f l' end
  end.

Definition json_ld_description (data : option json_ld) : option str :=
  match data with
  | Some (LdObject object) => long_description object
  | Some (LdArray items) => first_some event_description items
  | _ => None
  end.

Definition structured_description (p : page) : option str :=
  first_some json_ld_description (structured_data p).

(** *** Elements with a description-like class *)

Definition selector_accepts (text : str) : bool :=
  negb (bool_decide (text = []))
  && (80 <? length text)%nat
  && (length text <? 2000)%nat
  && negb (startswith text (py "http"))
  && negb (contains (py "billet") (lower text))
  && negb (contains (py "ticket") (lower text))
  && negb (contains (py "cookie") (lower text))
  && negb (contains (py "privacy") (lower text))
  && negb (contains (py "november") (take 50 (lower text))).

Definition selected_description (p : page) : option str :=
  first_some
    (λ sel, first_some
       (λ elem, let text := strip (inner_text elem) in
                if selector_accepts text then Some text else None)
       (query_selector_all p sel))
    description_selectors.

(** *** Sections with event content *)

Definition section_line_ok (line : str) : bool :=
  negb (starts_with_digit line)
  && negb (contains [8364] line)
  && negb (contains (py "billet") (lower line))
  && negb (contains (py "ticket") (lower line))
  && (20 <? length line)%nat.

(** The first three lines that pass [ok] (the loops [break] at three). *)
Definition first_three (ok : str → bool) (lines : list str) : list str :=
  take 3 (filter (λ l, ok l = true) lines).

Definition section_description (section : element) : option str :=
  let text := strip (inner_text section) in
  if negb (bool_decide (text = []))
     && (100 <? length text)%nat
     && (length text <? 1000)%nat
     && negb (contains (py "discover upcoming events") (lower text))
     && negb (contains (py "billet") (take 50 (lower text)))
     && negb (startswith text (py "http"))
     && any_in section_keywords (lower text)
  then
    match first_three section_line_ok (stripped_lines text) with
    | [] => None
    | desc_lines =>
        let combined := join (py " ") desc_lines in
        if (50 <? length combined)%nat then Some combined else None
    end
  else None.

Definition sections_description (p : page) : option str :=
  first_some section_description (query_selector_all p SelSections).

(** *** Paragraphs of the main content *)

Definition paragraph_ok (text : str) : bool :=
  negb (bool_decide (text = []))
  && (50 <? length text)%nat
  && (length text <? 500)%nat
  && negb (startswith text (py "http"))
  && negb (contains (py "billet") (take 30 (lower text)))
  && negb (contains (py "ticket") (take 30 (lower text)))
  && negb (contains (py "discover upcoming") (lower text))
  && negb (starts_with_day_month (lower text)).

Definition paragraphs_description (p : page) : option str :=
  match query_selector p SelMain with
  | Some main_content =>
      match filter (λ t, paragraph_ok t = true) (strip <$> paragraphs main_content) with
      | [] => None
      | texts =>
          let combined := join (py " ") (take 3 texts) in
          if (80 <? length combined)%nat then Some combined else None
      end
  | None => None
  end.

(** *** Lines of the main content *)

(** A line the scan keeps; the forbidden words are looked for in the
    first 50 characters of the lowered line. *)
Definition line_qualifies (line : str) : bool :=
  let line_lower := lower line in
  negb (any_in skip_keywords (take 50 line_lower))
  && negb (contains (py "discover upcoming events") line_lower
           || contains (py "buy your tickets") line_lower)
  && (50 <? length line)%nat
  && (length line <? 400)%nat
  && negb (startswith line (py "http"))
  && negb (contains [8364] line)
  && negb (starts_with_digit line)
  && negb (starts_with_day_month line_lower).

(** Without a main content element the source calls
    [page.inner_text()] without its selector, a [TypeError] that the
    handler of the strategy swallows. *)
Definition lines_description (p : page) : option str :=
  match query_selector p SelMainOrEvent with
  | Some main_content =>
      match first_three line_qualifies (stripped_lines (inner_text main_content)) with
      | [] => None
      | meaningful_lines =>
          let combined := join (py " ") meaningful_lines in
          if (80 <? length combined)%nat then Some combined else None
      end
  | None => None
  end.

(** *** The cascade *)

Definition or_else {A : Type} (first : option A) (next : option A) : option A :=
  match first with
  | Some x => Some x
  | None => next
  end.

Definition extract_description_from_page (p : page) : option str :=
  match labelled_section description_patterns (body_text p) with
  | Some text => Some text
  | None =>
      match best_div p with
      | Raise => None
      | Return (Some text) => Some text
      | Return None =>
          or_else (structured_description p)
            (or_else (selected_description p)
               (or_else (sections_description p)
                  (or_else (paragraphs_description p) (lines_description p))))
      end
  end.

End Extraction.

(** Pages for the examples: one element under one selector, and a page
    of body text only. *)
Definition page_with (sel : selector) (text : str) : page :=
  {| body_text := [];
     query_selector_all := λ sel',
       if bool_decide (sel' = sel) then [ {| inner_text := text; paragraphs := [] |} ] else [];
     structured_data := [] |}.

Definition page_of_text (text : str) : page :=
  {| body_text := text; query_selector_all := λ _, []; structured_data := [] |}.

Definition party_text : str :=
  py "Une nuit de musique avec les meilleurs artistes de la capitale, dans une ambiance chaleureuse.".

Definition cookie_notice : str :=
  py "Nous utilisons des cookies pour ameliorer votre experience sur le site et mesurer son audience.".

Definition about_with_cookie : str :=
  py "About: a long night of house and disco on two floors, with a garden open until the morning."
  ++ py " Our partners bake a cookie for every guest who comes before midnight, and the bar serves"
  ++ py " tea and lemonade for free until the first set is over.".

(** ** The report of [main] after the merge

    [new_count = len(merged_events) - len(existing_events)] and
    [updated_count = len(queer_paris_events) - new_count], on Python
    integers. *)
Definition new_count (existing_events merged_events : list loc) : Z :=
  (Z.of_nat (length merged_events) - Z.of_nat (length existing_events))%Z.

Definition updated_count (existing_events queer_paris_events merged_events : list loc) : Z :=
  (Z.of_nat (length queer_paris_events) - new_count existing_events merged_events)%Z.

(** [extends e' e]: [e'] holds every attribute that is set on [e], with
    the value it has on [e]; what [fill_missing] does to a record. *)
Definition extends (e' e : event) : Prop :=
  ∀ k v, e !! k = Some v → truthy v = true → e' !! k = Some v.

(** A [datetime] that the constructor accepts: a day of the calendar. *)
Definition valid_date (t : datetime) : Prop :=
  make_datetime (year t) (month t) (day t) = Some t.

(** The order of calendar dates, [a <= b] and [a < b] on [datetime]s. *)
Definition date_le (a b : datetime) : Prop :=
  year a < year b
  ∨ (year a = year b ∧ (month a < month b ∨ (month a = month b ∧ day a ≤ day b))).

Definition date_lt (a b : datetime) : Prop :=
  year a < year b
  ∨ (year a = year b ∧ (month a < month b ∨ (month a = month b ∧ day a < day b))).

(** ** Enrichment of the records

    The functions that complete a record from the two sites.  The
    services outside the repository are parameters: the translator, the
    browser ([visit link] is the page that opening [link] gives, or the
    exception it raises), the search on shotgun.live and the scraper of a
    queer.paris detail page. *)

(** The links [enrich_event_descriptions] removes. *)
Definition bad_links : list str := [py "https://shotgun.live/fr/events/la-dimanche"].

Section Enrichment.
Context `{U : Unicode}.
Variable translate : str → outcome str.
Variable visit : str → outcome page.

(** [format_description(raw_description, lineup, dress_code, event_name,
    venue_name)]: only the first argument is used; [None] is a missing
    description. *)
Definition format_description (raw_description : option str) (lineup dress_code : option str)
    (event_name venue_name : value) : option str :=
  match raw_description with
  | Some raw => parse_and_format_description translate raw
  | None => None
  end.

(** [enrich_event_from_shotgun(playwright, event)]; the search returns
    the pair [ticket_link, image_url] or raises. *)
Definition enrich_event_from_shotgun
    (search_event_on_shotgun : value → value → outcome (value * value))
    (e : event) : outcome event :=
  let event_name := get e (py "name") (VStr []) in
  let event_date := get e (py "date") (VStr []) in
  match search_event_on_shotgun event_name event_date with
  | Raise => Raise
  | Return (ticket_link, image_url) =>
      let e :=
        if truthy ticket_link then <[py "ticketLink" := ticket_link]> e else e in
      let e :=
        if truthy image_url then <[py "imageUrl" := image_url]> e else e in
      match ticket_link with
      | VStr (c :: link) =>
          match visit (c :: link) with
          | Return p =>
              match extract_description_from_page p with
              | Some (d :: description) =>
                  match format_description (Some (d :: description)) None None
                          event_name (get e (py "venueName") VNone) with
                  | Some (f :: formatted_desc) =>
                      Return (<[py "description" := VStr (f :: formatted_desc)]> e)
                  | _ => Return e
                  end
              | _ => Return e
              end
          | Raise => Return e
          end
      | _ => Return e
      end
  end.

(** [if info.get(key) and not event.get(key): event[key] = info[key]] *)
Definition fill_from (info : event) (key : string) (e : event) : event :=
  if truthy (get info (py key) VNone) && negb (truthy (get e (py key) VNone))
  then <[py key := get info (py key) VNone]> e
  else e.

(** [enrich_event_from_queerparis(page, event)]; the scraper of the
    detail page returns a dictionary, empty when it fails. *)
Definition enrich_event_from_queerparis
    (extract_event_info_from_queerparis : str → event) (e : event) : event :=
  match get e (py "queerParisUrl") VNone with
  | VStr (c :: queer_url) =>
      let info := extract_event_info_from_queerparis (c :: queer_url) in
      let e :=
        match get info (py "description") VNone with
        | VStr (d :: description) =>
            if negb (truthy (get e (py "description") VNone))
            then match translate (d :: description) with
                 | Return desc_en => <[py "description" := VStr desc_en]> e
                 | Raise => <[py "description" := VStr (d :: description)]> e
                 end
            else e
        | _ => e
        end in
      let e := fill_from info "address" e in
      let e := fill_from info "price" e in
      let e := fill_from info "ticketLink" e in
      let e := fill_from info "instagram" e in
      e
  | _ => e
  end.

(** One turn of the loop of [enrich_event_descriptions]. *)
Definition enrich_event_descriptions_step (e : event) : event :=
  let event_name := get e (py "name") (VStr []) in
  let ticket_link := get e (py "ticketLink") (VStr []) in
  if bool_decide (ticket_link ∈ VStr <$> bad_links)
  then <[py "ticketLink" := VStr []]> e
  else
    match ticket_link with
    | VStr (c :: link) =>
        if startswith (c :: link) (py "https://shotgun.live")
        then match visit (c :: link) with
             | Return p =>
                 match format_description (extract_description_from_page p) None None
                         event_name (get e (py "venueName") (VStr [])) with
                 | Some (f :: formatted_desc) =>
                     <[py "description" := VStr (f :: formatted_desc)]> e
                 | _ => e
                 end
             | Raise => e
             end
        else e
    | _ => e
    end.

(** [enrich_event_descriptions], from the events read to the events
    written. *)
Definition enrich_event_descriptions (events : list event) : list event :=
  enrich_event_descriptions_step <$> events.

End Enrichment.

(** ** The listing of the queer.paris homepage *)

(** An [a[href]] element: its [href] attribute and its [inner_text()]. *)
Record link := { link_href : value; link_text : str }.

(** What [extract_events_from_queerparis_homepage] reads of the page:
    the text of [body] and the links. *)
Record homepage := { all_text : str; all_links : list link }.

(** The two lists [skip_keywords], of the links and of the lines. *)
Definition link_skip_keywords : list str :=
  [ py "ajoutez"; py "sponsoriser"; py "publicit" ++ [233]; py "cgu"; py "mentions";
    py "contact"; py "explorer"; py "se connecter"; py "s'inscrire"; py "voir sur";
    py "ajouter " ++ [224]; py "aujourd'hui"; py "demain"; py "hier" ].

Definition line_skip_keywords : list str :=
  [ py "queer paris"; [233] ++ py "v" ++ [233] ++ py "nement sponsoris" ++ [233];
    py "publicit" ++ [233]; py "ajoutez vos " ++ [233] ++ py "v" ++ [233] ++ py "nements";
    py "sponsoriser"; py "publicit" ++ [233] ++ py " sur"; py "cgu";
    py "mentions l" ++ [233] ++ py "gales"; py "contact" ].

(** The alternatives of the two [date_patterns]. *)
Definition relative_days : list str := [ py "Aujourd'hui"; py "Demain"; py "Hier" ].

Definition weekdays : list str :=
  [ py "lun"; py "mar"; py "mer"; py "jeu"; py "ven"; py "sam"; py "dim" ].

Definition header_months : list str :=
  [ py "novembre"; py "d" ++ [233] ++ py "cembre"; py "janvier"; py "f" ++ [233] ++ py "vrier";
    py "mars"; py "avril"; py "mai"; py "juin"; py "juillet"; py "ao" ++ [251] ++ py "t";
    py "septembre"; py "octobre" ].

(** The full URL of a link:
    [href] if it starts with ['http'], else ['https://queer.paris' + href]
    if it starts with ['/'], else [f'https://queer.paris/{href}']. *)
Definition full_url (href : str) : str :=
  if negb (startswith href (py "http"))
  then (if startswith href (py "/") then py "https://queer.paris" ++ href
        else py "https://queer.paris/" ++ href)
  else href.

(** A lazy [.*?] followed by the literal [needle], at the start of [s]:
    the length of the shortest match; [.] does not match a newline. *)
Fixpoint lazy_literal (needle s : str) : option nat :=
  if startswith s needle then Some (length needle)
  else match s with
       | [] => None
       | c :: s' => if c =? 10 then None else S <$> lazy_literal needle s'
       end.

Section Homepage.
Context `{U : Unicode}.

(** One turn of the loop over the links: the dictionary [event_urls], in
    insertion order. *)
Definition add_event_url (event_urls : list (str * str)) (l : link) : list (str * str) :=
  match link_href l with
  | VStr (c :: href) =>
      let text := strip (link_text l) in
      if bool_decide (text = []) || (length text <? 3)%nat then event_urls
      else if any_in link_skip_keywords (lower text) then event_urls
      else
        let full_url := full_url (c :: href) in
        if contains (py "queer.paris") full_url
        then (if bool_decide (text ∈ event_urls.*1) then event_urls
              else event_urls ++ [(text, full_url)])
        else event_urls
  | _ => event_urls
  end.

Definition collect_event_urls (links : list link) : list (str * str) :=
  foldl add_event_url [] links.

(** [$]: at the end of the text or before its final newline. *)
Definition at_end (s : str) : bool := bool_decide (s = []) || bool_decide (s = [10]).

(** [re.match(r'^(Aujourd\'hui|Demain|Hier)$', line, re.IGNORECASE)] *)
Definition match_relative_day (line : str) : bool :=
  existsb (λ day, ci_startswith line day && at_end (drop (length day) line)) relative_days.

(** [\s+\d+\s+(novembre|...|octobre)] at the start of [s].  The runs of
    white space and of digits are the longest ones: a shorter run would
    leave white space where a digit, a digit where white space, or white
    space where the first letter of a month is required. *)
Definition match_day_and_month (s : str) : bool :=
  let rest1 := lstrip s in
  negb (bool_decide (length rest1 = length s))
  && let '(ds, rest2) := span_digits rest1 in
     negb (bool_decide (ds = []))
     && let rest3 := lstrip rest2 in
        negb (bool_decide (length rest3 = length rest2))
        && existsb (ci_startswith rest3) header_months.

(** [re.match(r'^(lun|...|dim)\.?\s+\d+\s+(novembre|...)', line,
    re.IGNORECASE)]: every reading of the day and of the optional dot is
    tried. *)
Definition match_weekday_date (line : str) : bool :=
  existsb match_day_and_month
    (weekdays ≫= (λ day, match_items ci_eq ((Lit <$> day) ++ [OptLit 46]) line)).

(** A line that one of the [date_patterns] matches. *)
Definition is_date_section (line : str) : bool :=
  match_relative_day line || match_weekday_date line.

Definition is_digit (c : N) : bool := bool_decide (is_Some (digit_val c)).

(** [\d{1,2}:\d{2}] at the start of [s]: two digits are tried before
    one. *)
Definition match_time (s : str) : option str :=
  let two_digits :=
    match s with
    | a :: b :: 58 :: c :: d :: _ =>
        if is_digit a && is_digit b && is_digit c && is_digit d
        then Some [a; b; 58; c; d] else None
    | _ => None
    end in
  match two_digits with
  | Some time_str => Some time_str
  | None =>
      match s with
      | a :: 58 :: c :: d :: _ =>
          if is_digit a && is_digit c && is_digit d then Some [a; 58; c; d] else None
      | _ => None
      end
  end.

(** [re.search(r'(\d{1,2}:\d{2})', s)]: group 1 of the leftmost match. *)
Fixpoint search_time (s : str) : option str :=
  match match_time s with
  | Some time_str => Some time_str
  | None =>
      match s with
      | [] => None
      | _ :: s' => search_time s'
      end
  end.

(** [\d+.*?Paris.*?France] at the start of [s], by the length of the
    match: a digit, then the shortest text up to [Paris], then the
    shortest text up to [France] (the digits after the first one are
    taken by [\d+] or by [.*?], with the same match). *)
Definition address_length (s : str) : option nat :=
  match s with
  | c :: s' =>
      if is_digit c
      then match lazy_literal (py "Paris") s' with
           | Some n1 =>
               match lazy_literal (py "France") (drop n1 s') with
               | Some n2 => Some (S (n1 + n2))
               | None => None
               end
           | None => None
           end
      else None
  | [] => None
  end.

(** The venue of an event, from the third line. *)
Definition venue_of (next_next_line : str) : value :=
  match next_next_line with
  | [] => VNone
  | _ :: _ =>
      if contains (py "paris") (lower next_next_line)
      then
        let venue := delete_matches address_length 0 next_next_line in
        let venue := strip venue in
        if bool_decide (venue = []) || (length venue <? 3)%nat then VNone
        else VStr venue
      else VNone
  end.

(** [event_urls.get(event_name)] *)
Fixpoint url_get (event_urls : list (str * str)) (event_name : str) : option str :=
  match event_urls with
  | [] => None
  | (name, url) :: event_urls' =>
      if bool_decide (name = event_name) then Some url else url_get event_urls' event_name
  end.

(** The fuzzy match: the first link whose lowered text holds the lowered
    name of the event or is held by it. *)
Fixpoint url_fuzzy (event_urls : list (str * str)) (event_name : str) : option str :=
  match event_urls with
  | [] => None
  | (name, url) :: event_urls' =>
      if contains (lower event_name) (lower name) || contains (lower name) (lower event_name)
      then Some url else url_fuzzy event_urls' event_name
  end.

(** The URL of an event: the exact entry if it is not empty (no URL of
    [event_urls] is), else the fuzzy match if there is one. *)
Definition url_of (event_urls : list (str * str)) (event_name : str) : value :=
  let event_url := url_get event_urls event_name in
  match event_url with
  | Some (c :: url) => VStr (c :: url)
  | _ =>
      match url_fuzzy event_urls event_name with
      | Some url => VStr url
      | None => from_option VStr VNone event_url
      end
  end.

(** The dictionary of an event. *)
Definition listed_event (event_name time_str : str) (venue event_date event_url : value)
  : event :=
  list_to_map
    [ (py "name", VStr event_name); (py "time", VStr time_str); (py "venueName", venue);
      (py "date", event_date); (py "queerParisUrl", event_url);
      (py "source", VStr (py "queer.paris")) ].

(** The loop [while i < len(lines)] from position [i], as the lines
    from that position on; [today] is the date of the clock.  An
    exception of [parse_date_from_section] leaves the loop. *)
Fixpoint parse_listing (today : datetime) (event_urls : list (str * str))
    (current_date_section : option str) (lines : list str) : outcome (list event) :=
  match lines with
  | [] => Return []
  | line :: rest =>
      let current_date_section :=
        if is_date_section line then Some line else current_date_section in
      if any_in line_skip_keywords (lower line)
      then parse_listing today event_urls current_date_section rest
      else
        match current_date_section, rest with
        | Some (c :: section), next_line :: next_next_line :: rest' =>
            match search_time next_line with
            | Some time_str =>
                if (3 <? length line)%nat
                then
                  let venue := venue_of next_next_line in
                  let event_url := url_of event_urls line in
                  match parse_date_from_section today (c :: section) with
                  | Raise => Raise
                  | Return event_date =>
                      let event :=
                        listed_event line time_str venue
                          (from_option VStr VNone event_date) event_url in
                      match parse_listing today event_urls current_date_section rest' with
                      | Raise => Raise
                      | Return events => Return (event :: events)
                      end
                  end
                else parse_listing today event_urls current_date_section rest
            | None => parse_listing today event_urls current_date_section rest
            end
        | _, _ => parse_listing today event_urls current_date_section rest
        end
  end.

(** [extract_events_from_queerparis_homepage(page)]: an exception gives
    the empty list. *)
Definition extract_events_from_queerparis_homepage (today : datetime) (p : homepage)
  : list event :=
  let event_urls := collect_event_urls (all_links p) in
  let lines := stripped_lines (all_text p) in
  match parse_listing today event_urls None lines with
  | Return events => events
  | Raise => []
  end.

End Homepage.

(** A text of the form [H:MM] or [HH:MM]. *)
Definition clock_time `{U : Unicode} (t : str) : Prop :=
  (∃ a c d, t = [a; 58; c; d]
            ∧ is_digit a = true ∧ is_digit c = true ∧ is_digit d = true)
  ∨ (∃ a b c d, t = [a; b; 58; c; d]
                ∧ is_digit a = true ∧ is_digit b = true
                ∧ is_digit c = true ∧ is_digit d = true).

(** [listed today event_urls lines current e]: the loop of the listing
    builds the event [e] from three lines of [lines], under a date
    section that is [current] or a line of [lines]. *)
Definition listed `{U : Unicode} (today : datetime) (event_urls : list (str * str))
    (lines : list str) (current : option str) (e : event) : Prop :=
  ∃ line next_line next_next_line section time_str event_date,
    line ∈ lines ∧ next_line ∈ lines ∧ next_next_line ∈ lines
    ∧ (current = Some section ∨ (section ∈ lines ∧ is_date_section section = true))
    ∧ section ≠ []
    ∧ any_in line_skip_keywords (lower line) = false
    ∧ (3 < length line)%nat
    ∧ search_time next_line = Some time_str
    ∧ parse_date_from_section today section = Return event_date
    ∧ e = listed_event line time_str (venue_of next_next_line)
            (from_option VStr VNone event_date) (url_of event_urls line).

(** [from_link links name url]: the entry [name: url] of [event_urls]
    comes from a link of the page. *)
Definition from_link `{U : Unicode} (links : list link) (entry : str * str) : Prop :=
  ∃ l href,
    l ∈ links ∧ link_href l = VStr href ∧ href ≠ []
    ∧ entry.1 = strip (link_text l) ∧ (3 ≤ length entry.1)%nat
    ∧ any_in link_skip_keywords (lower entry.1) = false
    ∧ entry.2 = full_url href
    ∧ contains (py "queer.paris") entry.2 = true.

(** The attributes of the events of the listing. *)
Definition listing_keys : list string :=
  ["name"; "time"; "venueName"; "date"; "queerParisUrl"; "source"].

(** A homepage with one section and one event, and the event the
    listing gives for it on [nov_19]. *)
Definition bbb_homepage : homepage := {|
  all_text :=
    py "ven. 21 novembre" ++ [10] ++ py "BBB Party" ++ [10] ++ py "22:00 - 06:00" ++ [10]
    ++ py "Le Depot, 10 rue aux Ours, 75003 Paris, France";
  all_links := [ {| link_href := VStr (py "/e/bbb"); link_text := py " BBB Party " |} ]
|}.

Definition bbb_event : event :=
  @listed_event (py "BBB Party") (py "22:00") (VStr (py "Le Depot,"))
    (VStr (py "2025-11-21")) (VStr (py "https://queer.paris/e/bbb")).

(** A [div] of more than 500 characters with an about line and, further
    down, a short line with a stop keyword; and a page that holds it
    together with structured data. *)
Definition div_with_stop_line : str :=
  py "About" ++ [10]
  ++ concat (replicate 50 (py "Une nuit de musique. "))
  ++ [10] ++ py "Infos pratiques" ++ [10] ++ py "Ouverture des portes a minuit.".

Definition page_with_stop_line : page :=
  {| body_text := [];
     query_selector_all := λ sel,
       if bool_decide (sel = SelDiv)
       then [ {| inner_text := div_with_stop_line; paragraphs := [] |} ] else [];
     structured_data :=
       [ Some (LdObject {| description := Some party_text; type_ := Some (py "Event") |}) ] |}.

(** ** The choice of a search result on shotgun.live *)

(** An [a[href*="/events/"]] element of the results: its [inner_text()]
    and its [href] attribute. *)
Record search_result := { result_text : str; result_href : value }.

(** The full URL of a result:
    [href] if it starts with ['http'], else ['https://shotgun.live' + href]
    if it starts with ['/'], else [f'https://shotgun.live/{href}']. *)
Definition shotgun_url (href : str) : str :=
  if negb (startswith href (py "http"))
  then (if startswith href (py "/") then py "https://shotgun.live" ++ href
        else py "https://shotgun.live/" ++ href)
  else href.

Section Shotgun.
Context `{U : Unicode}.

(** The list [event_words]: the whole lowered name for a name of at most
    five characters, else its words of more than two characters. *)
Definition event_words (event_name : str) : list str :=
  let event_name_lower := strip (lower event_name) in
  if (length event_name <=? 5)%nat then [event_name_lower]
  else filter (λ w, (2 < length w)%nat) (split event_name_lower).

(** [match_score] of a result, from its lowered text and its lowered
    full URL. *)
Definition match_score (event_name text href_lower : str) : nat :=
  let event_name_lower := strip (lower event_name) in
  let words := event_words event_name in
  (foldl (λ score word,
            score + (if contains word text then 2 else 0)
            + (if contains word href_lower then 1 else 0)) 0 words
   + (if (length event_name <=? 5)
         && (contains event_name_lower text || contains event_name_lower href_lower)
      then 5 else 0)
   + (if existsb (λ word, contains word href_lower) words then 3 else 0))%nat.

(** The score of a result that has an [href], with its full URL. *)
Definition scored (event_name : str) (result : search_result) : option (str * nat) :=
  match result_href result with
  | VStr (c :: href) =>
      let text := lower (result_text result) in
      let href := shotgun_url (c :: href) in
      Some (href, match_score event_name text (lower href))
  | _ => None
  end.

(** One turn of the loop over the results, on [best_match_url] and the
    score of [best_match]. *)
Definition consider (event_name : str) (best : option (str * nat)) (result : search_result)
  : option (str * nat) :=
  match scored event_name result with
  | Some (href, score) =>
      if (0 <? score)%nat
      then match best with
           | None => Some (href, score)
           | Some (_, best_score) =>
               if (best_score <? score)%nat then Some (href, score) else best
           end
      else best
  | None => best
  end.

(** [best_match_url] after the loop of [search_event_on_shotgun]. *)
Definition best_match_url (event_name : str) (results : list search_result) : option str :=
  fst <$> foldl (consider event_name) None results.

End Shotgun.

(** [single_spaced in_run s]: every white-space character of [s] is a
    space, and no two of them are adjacent ([in_run]: nor is the first
    one, when [s] follows a white-space character). *)
Fixpoint single_spaced `{U : Unicode} (in_run : bool) (s : str) : bool :=
  match s with
  | [] => true
  | c :: s' =>
      if is_space c then negb in_run && (c =? 32) && single_spaced true s'
      else single_spaced false s'
  end.

(** A page whose [main] element has a content class and one line of
    text, with "cookie" after the 50th character of the line. *)
Definition cookie_line : str :=
  py "A long night of house and disco on two floors, with a garden open until the morning"
  ++ py " and a cookie for every guest who comes early.".

Definition cookie_page : page :=
  {| body_text := cookie_line;
     query_selector_all := λ sel,
       if bool_decide (sel ∈ [SelClassContent; SelMain; SelMainOrEvent])
       then [ {| inner_text := cookie_line; paragraphs := [] |} ] else [];
     structured_data := [] |}.

(** * Properties *)

Example events_match_bbb :
  @events_match latin1 (ev [("name", "BBB"); ("date", "2025-11-23")])
                       (ev [("name", "bbb"); ("date", "2025-11-23")]) = true.
Proof. vm_compute. reflexivity. Qed.

Example events_match_bbb_xyz :
  @events_match latin1 (ev [("name", "BBB"); ("date", "2025-11-23")])
                       (ev [("name", "XYZ"); ("date", "2025-11-23")]) = false.
Proof. vm_compute. reflexivity. Qed.

Example events_match_overlap :
  @events_match latin1
     (ev [("name", "Queer Night: Winter Edition"); ("venueName", "Le  Depot")])
     (ev [("name", "winter night / special"); ("venueName", "le depot!")]) = true.
Proof. vm_compute. reflexivity. Qed.

(** ** The identity resolver *)

Lemma startswith_refl (s : str) : startswith s s = true.
Proof. induction s as [|c s IH]; simpl; [done|]. by rewrite N.eqb_refl. Qed.

Lemma contains_refl (s : str) : contains s s = true.
Proof. destruct s; simpl; [done|]. by rewrite N.eqb_refl, startswith_refl. Qed.

Section IdentityProperties.
Context `{U : Unicode}.

Lemma lstrip_head (s : str) c t : lstrip s = c :: t → is_space c = false.
Proof.
  induction s as [|a s IH]; simpl; [done|].
  destruct (is_space a) eqn:Ha; [done|]. intros [= -> _]. done.
Qed.

Lemma strip_nonempty (s : str) :
  strip s ≠ [] → ∃ c, c ∈ strip s ∧ is_space c = false.
Proof.
  unfold strip, rstrip. intros Hne.
  destruct (lstrip (reverse (lstrip s))) as [|c t] eqn:Hy; [done|].
  exists c. split; [|by eapply lstrip_head].
  rewrite reverse_cons. set_solver.
Qed.

Lemma split_go_nonempty (s cur : str) :
  cur ≠ [] ∨ (∃ c, c ∈ s ∧ is_space c = false) → split_go cur s ≠ [].
Proof.
  revert cur. induction s as [|a s IH]; intros cur H; simpl.
  - destruct H as [H|(c & Hc & _)]; [by destruct cur|by apply elem_of_nil in Hc].
  - destruct (is_space a) eqn:Ha.
    + destruct cur; [|done]. apply IH. right.
      destruct H as [H|(c & Hc & Hsp)]; [done|].
      apply elem_of_cons in Hc as [->|Hc]; [congruence|eauto].
    + apply IH. by left.
Qed.

(** A normalized name that is not empty has at least one word: the
    branch [name_match = False] under [if words1 and words2] is never
    taken. *)
Lemma normalized_has_word (v : value) :
  normalize_event_name v ≠ [] → word_set (normalize_event_name v) ≠ ∅.
Proof.
  intros Hne. destruct v as [|[|c s]]; simpl in *; try done.
  apply strip_nonempty in Hne as (a & Ha & Hsp).
  unfold word_set, split.
  pose proof (split_go_nonempty _ [] (or_intror (ex_intro _ a (conj Ha Hsp)))) as Hs.
  destruct (split_go [] _) as [|w ws]; [done|]. set_solver.
Qed.

Lemma name_match_true (v1 v2 : value) :
  let n1 := normalize_event_name v1 in
  let n2 := normalize_event_name v2 in
  name_match n1 n2 = true ↔
  n1 ≠ [] ∧ n2 ≠ [] ∧
  (contains n1 n2 = true ∨ contains n2 n1 = true ∨
   (1 # 2 <= overlap (word_set n1) (word_set n2))%Q).
Proof.
  intros n1 n2. unfold name_match.
  pose proof (normalized_has_word v1) as Hw1.
  pose proof (normalized_has_word v2) as Hw2. fold n1 n2 in Hw1, Hw2.
  destruct (decide (n1 = [])) as [E1|E1].
  { rewrite (bool_decide_eq_true_2 _ E1). simpl. naive_solver. }
  destruct (decide (n2 = [])) as [E2|E2].
  { rewrite (bool_decide_eq_true_2 _ E2), andb_false_r. naive_solver. }
  rewrite (bool_decide_eq_false_2 _ E1), (bool_decide_eq_false_2 _ E2). simpl.
  rewrite (bool_decide_eq_false_2 _ (Hw1 E1)), (bool_decide_eq_false_2 _ (Hw2 E2)). simpl.
  destruct (contains n1 n2) eqn:H12; simpl; [naive_solver|].
  destruct (contains n2 n1) eqn:H21; simpl; [naive_solver|].
  rewrite Qle_bool_iff. naive_solver.
Qed.

Lemma both_set_and_equal_true (x y : value) :
  both_set_and_equal x y = true ↔ truthy x = true ∧ truthy y = true ∧ x = y.
Proof.
  unfold both_set_and_equal.
  destruct (truthy x), (truthy y); simpl; try naive_solver.
  rewrite bool_decide_eq_true. naive_solver.
Qed.

Lemma name_match_sym (n1 n2 : str) : name_match n1 n2 = name_match n2 n1.
Proof.
  unfold name_match, overlap.
  rewrite (andb_comm (negb (bool_decide (n1 = [])))).
  rewrite (orb_comm (contains n1 n2)).
  rewrite (andb_comm (negb (bool_decide (word_set n1 = ∅)))).
  rewrite (comm_L (∩) (word_set n1)), (Nat.max_comm (size (word_set n1))).
  done.
Qed.

Lemma both_set_and_equal_sym (x y : value) :
  both_set_and_equal x y = both_set_and_equal y x.
Proof.
  unfold both_set_and_equal. rewrite (andb_comm (truthy x)).
  destruct (truthy y && truthy x); [|done].
  apply bool_decide_ext. naive_solver.
Qed.

(** C9. [events_match] is symmetric. *)
Theorem events_match_sym (a b : event) : events_match a b = events_match b a.
Proof.
  unfold events_match. cbv zeta.
  rewrite name_match_sym, both_set_and_equal_sym.
  f_equal. f_equal.
  rewrite (andb_comm (negb (bool_decide (normalize_event_name (get a (py "venueName") (VStr [])) = [])))).
  destruct (_ && _); [|done].
  apply bool_decide_ext. naive_solver.
Qed.

Lemma name_match_refl (n : str) : n ≠ [] → name_match n n = true.
Proof.
  intros Hn. unfold name_match.
  rewrite (bool_decide_eq_false_2 _ Hn). simpl. by rewrite contains_refl.
Qed.

(** C5, as the code has it.  A record matches itself when its name is
    not empty after normalization and either its date is set or its
    venue name is not empty after normalization. *)
Theorem events_match_refl (e : event) :
  normalized e "name" ≠ [] →
  truthy (get e (py "date") (VStr [])) = true ∨ normalized e "venueName" ≠ [] →
  events_match e e = true.
Proof.
  unfold normalized. intros Hname Hkey.
  unfold events_match. cbv zeta.
  rewrite name_match_refl by done. simpl.
  destruct Hkey as [Hd|Hv].
  - unfold both_set_and_equal. rewrite Hd. simpl. by rewrite bool_decide_eq_true_2.
  - rewrite (bool_decide_eq_false_2 _ Hv). simpl.
    rewrite bool_decide_eq_true_2 by done. apply orb_true_r.
Qed.

End IdentityProperties.

(** C5 at a record with a name and a date. *)
Lemma events_match_refl_witness :
  @events_match latin1 (ev [("name", "BBB"); ("date", "2025-11-23")])
                       (ev [("name", "BBB"); ("date", "2025-11-23")]) = true.
Proof.
  apply (@events_match_refl latin1).
  - vm_compute. discriminate.
  - left. vm_compute. reflexivity.
Defined.

(** C5 as stated fails: a record whose name has no letter or digit has a
    date set and does not match itself. *)
Lemma events_match_not_refl :
  let e := ev [("name", "!!!"); ("date", "2025-11-23")] in
  truthy (get e (py "date") (VStr [])) = true ∧ @events_match latin1 e e = false.
Proof. vm_compute. split; reflexivity. Qed.

(** Nor does a record whose only key besides the name is a venue name
    that normalizes to the empty string. *)
Lemma events_match_not_refl_venue :
  let e := ev [("name", "BBB"); ("venueName", "???")] in
  truthy (get e (py "venueName") (VStr [])) = true ∧ @events_match latin1 e e = false.
Proof. vm_compute. split; reflexivity. Qed.

(** ** The merge engine *)

Section MergeProperties.
Context `{U : Unicode}.

(** What the fill loop leaves under each key. *)
Lemma fill_missing_lookup (n e : event) (k : str) :
  fill_missing n e !! k =
  match n !! k with
  | Some v => if truthy v && negb (truthy (get e k VNone)) then Some v else e !! k
  | None => e !! k
  end.
Proof.
  unfold fill_missing. revert k.
  apply (map_fold_weak_ind
           (λ r m, ∀ k, r !! k = match m !! k with
                                  | Some v => if truthy v && negb (truthy (get e k VNone))
                                              then Some v else e !! k
                                  | None => e !! k
                                  end)).
  - intros k. by rewrite lookup_empty.
  - intros i x m r Hi IH k.
    assert (get r i VNone = get e i VNone) as Hget.
    { unfold get. by rewrite IH, Hi. }
    destruct (decide (i = k)) as [->|Hne].
    + rewrite lookup_insert_eq, Hget.
      destruct (truthy x && negb (truthy (get e k VNone))) eqn:Hc.
      * by rewrite lookup_insert_eq.
      * by rewrite IH, Hi.
    + rewrite lookup_insert_ne, Hget by done.
      destruct (truthy x && negb (truthy (get e i VNone))).
      * by rewrite lookup_insert_ne.
      * done.
Qed.

Lemma fill_missing_keeps (n e : event) (k : str) (v : value) :
  e !! k = Some v → truthy v = true → fill_missing n e !! k = Some v.
Proof.
  intros He Hv. rewrite fill_missing_lookup. unfold get. rewrite He. simpl.
  rewrite Hv. destruct (n !! k) as [w|]; [|done]. by rewrite andb_false_r.
Qed.


Lemma fill_missing_changes (n e : event) (k : str) :
  fill_missing n e !! k ≠ e !! k →
  truthy (get e k VNone) = false ∧
  ∃ v, n !! k = Some v ∧ truthy v = true ∧ fill_missing n e !! k = Some v.
Proof.
  rewrite fill_missing_lookup.
  destruct (n !! k) as [w|]; [|done].
  destruct (truthy w) eqn:Hw; simpl; [|done].
  destruct (truthy (get e k VNone)) eqn:He; simpl; [done|]. eauto.
Qed.

Lemma covers_fill_missing_id (n e : event) : covers e n → fill_missing n e = e.
Proof.
  intros Hc. apply map_eq. intros k. rewrite fill_missing_lookup.
  destruct (n !! k) as [w|] eqn:Hn; [|done].
  destruct (truthy w) eqn:Hw; simpl; [|done].
  by rewrite (Hc k w Hn Hw).
Qed.

Lemma covers_refl (e : event) : covers e e.
Proof. intros k v He Hv. unfold get. by rewrite He. Qed.

Lemma covers_fill_missing (n e : event) : covers (fill_missing n e) n.
Proof.
  intros k v Hn Hv. unfold get. rewrite fill_missing_lookup, Hn, Hv. simpl.
  destruct (truthy (get e k VNone)) eqn:He; simpl; [|done]. done.
Qed.

Lemma covers_grows (m n e : event) : covers e n → covers (fill_missing m e) n.
Proof.
  intros Hc k v Hn Hv. specialize (Hc k v Hn Hv). unfold get in *.
  destruct (e !! k) as [w|] eqn:He; simpl in Hc; [|done].
  by rewrite (fill_missing_keeps m e k w He Hc).
Qed.

(** *** The scan for a duplicate *)

Lemma find_duplicate_ext (h h' : store) (e e' : event) (M : list loc) :
  (∀ l, l ∈ M → events_match e (h l) = events_match e' (h' l)) →
  find_duplicate h e M = find_duplicate h' e' M.
Proof.
  induction M as [|l M IH]; intros H; simpl; [done|].
  rewrite (H l) by set_solver. rewrite IH; [done|]. intros; apply H; set_solver.
Qed.

Lemma find_duplicate_Some (h : store) (e : event) (M : list loc) (l : loc) :
  find_duplicate h e M = Some l → l ∈ M ∧ events_match e (h l) = true.
Proof.
  induction M as [|a M IH]; simpl; [done|].
  destruct (events_match e (h a)) eqn:Ha.
  - intros [= <-]. split; [set_solver|done].
  - intros H. destruct (IH H). split; [set_solver|done].
Qed.

Lemma find_duplicate_None (h : store) (e : event) (M : list loc) (l : loc) :
  find_duplicate h e M = None → l ∈ M → events_match e (h l) = false.
Proof.
  induction M as [|a M IH]; simpl; [by intros _ ?%elem_of_nil|].
  destruct (events_match e (h a)) eqn:Ha; [done|].
  intros H [->|Hl]%elem_of_cons; auto.
Qed.

Lemma find_duplicate_app (h : store) (e : event) (M M' : list loc) :
  find_duplicate h e (M ++ M') =
  match find_duplicate h e M with
  | Some l => Some l
  | None => find_duplicate h e M'
  end.
Proof.
  induction M as [|a M IH]; simpl; [done|].
  by destruct (events_match e (h a)).
Qed.

(** *** Shape of the merged list *)

Lemma merge_events_cons (h : store) (M : list loc) (n : loc) (N : list loc) :
  merge_events h M (n :: N) =
  merge_events (merge_event (h, M) n).1 (merge_event (h, M) n).2 N.
Proof.
  unfold merge_events.
  change (foldl merge_event (h, M) (n :: N))
    with (foldl merge_event (merge_event (h, M) n) N).
  by destruct (merge_event (h, M) n).
Qed.

Lemma merge_events_snoc (h : store) (M N : list loc) (n : loc) :
  merge_events h M (N ++ [n]) = merge_event (merge_events h M N) n.
Proof. apply foldl_snoc. Qed.

Lemma merge_events_list (h : store) (M N : list loc) :
  (merge_events h M N).2 = M ++ unmatched (h, M) N.
Proof.
  revert h M. induction N as [|n N IH]; intros h M.
  - simpl. by rewrite app_nil_r.
  - rewrite merge_events_cons, IH. simpl.
    destruct (find_duplicate h (h n) M) as [l|]; simpl; [done|].
    by rewrite <- app_assoc.
Qed.

Lemma unmatched_sublist (state : store * list loc) (N : list loc) :
  unmatched state N `sublist_of` N.
Proof.
  revert state. induction N as [|n N IH]; intros state; simpl.
  - constructor.
  - destruct (find_duplicate _ _ _); [apply sublist_cons|apply sublist_skip]; apply IH.
Qed.

(** *** Monotonicity of the store *)

Lemma merge_event_keeps (state : store * list loc) (n l : loc) (k : str) (v : value) :
  state.1 l !! k = Some v → truthy v = true →
  (merge_event state n).1 l !! k = Some v.
Proof.
  destruct state as [h M]. simpl. intros Hl Hv.
  destruct (find_duplicate h (h n) M) as [l0|]; simpl; [|done].
  unfold update. destruct (decide (l = l0)) as [->|]; [|done].
  by apply fill_missing_keeps.
Qed.


Lemma merge_events_keeps (h : store) (M N : list loc) (l : loc) (k : str) (v : value) :
  h l !! k = Some v → truthy v = true → (merge_events h M N).1 l !! k = Some v.
Proof.
  induction N as [|n N IH] using rev_ind; [done|].
  intros Hl Hv. rewrite merge_events_snoc. by apply merge_event_keeps; auto.
Qed.



Lemma merge_events_changes (h : store) (M N : list loc) (l : loc) (k : str) :
  let h1 := (merge_events h M N).1 in
  h1 l !! k = h l !! k ∨
  (truthy (get (h l) k VNone) = false ∧
   ∃ n v, n ∈ N ∧ h n !! k = Some v ∧ truthy v = true ∧ h1 l !! k = Some v).
Proof.
  revert l k. induction N as [|n0 N IH] using rev_ind; intros l k; [by left|].
  rewrite merge_events_snoc. cbv zeta in *.
  destruct (merge_events h M N) as [h' M'] eqn:Hst. simpl in *.
  assert (∀ l k, h' l !! k = h l !! k ∨
    (truthy (get (h l) k VNone) = false ∧
     ∃ n v, n ∈ N ++ [n0] ∧ h n !! k = Some v ∧ truthy v = true ∧ h' l !! k = Some v)) as IH'.
  { intros l' k'. destruct (IH l' k') as [?|(? & n & v & ? & ?)]; [by left|right].
    split; [done|]. exists n, v. split; [set_solver|done]. }
  destruct (find_duplicate h' (h' n0) M') as [l0|]; simpl; [|apply IH'].
  unfold update. destruct (decide (l = l0)) as [->|]; [|apply IH'].
  destruct (decide (fill_missing (h' n0) (h' l0) !! k = h' l0 !! k)) as [->|Hch]; [apply IH'|].
  apply fill_missing_changes in Hch as (Hfalse & v & Hn0 & Hv & ->).
  right. split.
  - destruct (IH' l0 k) as [Heq|(? & _)]; [|done].
    unfold get in *. by rewrite <- Heq.
  - destruct (IH' n0 k) as [Heq|(_ & n & w & Hn & Hw & Htw & Hh')].
    + exists n0, v. rewrite <- Heq. split; [set_solver|done].
    + exists n, w. rewrite Hn0 in Hh'. injection Hh' as ->. done.
Qed.

(** C3. The record at a position of the old catalog is at the same
    position of the merged list; an attribute it had set keeps its
    value, whatever the new records carry; and an attribute whose value
    changed was not set before and now holds a value that is set on a
    record of the batch. *)
Theorem merge_events_fill_missing (h : store) (C N : list loc) (i : nat) (e : loc) (f : str) :
  C !! i = Some e →
  let h1 := (merge_events h C N).1 in
  let merged := (merge_events h C N).2 in
  merged !! i = Some e
  ∧ (∀ v, h e !! f = Some v → truthy v = true → h1 e !! f = Some v)
  ∧ (h1 e !! f ≠ h e !! f →
     truthy (get (h e) f VNone) = false ∧
     ∃ n v, n ∈ N ∧ h n !! f = Some v ∧ truthy v = true ∧ h1 e !! f = Some v).
Proof.
  intros Hi h1 merged. subst h1 merged. split_and!.
  - rewrite merge_events_list. by apply lookup_app_l_Some.
  - intros v. apply merge_events_keeps.
  - intros Hne. by destruct (merge_events_changes h C N e f) as [?|?].
Qed.

End MergeProperties.

(** C3 on a catalog of one record and a batch of one matching record
    that carries another name and a venue. *)
Lemma merge_events_fill_missing_witness :
  let h := objects [ev [("name", "BBB"); ("date", "2025-11-23")];
                    ev [("name", "bbb party"); ("date", "2025-11-23"); ("venueName", "Le Depot")]] in
  (@merge_events latin1 h [0%nat] [1%nat]).1 0%nat !! py "name" = Some (VStr (py "BBB")).
Proof.
  intros h.
  apply (@merge_events_fill_missing latin1 h [0%nat] [1%nat] 0%nat 0%nat (py "name") eq_refl).
  - vm_compute. reflexivity.
  - vm_compute. reflexivity.
Defined.

(** ** Merging the same batch again *)

Section KeyAttributes.
Context `{U : Unicode}.

Lemma events_match_same_key (a a' b b' : event) :
  same_key a a' → same_key b b' → events_match a b = events_match a' b'.
Proof.
  intros (Ha1 & Ha2 & Ha3) (Hb1 & Hb2 & Hb3).
  unfold events_match, get. by rewrite Ha1, Ha2, Ha3, Hb1, Hb2, Hb3.
Qed.

Lemma truthy_get (e : event) (k : str) (d : value) :
  truthy (get e k d) = true → truthy d = false →
  ∃ v, e !! k = Some v ∧ truthy v = true.
Proof.
  unfold get. destruct (e !! k) as [v|]; simpl; [eauto|congruence].
Qed.

Lemma normalized_set (e : event) (key : string) :
  normalized e key ≠ [] → truthy (get e (py key) (VStr [])) = true.
Proof.
  unfold normalized. by destruct (get e (py key) (VStr [])) as [|[|c s]].
Qed.

Lemma events_match_name_set (a b : event) :
  events_match a b = true → truthy (get b (py "name") (VStr [])) = true.
Proof.
  unfold events_match. cbv zeta. intros [Hname _]%andb_true_iff.
  apply name_match_true in Hname as (_ & Hn & _). by apply normalized_set.
Qed.

Lemma fill_missing_same_key (n e : event) :
  truthy (get e (py "name") (VStr [])) = true →
  truthy (get e (py "date") (VStr [])) = true →
  truthy (get e (py "venueName") (VStr [])) = true →
  same_key (fill_missing n e) e.
Proof.
  intros (v1 & H1 & T1)%truthy_get (v2 & H2 & T2)%truthy_get (v3 & H3 & T3)%truthy_get;
    try done.
  unfold same_key.
  rewrite (fill_missing_keeps n e _ _ H1 T1), (fill_missing_keeps n e _ _ H2 T2),
    (fill_missing_keeps n e _ _ H3 T3).
  by rewrite H1, H2, H3.
Qed.

Lemma same_key_get (e e' : event) (key : string) (d : value) :
  same_key e e' → key = "name" ∨ key = "date" ∨ key = "venueName" →
  get e (py key) d = get e' (py key) d.
Proof.
  intros (H1 & H2 & H3) [-> | [-> | ->]]; unfold get; by rewrite ?H1, ?H2, ?H3.
Qed.

End KeyAttributes.

Section Idempotence.
Context `{U : Unicode}.
Variables (h : store) (C N : list loc).

(** The catalog and the batch share no dictionary. *)
Hypothesis Hdisjoint : ∀ l, l ∈ C → l ∉ N.
(** Every record has a date and a venue name. *)
Hypothesis Hkeyed : ∀ l, l ∈ C ++ N →
  truthy (get (h l) (py "date") (VStr [])) = true
  ∧ truthy (get (h l) (py "venueName") (VStr [])) = true.
(** Every new record has a name that survives normalization. *)
Hypothesis Hnamed : ∀ n, n ∈ N → normalized (h n) "name" ≠ [].

Lemma new_record_matches_itself (n : loc) : n ∈ N → events_match (h n) (h n) = true.
Proof.
  intros Hn. destruct (Hkeyed n) as [Hdate _]; [set_solver|].
  unfold events_match. cbv zeta.
  rewrite name_match_refl by (by apply Hnamed).
  unfold both_set_and_equal. rewrite Hdate. simpl. by rewrite bool_decide_eq_true_2.
Qed.

Lemma merged_prefix_find (N1 : list loc) (state : store * list loc) (n : loc) :
  merged_prefix h C N1 state →
  find_duplicate state.1 (state.1 n) state.2 = find_duplicate h (h n) state.2.
Proof.
  intros (Hk & _ & _). apply find_duplicate_ext. intros l _.
  by apply events_match_same_key.
Qed.

Lemma merged_prefix_step (N1 : list loc) (state : store * list loc) (n0 : loc) :
  (∀ x, x ∈ N1 ++ [n0] → x ∈ N) →
  merged_prefix h C N1 state → merged_prefix h C (N1 ++ [n0]) (merge_event state n0).
Proof.
  intros Hsub Hinv. pose proof (merged_prefix_find N1 state n0 Hinv) as Hfind.
  destruct Hinv as (Hk & Hin & Hdup). destruct state as [h' M']. simpl in *.
  rewrite Hfind. destruct (find_duplicate h (h n0) M') as [l0|] eqn:Hl0; simpl.
  - (* a duplicate is found and filled *)
    apply find_duplicate_Some in Hl0 as Hl0'. destruct Hl0' as [Hl0M Hmatch].
    assert (l0 ∈ C ++ N) as Hl0CN.
    { destruct (Hin l0 Hl0M); [set_solver|]. apply elem_of_app. right. apply Hsub. set_solver. }
    unfold merged_prefix. cbn [fst snd]. split_and!.
    + intros l. unfold update. destruct (decide (l = l0)) as [->|]; [|apply Hk].
      destruct (Hk l0) as (K1 & K2 & K3).
      assert (same_key (fill_missing (h' n0) (h' l0)) (h' l0)) as (F1 & F2 & F3).
      { apply fill_missing_same_key.
        - rewrite (same_key_get _ (h l0) "name") by auto using Hk.
          by eapply events_match_name_set.
        - rewrite (same_key_get _ (h l0) "date") by auto using Hk. by apply Hkeyed.
        - rewrite (same_key_get _ (h l0) "venueName") by auto using Hk. by apply Hkeyed. }
      unfold same_key. by rewrite F1, F2, F3.
    + intros l Hl. destruct (Hin l Hl); [by left|right; set_solver].
    + assert (n0 ≠ l0 → n0 ∉ M') as Hfresh.
      { intros Hne HM. destruct (Hin n0 HM) as [HC|HN1].
        - apply (Hdisjoint n0 HC). apply Hsub. set_solver.
        - destruct (Hdup n0 HN1) as (l & Hl & [->|[? _]]); [|done].
          rewrite Hl0 in Hl. by injection Hl. }
      intros n [Hn| ->%list_elem_of_singleton]%elem_of_app.
      * destruct (Hdup n Hn) as (l & Hl & Hcase). exists l. split; [done|].
        destruct Hcase as [->|[HnM Hcov]]; [by left|right]. split; [done|].
        unfold update. destruct (decide (n = l0)) as [->|]; [done|].
        destruct (decide (l = l0)) as [->|]; [by apply covers_grows|done].
      * exists l0. split; [done|].
        destruct (decide (l0 = n0)) as [|Hne]; [by left|right].
        split; [by apply Hfresh|]. unfold update.
        rewrite decide_True by done. rewrite decide_False by done.
        apply covers_fill_missing.
  - (* no duplicate: the record is appended *)
    unfold merged_prefix. cbn [fst snd]. split_and!.
    + done.
    + intros l [Hl| ->%list_elem_of_singleton]%elem_of_app; [|right; set_solver].
      destruct (Hin l Hl); [by left|right; set_solver].
    + intros n [Hn| ->%list_elem_of_singleton]%elem_of_app.
      * destruct (Hdup n Hn) as (l & Hl & Hcase). exists l.
        rewrite find_duplicate_app, Hl. split; [done|].
        destruct Hcase as [->|[HnM Hcov]]; [by left|right]. split; [|done].
        intros [?| ->%list_elem_of_singleton]%elem_of_app; [done|]. congruence.
      * exists n0. rewrite find_duplicate_app, Hl0. simpl.
        rewrite new_record_matches_itself by (apply Hsub; set_solver). auto.
Qed.

Lemma merged_prefix_merge_events (N1 : list loc) :
  (∀ x, x ∈ N1 → x ∈ N) → merged_prefix h C N1 (merge_events h C N1).
Proof.
  induction N1 as [|n0 N1 IH] using rev_ind; intros Hsub.
  - split_and!; simpl; [done|by left|by intros n ?%elem_of_nil].
  - rewrite merge_events_snoc. apply merged_prefix_step; [done|].
    apply IH. intros x Hx. apply Hsub. set_solver.
Qed.

(** After the first merge every new record finds, in the merged list, a
    duplicate that already holds all it carries. *)
Lemma merged_covers_batch (n : loc) :
  let h1 := (merge_events h C N).1 in
  let merged := (merge_events h C N).2 in
  n ∈ N → ∃ l, find_duplicate h1 (h1 n) merged = Some l ∧ covers (h1 l) (h1 n).
Proof.
  intros h1 merged Hn.
  pose proof (merged_prefix_merge_events N (λ x Hx, Hx)) as Hinv.
  pose proof (merged_prefix_find N _ n Hinv) as Hfind.
  destruct Hinv as (_ & _ & Hdup).
  destruct (Hdup n Hn) as (l & Hl & Hcase). exists l.
  subst h1 merged. rewrite Hfind. split; [done|].
  destruct Hcase as [->|[_ ?]]; [apply covers_refl|done].
Qed.

End Idempotence.

Section SecondMerge.
Context `{U : Unicode}.

(** A batch whose every record finds a duplicate that covers it leaves
    the list and the records as they are. *)
Lemma merge_events_covered (h1 : store) (M N : list loc) :
  (∀ n, n ∈ N → ∃ l, find_duplicate h1 (h1 n) M = Some l ∧ covers (h1 l) (h1 n)) →
  ∀ h', (∀ l, h' l = h1 l) →
  (merge_events h' M N).2 = M ∧ ∀ l, (merge_events h' M N).1 l = h1 l.
Proof.
  induction N as [|n N IH]; intros Hcov h' Heq; [done|].
  rewrite merge_events_cons. simpl.
  destruct (Hcov n) as (l0 & Hl0 & Hc); [set_solver|].
  rewrite (find_duplicate_ext h' h1 (h' n) (h1 n) M), Hl0
    by (intros; by rewrite !Heq).
  simpl. apply IH; [intros; apply Hcov; set_solver|].
  intros l. unfold update. destruct (decide (l = l0)) as [->|]; [|done].
  rewrite !Heq. by apply covers_fill_missing_id.
Qed.

(** C1, as the code has it.  When the catalog and the batch share no
    dictionary, every record carries a date and a venue name, and every
    new record has a name that is not empty after normalization, merging
    the batch a second time changes neither the merged list nor any
    record: the catalog read after the second merge is the catalog read
    after the first. *)
Theorem merge_events_idempotent (h : store) (C N : list loc) :
  (∀ l, l ∈ C → l ∉ N) →
  (∀ l, l ∈ C ++ N →
     truthy (get (h l) (py "date") (VStr [])) = true
     ∧ truthy (get (h l) (py "venueName") (VStr [])) = true) →
  (∀ n, n ∈ N → normalized (h n) "name" ≠ []) →
  let first := merge_events h C N in
  let second := merge_events first.1 first.2 N in
  contents second.1 second.2 = contents first.1 first.2.
Proof.
  intros Hdisjoint Hkeyed Hnamed first second.
  destruct (merge_events_covered first.1 first.2 N) with (h' := first.1) as [HM Hh].
  - intros n Hn. by apply (merged_covers_batch h C N).
  - done.
  - subst second. unfold contents. rewrite HM.
    apply list_fmap_ext. intros ? l _. apply Hh.
Qed.

End SecondMerge.

Section SingleRecord.
Context `{U : Unicode}.

Lemma fill_missing_get (n e : event) (k : str) (d : value) :
  truthy (get e k d) = true → truthy d = false →
  get (fill_missing n e) k d = get e k d.
Proof.
  intros Ht Hd. destruct (truthy_get e k d Ht Hd) as (v & Hv & Htv).
  unfold get. by rewrite (fill_missing_keeps n e k v Hv Htv), Hv.
Qed.

(** A record that matches still matches once it is filled. *)
Lemma events_match_fill_missing (n e : event) :
  events_match n e = true → events_match n (fill_missing n e) = true.
Proof.
  intros Hmatch. pose proof (events_match_name_set n e Hmatch) as Hname.
  unfold events_match in *. cbv zeta in *.
  rewrite (fill_missing_get n e (py "name")) by done.
  apply andb_true_iff in Hmatch as [-> Hkey]. simpl.
  apply orb_true_iff in Hkey as [Hdate|Hvenue].
  - apply both_set_and_equal_true in Hdate as Hd. destruct Hd as (_ & Hd & _).
    rewrite (fill_missing_get n e (py "date")) by done. by rewrite Hdate.
  - destruct (negb (bool_decide (normalize_event_name (get n (py "venueName") (VStr [])) = []))
              && negb (bool_decide (normalize_event_name (get e (py "venueName") (VStr [])) = [])))
      eqn:Hne; [|done].
    apply andb_true_iff in Hne as Hne'. destruct Hne' as [_ Hv].
    apply negb_true_iff, bool_decide_eq_false in Hv.
    rewrite (fill_missing_get n e (py "venueName"));
      [|by apply (normalized_set e "venueName")|done].
    rewrite Hne, Hvenue. apply orb_true_r.
Qed.

Lemma update_eq (h : store) (l : loc) (e : event) : update h l e l = e.
Proof. unfold update. by rewrite decide_True. Qed.

Lemma update_ne (h : store) (l : loc) (e : event) (l' : loc) :
  l' ≠ l → update h l e l' = h l'.
Proof. intros. unfold update. by rewrite decide_False. Qed.

Lemma find_duplicate_update (h : store) (e e' : event) (M : list loc) (l : loc) :
  find_duplicate h e M = Some l → events_match e e' = true →
  find_duplicate (update h l e') e M = Some l.
Proof.
  intros Hfind He'. induction M as [|a M IH]; simpl in *; [done|].
  unfold update at 1. destruct (decide (a = l)) as [->|Hne].
  - by rewrite He'.
  - destruct (events_match e (h a)); [congruence|]. by apply IH.
Qed.

(** X4. Merging one record that matches itself a second time changes
    nothing, whatever the catalog: the second merge finds the record or
    its duplicate, which has nothing left to take from it. *)
Lemma merge_events_idempotent_single (h : store) (C : list loc) (n : loc) :
  events_match (h n) (h n) = true →
  let first := merge_events h C [n] in
  let second := merge_events first.1 first.2 [n] in
  contents second.1 second.2 = contents first.1 first.2.
Proof.
  intros Hself first second.
  destruct (merge_events_covered first.1 first.2 [n]) with (h' := first.1) as [HM Hh].
  - intros ? ->%list_elem_of_singleton. subst first.
    unfold merge_events. simpl.
    destruct (find_duplicate h (h n) C) as [l0|] eqn:Hfind; simpl.
    + exists l0. apply find_duplicate_Some in Hfind as Hl0. destruct Hl0 as [_ Hmatch].
      destruct (decide (l0 = n)) as [->|Hne].
      * rewrite !update_eq.
        rewrite (covers_fill_missing_id (h n) (h n)) by apply covers_refl.
        split; [|apply covers_refl]. by apply find_duplicate_update.
      * rewrite update_eq, !(update_ne h l0 _ n) by congruence.
        split; [|apply covers_fill_missing].
        apply find_duplicate_update; [done|]. by apply events_match_fill_missing.
    + exists n. rewrite find_duplicate_app, Hfind. simpl. rewrite Hself.
      split; [done|apply covers_refl].
  - done.
  - subst second. unfold contents. rewrite HM.
    apply list_fmap_ext. intros ? l _. apply Hh.
Qed.

End SingleRecord.

(** C1 on a catalog of one record and a batch of two, the first a
    duplicate of the catalog's record and the second new. *)
Lemma merge_events_idempotent_witness :
  let h := objects
    [ev [("name", "BBB"); ("date", "2025-11-23"); ("venueName", "Le Depot")];
     ev [("name", "bbb party"); ("date", "2025-11-23"); ("venueName", "Depot"); ("price", "15")];
     ev [("name", "Menergy"); ("date", "2025-11-29"); ("venueName", "La Java")]] in
  let first := @merge_events latin1 h [0%nat] [1%nat; 2%nat] in
  let second := @merge_events latin1 first.1 first.2 [1%nat; 2%nat] in
  contents second.1 second.2 = contents first.1 first.2.
Proof.
  intros h.
  apply (@merge_events_idempotent latin1 h [0%nat] [1%nat; 2%nat]).
  - intros l Hl Hn.
    apply list_elem_of_singleton in Hl as ->.
    apply elem_of_cons in Hn as [Hn|Hn]; [discriminate|].
    apply list_elem_of_singleton in Hn. discriminate.
  - intros l Hl.
    apply elem_of_cons in Hl as [->|Hl]; [vm_compute; split; reflexivity|].
    apply elem_of_cons in Hl as [->|Hl]; [vm_compute; split; reflexivity|].
    apply list_elem_of_singleton in Hl as ->. vm_compute; split; reflexivity.
  - intros n Hn.
    apply elem_of_cons in Hn as [->|Hn]; [vm_compute; discriminate|].
    apply list_elem_of_singleton in Hn as ->. vm_compute; discriminate.
Defined.

(** C1 as stated fails: a new record without date and venue matches
    nothing, not even itself, and every merge appends it again. *)
Lemma merge_events_not_idempotent :
  let h := objects [undated] in
  let first := @merge_events latin1 h [] [0%nat] in
  let second := @merge_events latin1 first.1 first.2 [0%nat] in
  first.2 = [0%nat] ∧ second.2 = [0%nat; 0%nat]
  ∧ contents second.1 second.2 ≠ contents first.1 first.2.
Proof.
  intros h first second. split_and!.
  - vm_compute. reflexivity.
  - vm_compute. reflexivity.
  - intros H. apply (f_equal length) in H. vm_compute in H. discriminate.
Qed.

(** Records that match themselves are not enough: the second new record
    gives the first record of the catalog its date, and at the second
    merge the first new record finds that record before its own
    duplicate. *)
Example merge_events_not_idempotent_filled_date :
  let h := objects
    [ev [("name", "BBB"); ("venueName", "Le Depot")];
     ev [("name", "BBB"); ("date", "2025-11-23")];
     ev [("name", "BBB"); ("date", "2025-11-23"); ("price", "15")];
     ev [("name", "BBB"); ("date", "2025-11-23"); ("venueName", "Le Depot")]] in
  let first := @merge_events latin1 h [0; 1]%nat [2; 3]%nat in
  let second := @merge_events latin1 first.1 first.2 [2; 3]%nat in
  first.1 0%nat !! py "price" = None ∧ second.1 0%nat !! py "price" = Some (VStr (py "15")).
Proof. vm_compute. split; reflexivity. Qed.

(** Nor are complete records when the batch holds a dictionary of the
    catalog: the second new record fills the shared dictionary, which
    then has more to give at the second merge. *)
Example merge_events_not_idempotent_shared :
  let h := objects
    [ev [("name", "alpha beta"); ("date", "2025-11-23"); ("venueName", "Le Depot")];
     ev [("name", "alpha"); ("date", "2025-11-23"); ("venueName", "La Java")];
     ev [("name", "alpha"); ("date", "2025-11-29"); ("venueName", "La Java"); ("price", "15")]] in
  let first := @merge_events latin1 h [0; 1]%nat [1; 2]%nat in
  let second := @merge_events latin1 first.1 first.2 [1; 2]%nat in
  first.1 0%nat !! py "price" = None ∧ second.1 0%nat !! py "price" = Some (VStr (py "15")).
Proof. vm_compute. split; reflexivity. Qed.

(** ** Section dates *)

#[global] Instance latin1_exact : Latin1Exact latin1.
Proof. split; intros; reflexivity. Qed.

Section DateProperties.
Context `{U : Unicode}.

Lemma parse_date_tomorrow (today t : datetime) (s : str) :
  s ≠ [] →
  contains (py "aujourd'hui") (lower s) || contains (py "today") (lower s) = false →
  contains (py "demain") (lower s) || contains (py "tomorrow") (lower s) = true →
  add_one_day today = Some t →
  parse_date_from_section today s = Return (Some (strftime_ymd t)).
Proof.
  intros Hs Htoday Htomorrow Ht. unfold parse_date_from_section.
  destruct s; [done|]. by rewrite Htoday, Htomorrow, Ht.
Qed.

Lemma parse_date_day_month_branch (today : datetime) (s : str) :
  s ≠ [] →
  contains (py "aujourd'hui") (lower s) || contains (py "today") (lower s) = false →
  contains (py "demain") (lower s) || contains (py "tomorrow") (lower s) = false →
  parse_date_from_section today s =
  match search_day_month s with
  | Some (group1, group2) =>
      match int_of group1 with
      | Return d =>
          Return (upcoming today (table_get months_fr (lower group2) (month today)) d)
      | Raise => Raise
      end
  | None => Return None
  end.
Proof.
  intros Hs Htoday Htomorrow. unfold parse_date_from_section, upcoming.
  destruct s; [done|]. rewrite Htoday, Htomorrow.
  destruct (search_day_month _) as [[g1 g2]|]; [|done].
  destruct (int_of g1) as [d|]; [|done]. cbv zeta.
  by destruct (make_datetime _ _ _).
Qed.

Lemma int_of_short (ds : str) :
  (length ds ≤ max_str_digits)%nat → int_of ds = Return (decimal ds).
Proof. intros H. unfold int_of. apply Nat.ltb_ge in H. by rewrite H. Qed.

Lemma int_of_long (ds : str) :
  (max_str_digits < length ds)%nat → int_of ds = Raise.
Proof. intros H. unfold int_of. apply Nat.ltb_lt in H. by rewrite H. Qed.

Lemma search_skips_non_digits (pre s : str) :
  Forall (λ c, digit_val c = None) pre →
  search_day_month (pre ++ s) = search_day_month s.
Proof.
  induction 1 as [|c pre Hc _ IH]; [done|].
  simpl. unfold match_day_month at 1. simpl. by rewrite Hc.
Qed.

Lemma span_digits_run (ds rest : str) :
  Forall (λ c, is_Some (digit_val c)) ds →
  head rest ≫= digit_val = None →
  span_digits (ds ++ rest) = (ds, rest).
Proof.
  intros Hds Hrest. induction Hds as [|c ds [v Hc] _ IH]; simpl.
  - destruct rest as [|c rest]; [done|]. simpl in *. by rewrite Hrest.
  - by rewrite Hc, IH.
Qed.

Lemma lstrip_run (ws rest : str) :
  Forall (λ c, is_space c = true) ws →
  is_space <$> head rest ≠ Some true →
  lstrip (ws ++ rest) = rest.
Proof.
  intros Hws Hrest. induction Hws as [|c ws Hc _ IH]; simpl.
  - destruct rest as [|c rest]; [done|]. simpl in *.
    destruct (is_space c); [done|done].
  - by rewrite Hc.
Qed.

Context `{!Latin1Exact U}.

Lemma ci_startswith_self (a post : str) :
  Forall (λ c, c < 256) a → ci_startswith (a ++ post) a = true.
Proof.
  induction 1 as [|c a Hc _ IH]; [done|]. simpl.
  rewrite ci_eq_latin1 by done. unfold Latin1.ci_eq. by rewrite N.eqb_refl.
Qed.

Lemma ci_startswith_other (a p post : str) :
  Forall (λ c, c < 256) a → Forall (λ c, c < 256) p →
  @ci_startswith latin1 a p = false → @ci_startswith latin1 p a = false →
  ci_startswith (a ++ post) p = false.
Proof.
  intros Ha. revert p. induction Ha as [|c a Hc _ IH]; intros p Hp H1 H2.
  - by destruct p.
  - destruct Hp as [|x p Hx Hp]; [done|]. simpl in *.
    rewrite ci_eq_latin1 by done.
    unfold Latin1.ci_eq in *. rewrite (N.eqb_sym (Latin1.lower_char c)) in H2.
    destruct (Latin1.lower_char x =? Latin1.lower_char c); [|done].
    simpl in *. by apply IH.
Qed.

Lemma ci_startswith_variant (a' a post : str) :
  Forall (λ c, c < 256) a' → Forall (λ c, c < 256) a →
  Latin1.lower_char <$> a' = Latin1.lower_char <$> a →
  ci_startswith (a' ++ post) a = true.
Proof.
  intros Ha'. revert a. induction Ha' as [|c a' Hc _ IH]; intros a Ha Heq.
  - by destruct a.
  - destruct Ha as [|x a Hx Ha]; [done|].
    rewrite !fmap_cons in Heq. injection Heq as Hcx Heq. simpl.
    rewrite ci_eq_latin1 by done. unfold Latin1.ci_eq. rewrite Hcx, N.eqb_refl.
    by apply IH.
Qed.

(** Matching without case sees the text and the pattern through their
    lowered characters only. *)
Lemma ci_startswith_lower_text (text text' pat : str) :
  Latin1.lower_char <$> text = Latin1.lower_char <$> text' →
  @ci_startswith latin1 text pat = @ci_startswith latin1 text' pat.
Proof.
  revert text text'. induction pat as [|p pat IH]; intros text text' Heq; [done|].
  destruct text as [|c text], text' as [|c' text']; try done.
  rewrite !fmap_cons in Heq. injection Heq as Hc Heq.
  cbn [ci_startswith ci_eq latin1]. unfold Latin1.ci_eq. rewrite Hc. f_equal. by apply IH.
Qed.

Lemma ci_startswith_lower_pat (text pat pat' : str) :
  Latin1.lower_char <$> pat = Latin1.lower_char <$> pat' →
  @ci_startswith latin1 text pat = @ci_startswith latin1 text pat'.
Proof.
  revert text pat'. induction pat as [|p pat IH]; intros text pat' Heq.
  - by destruct pat'.
  - destruct pat' as [|p' pat']; [done|].
    rewrite !fmap_cons in Heq. injection Heq as Hp Heq.
    destruct text as [|c text]; [done|].
    cbn [ci_startswith ci_eq latin1]. unfold Latin1.ci_eq. rewrite Hp. f_equal. by apply IH.
Qed.

(** A text that differs from the alternative [name] by the case of its
    letters only is matched by that alternative, when no other
    alternative matches at the start of [name] or is started by it. *)
Lemma match_alternatives_variant (alts : list str) (name name' post : str) :
  Forall (Forall (λ c, c < 256)) alts → Forall (λ c, c < 256) name' →
  name ∈ alts →
  Latin1.lower_char <$> name' = Latin1.lower_char <$> name →
  (∀ p, p ∈ alts → p ≠ name →
     @ci_startswith latin1 name p = false ∧ @ci_startswith latin1 p name = false) →
  match_alternatives alts (name' ++ post) = Some name'.
Proof.
  intros Halts Hlatin' Hname Heq Hfree.
  assert (Forall (λ c, c < 256) name) as Hlatin.
  { by eapply Forall_forall in Halts. }
  assert (length name = length name') as Hlen.
  { by rewrite <- (length_fmap Latin1.lower_char name), <- Heq, length_fmap. }
  induction Halts as [|p alts Hp _ IH]; [by apply elem_of_nil in Hname|]. simpl.
  destruct (decide (p = name)) as [->|Hne].
  - rewrite ci_startswith_variant by done. by rewrite Hlen, take_app_length.
  - destruct (Hfree p) as [H1 H2]; [set_solver|done|].
    rewrite ci_startswith_other; [|done|done| |].
    + apply IH; [set_solver|]. intros; apply Hfree; set_solver.
    + by rewrite (ci_startswith_lower_text name' name p Heq).
    + by rewrite (ci_startswith_lower_pat p name' name Heq).
Qed.

Lemma months_fr_latin1 : Forall (Forall (λ c, c < 256)) (months_fr.*1).
Proof. repeat (constructor; [repeat (constructor; [done|])|]); constructor. Qed.

Lemma months_fr_prefix_free : prefix_free (months_fr.*1) = true.
Proof. vm_compute. reflexivity. Qed.

Lemma months_fr_lowered (name : str) (num : N) :
  (name, num) ∈ months_fr →
  Latin1.lower_char <$> name = name
  ∧ (∃ c name1, name = c :: name1 ∧ 97 ≤ c ≤ 122)
  ∧ ∀ dflt, table_get months_fr name dflt = num.
Proof.
  intros Hin. unfold months_fr in Hin.
  repeat (apply elem_of_cons in Hin as [[= -> ->]|Hin];
          [split_and!; [by vm_compute|eexists _, _; split; [reflexivity|by vm_compute]
                       |intros; by vm_compute]|]).
  by apply elem_of_nil in Hin.
Qed.

(** A month name in any letter case: the pattern matches it, and its
    lowered form is the key of the table. *)
Lemma match_month (name name' : str) (num : N) (post : str) :
  (name, num) ∈ months_fr →
  Forall (λ c, c < 256) name' → Latin1.lower_char <$> name' = name →
  match_alternatives (months_fr.*1) (name' ++ post) = Some name'
  ∧ lower name' = name
  ∧ ∀ dflt, table_get months_fr name dflt = num.
Proof.
  intros Hin Hlatin' Heq.
  destruct (months_fr_lowered name num Hin) as (Hlow & _ & Hget).
  assert (name ∈ months_fr.*1) as Hname.
  { apply list_elem_of_fmap. by exists (name, num). }
  split_and!; [|by rewrite lower_latin1|done].
  apply match_alternatives_variant with (name := name).
  - apply months_fr_latin1.
  - done.
  - done.
  - by rewrite Hlow.
  - intros p Hp Hne. pose proof months_fr_prefix_free as Hfree.
    unfold prefix_free in Hfree. rewrite forallb_forall in Hfree.
    specialize (Hfree name (proj1 (list_elem_of_In _ _) Hname)).
    rewrite forallb_forall in Hfree.
    specialize (Hfree p (proj1 (list_elem_of_In _ _) Hp)).
    rewrite bool_decide_eq_false_2 in Hfree by done. simpl in Hfree.
    apply andb_true_iff in Hfree as [?%negb_true_iff ?%negb_true_iff]. done.
Qed.

(** A character that lowers to a letter from a to z is neither white
    space nor a digit. *)
Lemma lowers_to_letter (c : N) :
  97 ≤ Latin1.lower_char c ≤ 122 →
  Latin1.is_space c = false ∧ Latin1.digit_val c = None.
Proof.
  unfold Latin1.lower_char, Latin1.is_space, Latin1.digit_val.
  repeat match goal with
         | |- context [?a <=? ?b] => destruct (N.leb_spec a b)
         | |- context [?a =? ?b] => destruct (N.eqb_spec a b)
         end; simpl; intros; first [lia|done].
Qed.

Lemma decimal_ascii (ds : str) :
  Forall (λ c, 48 ≤ c ≤ 57) ds → decimal ds = @decimal latin1 ds.
Proof.
  intros Hds. unfold decimal.
  cut (∀ acc, foldl (λ acc c, 10 * acc + default 0 (digit_val c)) acc ds
              = foldl (λ acc c, 10 * acc + default 0 (@digit_val latin1 c)) acc ds).
  { intros H. apply H. }
  induction Hds as [|c ds Hc _ IH]; intros acc; [done|]. simpl.
  rewrite digit_val_latin1 by lia. apply IH.
Qed.

Lemma parse_date_day_month (today : datetime) (pre ds ws name name' post : str) (num : N) :
  (name, num) ∈ months_fr →
  Forall (λ c, c < 256) name' → Latin1.lower_char <$> name' = name →
  Forall (λ c, digit_val c = None) pre →
  ds ≠ [] → Forall (λ c, 48 ≤ c ≤ 57) ds → (length ds ≤ max_str_digits)%nat →
  ws ≠ [] → Forall (λ c, c < 256 ∧ Latin1.is_space c = true) ws →
  let header := pre ++ ds ++ ws ++ name' ++ post in
  contains (py "aujourd'hui") (lower header) || contains (py "today") (lower header) = false →
  contains (py "demain") (lower header) || contains (py "tomorrow") (lower header) = false →
  parse_date_from_section today header = Return (upcoming today num (@decimal latin1 ds)).
Proof.
  intros Hin Hlatin' Heq Hpre Hds Hdigits Hshort Hws Hspaces header Htoday Htomorrow.
  destruct (match_month name name' num post Hin Hlatin' Heq) as (Hmatch & Hlower & Hget).
  assert (∃ c name1, name' = c :: name1 ∧ c < 256
                     ∧ Latin1.is_space c = false ∧ Latin1.digit_val c = None)
    as (c0 & name1 & -> & Hc0 & Hc0s & Hc0d).
  { destruct (months_fr_lowered name num Hin) as (_ & (l & name0 & -> & Hl) & _).
    destruct name' as [|c0 name1]; [done|].
    rewrite fmap_cons in Heq. injection Heq as Hc0 _.
    apply Forall_cons in Hlatin' as [Hlt _].
    exists c0, name1. rewrite <- Hc0 in Hl.
    destruct (lowers_to_letter c0 Hl). done. }
  subst header. rewrite parse_date_day_month_branch; [|by destruct pre, ds|done|done].
  rewrite search_skips_non_digits by done.
  assert (match_day_month (ds ++ ws ++ (c0 :: name1) ++ post) = Some (ds, c0 :: name1))
    as Hm.
  { unfold match_day_month. rewrite span_digits_run.
    - destruct ds as [|d0 ds']; [done|].
      rewrite lstrip_run.
      + rewrite bool_decide_eq_false_2.
        * by rewrite Hmatch.
        * rewrite (length_app ws). destruct ws; [done|]. simpl. lia.
      + eapply Forall_impl; [exact Hspaces|]. simpl. intros c [? ?].
        by rewrite is_space_latin1.
      + simpl. rewrite is_space_latin1 by done. by rewrite Hc0s.
    - eapply Forall_impl; [exact Hdigits|]. simpl. intros c Hc.
      rewrite digit_val_latin1 by lia. unfold Latin1.digit_val.
      destruct ((48 <=? c) && (c <=? 57)) eqn:E; [done|].
      apply andb_false_iff in E as [?%N.leb_gt|?%N.leb_gt]; lia.
    - destruct ws as [|w ws']; [done|]. simpl.
      apply Forall_cons in Hspaces as [[Hw Hws'] _].
      rewrite digit_val_latin1 by done. unfold Latin1.digit_val, Latin1.is_space in *.
      destruct ((48 <=? w) && (w <=? 57)) eqn:E; [|done].
      apply andb_true_iff in E as [?%N.leb_le ?%N.leb_le].
      repeat (apply orb_true_iff in Hws' as [Hws'|Hws']);
        repeat (apply andb_true_iff in Hws' as [? ?]);
        repeat match goal with
               | H : (_ <=? _) = true |- _ => apply N.leb_le in H
               | H : (_ =? _) = true |- _ => apply N.eqb_eq in H
               end; lia. }
  destruct ds as [|d0 ds']; [done|].
  change (search_day_month ((d0 :: ds') ++ ws ++ (c0 :: name1) ++ post))
    with (match match_day_month ((d0 :: ds') ++ ws ++ (c0 :: name1) ++ post) with
          | Some groups => Some groups
          | None => search_day_month (ds' ++ ws ++ (c0 :: name1) ++ post)
          end).
  rewrite Hm, Hlower, Hget, int_of_short, decimal_ascii by done. done.
Qed.

End DateProperties.

(** C4, as the code has it, for any runtime whose tables are those of
    Latin-1 below 256.  A header with a tomorrow keyword and no today
    keyword yields the day after today.  A header with neither keyword
    whose first digits, at most 4300 of them, are followed by white
    space and a French month name, in any letter case, yields that day
    and month in the year of today, or in the next year when they are
    earlier in the year than today, and [None] when no such calendar
    date exists.  The four examples of the specification evaluate as it
    says. *)
Theorem parse_date_from_section_contract `{U : Unicode} `{!Latin1Exact U} :
  (∀ today t s,
     s ≠ [] →
     contains (py "aujourd'hui") (lower s) || contains (py "today") (lower s) = false →
     contains (py "demain") (lower s) || contains (py "tomorrow") (lower s) = true →
     add_one_day today = Some t →
     parse_date_from_section today s = Return (Some (strftime_ymd t)))
  ∧ (∀ today pre ds ws name name' post num,
     (name, num) ∈ months_fr →
     Forall (λ c, c < 256) name' → Latin1.lower_char <$> name' = name →
     Forall (λ c, digit_val c = None) pre →
     ds ≠ [] → Forall (λ c, 48 ≤ c ≤ 57) ds → (length ds ≤ max_str_digits)%nat →
     ws ≠ [] → Forall (λ c, c < 256 ∧ Latin1.is_space c = true) ws →
     let header := pre ++ ds ++ ws ++ name' ++ post in
     contains (py "aujourd'hui") (lower header) || contains (py "today") (lower header) = false →
     contains (py "demain") (lower header) || contains (py "tomorrow") (lower header) = false →
     parse_date_from_section today header
     = Return (upcoming today num (@decimal latin1 ds)))
  ∧ @parse_date_from_section latin1 nov_19 (py "demain") = Return (Some (py "2025-11-20"))
  ∧ @parse_date_from_section latin1 nov_19 (py "ven. 21 novembre")
    = Return (Some (py "2025-11-21"))
  ∧ @parse_date_from_section latin1 nov_19 (py "5 janvier") = Return (Some (py "2026-01-05"))
  ∧ @parse_date_from_section latin1 nov_19 (py "31 novembre") = Return None.
Proof.
  split_and!.
  - intros. by eapply parse_date_tomorrow.
  - intros. by eapply parse_date_day_month.
  - vm_compute. reflexivity.
  - vm_compute. reflexivity.
  - vm_compute. reflexivity.
  - vm_compute. reflexivity.
Qed.

(** C4 with the Latin-1 tables: the general rule gives the example of
    the specification for a date earlier in the year, with the month in
    capitals. *)
Lemma parse_date_from_section_contract_witness :
  @parse_date_from_section latin1 nov_19 (py "ven. " ++ py "5" ++ py " " ++ py "JANVIER" ++ [])
  = Return (Some (py "2026-01-05")).
Proof.
  destruct (@parse_date_from_section_contract latin1 latin1_exact) as (_ & Hrule & _).
  rewrite (Hrule nov_19 (py "ven. ") (py "5") (py " ") (py "janvier") (py "JANVIER") [] 1).
  - vm_compute. reflexivity.
  - rewrite list_elem_of_In. simpl. left. reflexivity.
  - repeat (constructor; [reflexivity|]). constructor.
  - vm_compute. reflexivity.
  - vm_compute. repeat (constructor; [reflexivity|]). constructor.
  - discriminate.
  - repeat (constructor; [vm_compute; split; discriminate|]). constructor.
  - vm_compute. lia.
  - discriminate.
  - repeat (constructor; [vm_compute; split; reflexivity|]). constructor.
  - vm_compute. reflexivity.
  - vm_compute. reflexivity.
Defined.

(** C4 as stated fails twice.  A header with a tomorrow keyword yields
    today when it also has a today keyword, which is looked for first.
    And a day that no month has does not always yield [None]: [int]
    raises [ValueError] on a day of more than 4300 digits, before the
    [try] that turns an invalid date into [None]. *)
Lemma parse_date_from_section_breaks_contract :
  (let s := py "Aujourd'hui et demain" in
   contains (py "demain") (@lower latin1 s) = true
   ∧ add_one_day nov_19 = Some {| year := 2025; month := 11; day := 20 |}
   ∧ @parse_date_from_section latin1 nov_19 s = Return (Some (py "2025-11-19")))
  ∧ (let s := replicate 4301 49 ++ py " novembre" in
     @search_day_month latin1 s = Some (replicate 4301 49, py "novembre")
     ∧ @parse_date_from_section latin1 nov_19 s = Raise).
Proof. vm_compute. split_and!; reflexivity. Qed.

(** ** The description formatter *)

Lemma truncate_length (limit : nat) (s : str) :
  (3 ≤ limit)%nat → (length (truncate limit s) ≤ limit)%nat.
Proof.
  intros Hl. unfold truncate.
  destruct (limit <? length s)%nat eqn:E.
  - rewrite length_app, length_take. simpl. lia.
  - apply Nat.ltb_ge in E. lia.
Qed.

Lemma description_parts_concat (main_text lineup_text dress_text : option str) :
  concat (description_parts (main_text, lineup_text, dress_text)) =
  default [] main_text
  ++ from_option (λ t, lineup_header ++ t) [] lineup_text
  ++ from_option (λ t, dress_code_header ++ t) [] dress_text.
Proof.
  unfold description_parts.
  destruct main_text, lineup_text, dress_text; cbn [from_option default concat app];
    by rewrite ?app_nil_r.
Qed.

Section FormatterProperties.
Context `{U : Unicode}.

Lemma main_summary_length (description_en : str) (lineup_match dress_code_match : option (nat * str))
    (main_text : str) :
  main_summary description_en lineup_match dress_code_match = Some main_text →
  (length main_text ≤ 300)%nat.
Proof.
  unfold main_summary.
  destruct (match lineup_match with Some _ => _ | None => _ end); [done|].
  destruct (sentences_of _) as [|s1 rest]; [done|].
  pose proof (truncate_length 300 (join (py ". ") (take 3 (s1 :: rest)))) as Hlen.
  destruct (truncate 300 _); [done|]. intros [= <-]. apply Hlen. lia.
Qed.

Lemma dress_code_block_length (dress_code_match : option (nat * str)) (dress_text : str) :
  dress_code_block dress_code_match = Some dress_text →
  (length dress_text ≤ 200)%nat.
Proof.
  unfold dress_code_block. destruct dress_code_match as [[start group2]|]; [|done].
  destruct (sentences_of _) as [|s1 rest]; [done|].
  pose proof (truncate_length 200 (join (py ". ") (take 2 (s1 :: rest)))) as Hlen.
  destruct (truncate 200 _); [done|]. intros [= <-]. apply Hlen. lia.
Qed.

(** C6, as the code has it.  Whatever the translator does, the output of
    the formatter is made of the blocks of [description_blocks], in which
    the main summary has at most 300 characters and the text of the
    dress-code block, what follows its label, at most 200, the three dots
    of a truncation included; with its label the dress-code block has at
    most 216 characters. *)
Theorem description_blocks_bounded (translate : str → outcome str) (raw_description : str) :
  match description_blocks translate raw_description with
  | (main_text, lineup_text, dress_text) =>
      (∀ text, main_text = Some text → (length text ≤ 300)%nat)
      ∧ (∀ text, dress_text = Some text →
           (length text ≤ 200)%nat ∧ (length (dress_code_header ++ text) ≤ 216)%nat)
      ∧ (∀ result,
           parse_and_format_description translate raw_description = Some result →
           result = strip (default [] main_text
                           ++ from_option (λ t, lineup_header ++ t) [] lineup_text
                           ++ from_option (λ t, dress_code_header ++ t) [] dress_text))
  end.
Proof.
  pose proof (description_parts_concat
                (description_blocks translate raw_description).1.1
                (description_blocks translate raw_description).1.2
                (description_blocks translate raw_description).2) as Hparts.
  unfold parse_and_format_description.
  destruct (description_blocks translate raw_description)
    as [[main_text lineup_text] dress_text] eqn:Hblocks.
  unfold description_blocks in Hblocks. injection Hblocks as Hmain Hlineup Hdress.
  split_and!.
  - intros text Htext. rewrite Htext in Hmain. by eapply main_summary_length.
  - intros text Htext. rewrite Htext in Hdress.
    apply dress_code_block_length in Hdress.
    split; [done|]. rewrite length_app. change (length dress_code_header) with 16%nat. lia.
  - intros result. destruct raw_description; [done|].
    cbn [fst snd] in Hparts. rewrite Hparts.
    destruct (strip _); [done|]. by intros [= <-].
Qed.

End FormatterProperties.

(** The bounds are reached: a sentence of 400 characters, which the
    failing translator leaves as it is, is cut to 297 characters and
    three dots, and a dress code of 250 characters to 197 and three
    dots. *)
Example main_summary_truncated :
  (@description_blocks latin1 failing_translation (replicate 400 120)).1.1
  = Some (replicate 297 120 ++ py "...").
Proof. vm_compute. reflexivity. Qed.

Example dress_code_truncated :
  (@description_blocks latin1 failing_translation
     (py "Dress code: " ++ replicate 250 120)).2
  = Some (replicate 197 120 ++ py "...").
Proof. vm_compute. reflexivity. Qed.

(** C6 as stated fails: the dress-code block of the output is the label
    and the text.  For a dress code of 250 characters the text is cut to
    200 and the block has 216 characters; it is the whole output, which
    keeps 214 of them, the two newlines before the label being
    stripped. *)
Lemma dress_code_block_exceeds_200 :
  let raw := py "Dress code: " ++ replicate 250 120 in
  let dress_text := replicate 197 120 ++ py "..." in
  @description_blocks latin1 failing_translation raw = (None, None, Some dress_text)
  ∧ length dress_text = 200%nat
  ∧ length (dress_code_header ++ dress_text) = 216%nat
  ∧ @parse_and_format_description latin1 failing_translation raw
    = Some ([128084] ++ py " Dress Code: " ++ dress_text)
  ∧ length ([128084] ++ py " Dress Code: " ++ dress_text) = 214%nat.
Proof. vm_compute. split_and!; reflexivity. Qed.

Section StripProperties.
Context `{U : Unicode}.

Lemma lstrip_suffix (s : str) : lstrip s `suffix_of` s.
Proof.
  induction s as [|c s IH]; simpl; [done|].
  destruct (is_space c); [by apply suffix_cons_r|done].
Qed.

Lemma lstrip_id (s : str) :
  is_space <$> head s ≠ Some true → lstrip s = s.
Proof. destruct s as [|c s]; simpl; [done|]. by destruct (is_space c). Qed.

Lemma rstrip_prefix (s : str) : rstrip s `prefix_of` s.
Proof.
  unfold rstrip. rewrite <- (reverse_involutive s) at 2.
  apply suffix_prefix_reverse, lstrip_suffix.
Qed.

Lemma strip_trimmed (s : str) : strip s ≠ [] → trimmed (strip s).
Proof.
  intros Hne. split.
  - unfold strip in *. destruct (rstrip_prefix (lstrip s)) as [k Hk].
    destruct (rstrip (lstrip s)) as [|c t] eqn:Hr; [done|].
    exists c. split; [done|].
    rewrite Hk in *. by eapply lstrip_head.
  - unfold strip, rstrip in *.
    destruct (lstrip (reverse (lstrip s))) as [|c t] eqn:Hl; [done|].
    exists c. split; [|by eapply lstrip_head].
    rewrite reverse_cons. by rewrite last_snoc.
Qed.

Lemma strip_id (s : str) : trimmed s → strip s = s.
Proof.
  intros [(c & Hc & Hsp) (d & Hd & Hsd)]. unfold strip, rstrip.
  rewrite (lstrip_id s) by (rewrite Hc; simpl; congruence).
  rewrite lstrip_id, reverse_involutive; [done|].
  rewrite head_reverse, Hd. simpl. congruence.
Qed.

Lemma lstrip_keeps (s : str) (c : N) :
  c ∈ s → is_space c = false → c ∈ lstrip s.
Proof.
  induction s as [|a s IH]; simpl; [done|]. intros Hc Hsp.
  destruct (is_space a) eqn:Ha; [|done].
  apply elem_of_cons in Hc as [->|Hc]; [congruence|auto].
Qed.

Lemma strip_keeps (s : str) (c : N) :
  c ∈ s → is_space c = false → c ∈ strip s.
Proof.
  intros Hc Hsp. unfold strip, rstrip.
  rewrite elem_of_reverse. apply lstrip_keeps; [|done].
  rewrite elem_of_reverse. by apply lstrip_keeps.
Qed.

End StripProperties.

Section BlockProperties.
Context `{U : Unicode}.

Lemma head_app_l (s t : str) : s ≠ [] → head (s ++ t) = head s.
Proof. by destruct s. Qed.

Lemma last_app_r (s t : str) : t ≠ [] → last (s ++ t) = last t.
Proof.
  intros Ht. induction t as [|c t _] using rev_ind; [done|].
  by rewrite app_assoc, !last_snoc.
Qed.

Lemma head_Some_ne (s : str) (c : N) : head s = Some c → s ≠ [].
Proof. by destruct s. Qed.

Lemma last_Some_ne (s : str) (c : N) : last s = Some c → s ≠ [].
Proof. by destruct s. Qed.

Lemma sentences_trimmed (text : str) : Forall trimmed (sentences_of text).
Proof.
  unfold sentences_of. apply Forall_fmap, Forall_forall. intros s Hs.
  apply list_elem_of_filter in Hs as [[Hne _] _]. by apply strip_trimmed.
Qed.

Lemma join_trimmed (sep : str) (pieces : list str) :
  pieces ≠ [] → Forall trimmed pieces → trimmed (join sep pieces).
Proof.
  intros Hne Hall. induction Hall as [|p rest Hp Hrest IH]; [done|].
  destruct rest as [|q rest]; [done|].
  change (join sep (p :: q :: rest)) with (p ++ sep ++ join sep (q :: rest)).
  destruct (IH ltac:(done)) as [_ (d & Hd & Hsd)].
  destruct Hp as [(c & Hc & Hsc) _]. split.
  - exists c. by rewrite head_app_l by by eapply head_Some_ne.
  - exists d. rewrite app_assoc, last_app_r by by eapply last_Some_ne. done.
Qed.

Lemma truncate_starts (limit : nat) (s : str) :
  (4 ≤ limit)%nat → starts_with_text s → starts_with_text (truncate limit s).
Proof.
  intros Hl (c & Hc & Hsp). unfold truncate. destruct (limit <? length s)%nat; [|by exists c].
  exists c. split; [|done]. destruct s as [|a s]; [done|].
  destruct limit as [|[|[|[|n]]]]; try lia. done.
Qed.

Lemma truncate_ends (limit : nat) (s : str) :
  is_space 46 = false → ends_with_text s → ends_with_text (truncate limit s).
Proof.
  intros Hdot Hs. unfold truncate. destruct (limit <? length s)%nat; [|done].
  exists 46. split; [|done].
  change (py "...") with ([46; 46] ++ [46]). by rewrite app_assoc, last_snoc.
Qed.

Lemma summary_starts (limit k : nat) (text : str) (s1 : str) (rest : list str) :
  (4 ≤ limit)%nat → sentences_of text = s1 :: rest →
  starts_with_text (truncate limit (join (py ". ") (take (S k) (s1 :: rest)))).
Proof.
  intros Hl Hs. apply truncate_starts; [done|].
  apply join_trimmed; [done|]. apply Forall_take. rewrite <- Hs. apply sentences_trimmed.
Qed.

Lemma summary_ends (limit k : nat) (text : str) (s1 : str) (rest : list str) :
  is_space 46 = false → sentences_of text = s1 :: rest →
  ends_with_text (truncate limit (join (py ". ") (take (S k) (s1 :: rest)))).
Proof.
  intros Hdot Hs. apply truncate_ends; [done|].
  apply join_trimmed; [done|]. apply Forall_take. rewrite <- Hs. apply sentences_trimmed.
Qed.

Lemma main_summary_starts (description_en : str) (lm dm : option (nat * str)) (m : str) :
  main_summary description_en lm dm = Some m → starts_with_text m.
Proof.
  unfold main_summary.
  destruct (match lm with Some _ => _ | None => _ end); [done|].
  destruct (sentences_of _) as [|s1 rest] eqn:Hs; [done|].
  pose proof (summary_starts 300 2 _ s1 rest ltac:(lia) Hs) as H.
  destruct (truncate 300 _); [done|]. by intros [= <-].
Qed.

Lemma main_summary_ends (description_en : str) (lm dm : option (nat * str)) (m : str) :
  is_space 46 = false →
  main_summary description_en lm dm = Some m → ends_with_text m.
Proof.
  intros Hdot. unfold main_summary.
  destruct (match lm with Some _ => _ | None => _ end); [done|].
  destruct (sentences_of _) as [|s1 rest] eqn:Hs; [done|].
  pose proof (summary_ends 300 2 _ s1 rest Hdot Hs) as H.
  destruct (truncate 300 _); [done|]. by intros [= <-].
Qed.

Lemma dress_code_block_starts (dm : option (nat * str)) (d : str) :
  dress_code_block dm = Some d → starts_with_text d.
Proof.
  unfold dress_code_block. destruct dm as [[start group2]|]; [|done].
  destruct (sentences_of _) as [|s1 rest] eqn:Hs; [done|].
  pose proof (summary_starts 200 1 _ s1 rest ltac:(lia) Hs) as H.
  destruct (truncate 200 _); [done|]. by intros [= <-].
Qed.

Lemma dress_code_block_ends (dm : option (nat * str)) (d : str) :
  is_space 46 = false → dress_code_block dm = Some d → ends_with_text d.
Proof.
  intros Hdot. unfold dress_code_block. destruct dm as [[start group2]|]; [|done].
  destruct (sentences_of _) as [|s1 rest] eqn:Hs; [done|].
  pose proof (summary_ends 200 1 _ s1 rest Hdot Hs) as H.
  destruct (truncate 200 _); [done|]. by intros [= <-].
Qed.

Lemma lineup_block_trimmed (lm : option (nat * str)) (l : str) :
  lineup_block lm = Some l → trimmed l.
Proof.
  unfold lineup_block. destruct lm as [[start group2]|]; [|done]. cbv zeta.
  destruct (strip (collapse_spaces _)) as [|c t] eqn:Hs; [done|].
  destruct (_ && _); [|done]. intros [= <-]. rewrite <- Hs.
  apply strip_trimmed. by rewrite Hs.
Qed.

Lemma starts_with_text_elem (s : str) :
  starts_with_text s → ∃ c, c ∈ s ∧ is_space c = false.
Proof.
  intros (c & Hc & Hsp). exists c. split; [|done].
  destruct s as [|a s]; [done|]. injection Hc as ->. set_solver.
Qed.

Lemma strip_has_text (s : str) :
  (∃ c, c ∈ s ∧ is_space c = false) → strip s ≠ [].
Proof.
  intros (c & Hc & Hsp) Hs. pose proof (strip_keeps s c Hc Hsp) as Hin.
  rewrite Hs in Hin. by apply elem_of_nil in Hin.
Qed.


Lemma no_block_no_text (main_text lineup_text dress_text : option str) :
  (∀ m, main_text = Some m → starts_with_text m) →
  (∀ l, lineup_text = Some l → starts_with_text l) →
  (∀ d, dress_text = Some d → starts_with_text d) →
  strip (concat (description_parts (main_text, lineup_text, dress_text))) = [] →
  main_text = None ∧ lineup_text = None ∧ dress_text = None.
Proof.
  intros Hm Hl Hd Hstrip. rewrite description_parts_concat in Hstrip.
  assert (∀ c, c ∈ default [] main_text
                   ++ from_option (λ t, lineup_header ++ t) [] lineup_text
                   ++ from_option (λ t, dress_code_header ++ t) [] dress_text →
               is_space c = false → False) as Hnone.
  { intros c Hc Hsp. by apply (strip_has_text _ (ex_intro _ c (conj Hc Hsp))). }
  split_and!.
  - destruct main_text as [m|]; [|done].
    destruct (starts_with_text_elem m (Hm m eq_refl)) as (c & Hc & Hsp).
    destruct (Hnone c); [|done]. cbn [default]. set_solver.
  - destruct lineup_text as [l|]; [|done].
    destruct (starts_with_text_elem l (Hl l eq_refl)) as (c & Hc & Hsp).
    destruct (Hnone c); [|done]. cbn [from_option]. set_solver.
  - destruct dress_text as [d|]; [|done].
    destruct (starts_with_text_elem d (Hd d eq_refl)) as (c & Hc & Hsp).
    destruct (Hnone c); [|done]. cbn [from_option]. set_solver.
Qed.

Lemma blocks_concat_trimmed (m : str) (lineup_text dress_text : option str) :
  trimmed m →
  (∀ l, lineup_text = Some l → trimmed l) →
  (∀ d, dress_text = Some d → trimmed d) →
  trimmed (concat (description_parts (Some m, lineup_text, dress_text))).
Proof.
  intros [Hm1 (cm & Hcm & Hsm)] Hl Hd. rewrite description_parts_concat.
  cbn [default]. split.
  - destruct Hm1 as (c & Hc & Hsp). exists c. split; [|done].
    by rewrite head_app_l by by eapply head_Some_ne.
  - destruct dress_text as [d|]; cbn [from_option].
    + destruct (Hd d eq_refl) as [_ (c & Hc & Hsp)]. exists c. split; [|done].
      rewrite !app_assoc. by rewrite last_app_r by by eapply last_Some_ne.
    + rewrite app_nil_r. destruct lineup_text as [l|]; cbn [from_option].
      * destruct (Hl l eq_refl) as [_ (c & Hc & Hsp)]. exists c. split; [|done].
        rewrite !app_assoc. by rewrite last_app_r by by eapply last_Some_ne.
      * exists cm. split; [|done]. by rewrite app_nil_r.
Qed.

End BlockProperties.

Section FormatterResult.
Context `{U : Unicode} `{!Latin1Exact U}.

Lemma parse_and_format_description_unfold (translate : str → outcome str) (raw : str) :
  raw ≠ [] →
  parse_and_format_description translate raw =
  match strip (concat (description_parts (description_blocks translate raw))) with
  | [] => None
  | result => Some result
  end.
Proof. by destruct raw. Qed.

Lemma description_blocks_trimmed (translate : str → outcome str) (raw : str)
    (main_text lineup_text dress_text : option str) :
  description_blocks translate raw = (main_text, lineup_text, dress_text) →
  (∀ m, main_text = Some m → trimmed m)
  ∧ (∀ l, lineup_text = Some l → trimmed l)
  ∧ (∀ d, dress_text = Some d → trimmed d).
Proof.
  assert (is_space 46 = false) as Hdot by (by rewrite is_space_latin1).
  unfold description_blocks. intros [= <- <- <-]. split_and!.
  - intros m Hm. split; [by eapply main_summary_starts|by eapply main_summary_ends].
  - apply lineup_block_trimmed.
  - intros d Hd. split; [by eapply dress_code_block_starts|by eapply dress_code_block_ends].
Qed.

(** C7, as the code has it, for any runtime whose tables are those of
    Latin-1 below 256.  The formatter returns [None] exactly when the
    input is empty or no block is produced; what it returns is the
    concatenation of the produced blocks without the white space around
    it; and when the main summary is produced it is that concatenation
    itself. *)
Theorem parse_and_format_description_result
    (translate : str → outcome str) (raw_description : str) :
  let blocks := description_blocks translate raw_description in
  let parts := description_parts blocks in
  (parse_and_format_description translate raw_description = None
   ↔ raw_description = [] ∨ blocks = (None, None, None))
  ∧ (∀ result, parse_and_format_description translate raw_description = Some result →
       result = strip (concat parts))
  ∧ (∀ main_text, raw_description ≠ [] → blocks.1.1 = Some main_text →
       parse_and_format_description translate raw_description = Some (concat parts)).
Proof.
  intros blocks parts. subst parts.
  destruct blocks as [[main_text lineup_text] dress_text] eqn:Hblocks. subst blocks.
  destruct (description_blocks_trimmed _ _ _ _ _ Hblocks) as (Hm & Hl & Hd).
  split_and!.
  - split.
    + intros Hnone. destruct (decide (raw_description = [])) as [|Hraw]; [by left|right].
      rewrite parse_and_format_description_unfold, Hblocks in Hnone by done.
      destruct (strip _) eqn:Hs; [|done].
      apply no_block_no_text in Hs as (-> & -> & ->); [done|..].
      * intros m ?. by apply Hm.
      * intros l ?. by apply Hl.
      * intros d ?. by apply Hd.
    + intros [->|[= -> -> ->]]; [done|].
      destruct raw_description; [done|].
      unfold parse_and_format_description. by rewrite Hblocks.
  - intros result. destruct raw_description; [done|].
    unfold parse_and_format_description. rewrite Hblocks.
    destruct (strip _); [done|]. by intros [= <-].
  - intros m Hraw Hmain. simpl in Hmain. subst main_text.
    rewrite parse_and_format_description_unfold, Hblocks by done.
    pose proof (blocks_concat_trimmed m lineup_text dress_text (Hm m eq_refl) Hl Hd) as Htr.
    rewrite strip_id by done.
    destruct Htr as [(c & Hc & _) _].
    by destruct (concat _).
Qed.

End FormatterResult.

(** C7 with the Latin-1 tables and no translation: a description of two
    sentences comes back as its main summary. *)
Lemma parse_and_format_description_result_witness :
  let raw := py "A great night of house music. Come early" in
  @parse_and_format_description latin1 no_translation raw
  = Some (concat (description_parts (@description_blocks latin1 no_translation raw))).
Proof.
  intros raw.
  destruct (@parse_and_format_description_result latin1 latin1_exact no_translation raw)
    as (_ & _ & Hmain).
  apply (Hmain (py "A great night of house music. Come early")).
  - discriminate.
  - vm_compute. reflexivity.
Defined.

(** C7 as stated fails: a description that starts with its lineup has no
    main summary, and the formatter returns the lineup block. *)
Lemma parse_and_format_description_without_summary :
  let raw := py "Lineup: Alice Wonder, Bob Marley Junior, Charlie" in
  (@description_blocks latin1 no_translation raw).1.1 = None
  ∧ @parse_and_format_description latin1 no_translation raw
    = Some ([127911] ++ py " Lineup:" ++ [10]
            ++ py "Alice Wonder, Bob Marley Junior, Charlie").
Proof. vm_compute. split; reflexivity. Qed.

(** ** The description extraction cascade *)

Lemma first_some_Some {A B : Type} (f : A → option B) (l : list A) (y : B) :
  first_some f l = Some y → ∃ x, x ∈ l ∧ f x = Some y.
Proof.
  induction l as [|x l IH]; simpl; [done|].
  destruct (f x) as [z|] eqn:Hx.
  - intros [= ->]. exists x. split; [set_solver|done].
  - intros (x' & Hin & Hx')%IH. exists x'. split; [set_solver|done].
Qed.

Lemma first_three_Forall (ok : str → bool) (lines : list str) :
  Forall (λ l, l ∈ lines ∧ ok l = true) (first_three ok lines).
Proof.
  unfold first_three. apply Forall_take, Forall_forall.
  intros l Hl. by apply list_elem_of_filter in Hl as [? ?].
Qed.

Section ExtractionProperties.
Context `{U : Unicode}.

(** The three filters reject a candidate with the word in the zone they
    inspect. *)
Lemma div_qualifies_no_cookie (text : str) :
  div_qualifies text = true → contains (py "cookie") (lower text) = false.
Proof.
  unfold div_qualifies. cbv zeta. rewrite !andb_true_iff, !negb_true_iff. tauto.
Qed.

Lemma selector_accepts_no_cookie (text : str) :
  selector_accepts text = true → contains (py "cookie") (lower text) = false.
Proof.
  unfold selector_accepts. rewrite !andb_true_iff, !negb_true_iff. tauto.
Qed.

Lemma line_qualifies_no_cookie (line : str) :
  line_qualifies line = true → contains (py "cookie") (take 50 (lower line)) = false.
Proof.
  unfold line_qualifies. cbv zeta. rewrite !andb_true_iff, !negb_true_iff.
  intros (((((((Hskip & _) & _) & _) & _) & _) & _) & _).
  unfold any_in, skip_keywords in Hskip. simpl in Hskip.
  by apply orb_false_iff in Hskip as [? _].
Qed.

Lemma best_content_qualifies (divs : list element) (content : str) :
  best_content divs = Some content →
  content ∈ inner_text <$> divs ∧ div_qualifies content = true.
Proof.
  unfold best_content.
  induction divs as [|div divs IH] using rev_ind; [done|].
  rewrite foldl_snoc, fmap_app. unfold score_div at 1.
  destruct (inner_text div) as [|c text] eqn:Htext.
  { intros [? ?]%IH. split; [set_solver|done]. }
  destruct (div_qualifies (c :: text)) eqn:Hq; simpl.
  - destruct (_ <? _)%nat; simpl.
    + intros [= <-]. rewrite <- Htext. split; [|by rewrite Htext]. set_solver.
    + intros [? ?]%IH. split; [set_solver|done].
  - intros [? ?]%IH. split; [set_solver|done].
Qed.

Lemma best_div_Some (p : page) (text : str) :
  best_div p = Return (Some text) →
  ∃ content, content ∈ inner_text <$> query_selector_all p SelDiv
             ∧ best_content (query_selector_all p SelDiv) = Some content
             ∧ description_of_div content = Return text
             ∧ contains (py "cookie") (lower content) = false.
Proof.
  unfold best_div.
  destruct (best_content _) as [content|] eqn:Hbest; [|done].
  destruct (_ <? _)%nat; [|done].
  destruct (description_of_div content) as [text'|] eqn:Hd; [|done].
  intros [= <-]. exists content.
  apply best_content_qualifies in Hbest as Hq. destruct Hq as [Hin Hq].
  split_and!; [done..|]. by apply div_qualifies_no_cookie.
Qed.

Lemma selected_description_Some (p : page) (text : str) :
  selected_description p = Some text →
  selector_accepts text = true
  ∧ ∃ sel elem, sel ∈ description_selectors ∧ elem ∈ query_selector_all p sel
                ∧ text = strip (inner_text elem).
Proof.
  unfold selected_description.
  intros (sel & Hsel & (elem & Helem & Hacc)%first_some_Some)%first_some_Some.
  cbv zeta in Hacc. destruct (selector_accepts _) eqn:Ha; [|done].
  injection Hacc as <-. split; [done|]. by exists sel, elem.
Qed.

Lemma lines_description_Some (p : page) (text : str) :
  lines_description p = Some text →
  ∃ main_content lines,
    query_selector p SelMainOrEvent = Some main_content
    ∧ text = join (py " ") lines
    ∧ Forall (λ l, l ∈ stripped_lines (inner_text main_content)
                   ∧ line_qualifies l = true) lines.
Proof.
  unfold lines_description.
  destruct (query_selector p SelMainOrEvent) as [main_content|]; [|done].
  pose proof (first_three_Forall line_qualifies (stripped_lines (inner_text main_content)))
    as Hall.
  destruct (first_three _ _) as [|l ls] eqn:Hls; [done|].
  destruct (_ <? _)%nat; [|done]. intros [= <-].
  by exists main_content, (l :: ls).
Qed.

End ExtractionProperties.

(** The same element with a cookie notice for text is not accepted. *)
Example cookie_notice_rejected :
  contains (py "cookie") (@lower latin1 cookie_notice) = true
  ∧ @extract_description_from_page latin1 (page_with SelClassContent cookie_notice) = None.
Proof. vm_compute. split; reflexivity. Qed.

(** The labelled-section strategy inspects no zone of its candidate: a
    section introduced by a label is returned with the word in it. *)
Example labelled_section_unfiltered :
  contains (py "cookie") (@lower latin1 about_with_cookie) = true
  ∧ @extract_description_from_page latin1 (page_of_text about_with_cookie)
    = Some (drop 7 about_with_cookie).
Proof. vm_compute. split; reflexivity. Qed.

(** ** More on the merge engine *)

Section MergeReport.
Context `{U : Unicode}.

Lemma merge_event_list_grows (state : store * list loc) (n l : loc) :
  l ∈ state.2 → l ∈ (merge_event state n).2.
Proof.
  destruct state as [h M]. simpl.
  destruct (find_duplicate h (h n) M); simpl; [done|]. set_solver.
Qed.

Lemma merge_events_list_grows (h : store) (M N : list loc) (l : loc) :
  l ∈ M → l ∈ (merge_events h M N).2.
Proof.
  intros Hl. induction N as [|n N IH] using rev_ind; [done|].
  rewrite merge_events_snoc. by apply merge_event_list_grows.
Qed.

Lemma merge_events_app (h : store) (M N1 N2 : list loc) :
  merge_events h M (N1 ++ N2)
  = merge_events (merge_events h M N1).1 (merge_events h M N1).2 N2.
Proof.
  unfold merge_events. rewrite foldl_app. by destruct (foldl merge_event (h, M) N1).
Qed.

(** X1. The merged list has between [len(C)] and [len(C) + len(N)]
    records, and the two counts [main] prints after the merge are the
    number of new records that found no duplicate and the number of
    those that found one; neither is negative. *)
Theorem merge_report (h : store) (C N : list loc) :
  let merged := (merge_events h C N).2 in
  let appended := unmatched (h, C) N in
  (length C ≤ length merged ≤ length C + length N)%nat
  ∧ new_count C merged = Z.of_nat (length appended)
  ∧ updated_count C N merged = Z.of_nat (length N - length appended)
  ∧ (0 ≤ new_count C merged ≤ Z.of_nat (length N))%Z
  ∧ (0 ≤ updated_count C N merged ≤ Z.of_nat (length N))%Z.
Proof.
  intros merged appended. subst merged.
  pose proof (sublist_length _ _ (unmatched_sublist (h, C) N)) as Hlen.
  fold appended in Hlen.
  unfold updated_count, new_count. rewrite merge_events_list, length_app.
  fold appended. split_and!; lia.
Qed.

(** X2. A dictionary that is not in the merged list is left as it was:
    the merge writes only to records of the list it returns. *)
Theorem merge_events_frame (h : store) (C N : list loc) (l : loc) :
  l ∉ (merge_events h C N).2 → (merge_events h C N).1 l = h l.
Proof.
  induction N as [|n N IH] using rev_ind; [done|].
  rewrite merge_events_snoc.
  destruct (merge_events h C N) as [h' M'] eqn:Hstate. simpl in *.
  destruct (find_duplicate h' (h' n) M') as [l0|] eqn:Hfind; simpl.
  - intros Hl. apply find_duplicate_Some in Hfind as [Hl0 _].
    rewrite update_ne by (intros ->; done). by apply IH.
  - intros Hl. apply IH. set_solver.
Qed.

End MergeReport.

Section MergeRepresents.
Context `{U : Unicode}.

Lemma extends_refl (e : event) : extends e e.
Proof. by intros k v. Qed.

Lemma extends_fill_missing (n e : event) : extends (fill_missing n e) e.
Proof. intros k v. apply fill_missing_keeps. Qed.

Lemma extends_get (e' e : event) (k : str) (d : value) :
  extends e' e → truthy (get e k d) = true → truthy d = false →
  get e' k d = get e k d.
Proof.
  intros Hext Ht Hd. destruct (truthy_get e k d Ht Hd) as (v & Hv & Htv).
  unfold get. by rewrite (Hext k v Hv Htv), Hv.
Qed.

(** Two records that match still match when attributes are added to
    them: the match rests on attributes that are set. *)
Lemma events_match_extends (a a' b b' : event) :
  extends a' a → extends b' b →
  events_match a b = true → events_match a' b' = true.
Proof.
  intros Ha Hb Hmatch.
  pose proof (events_match_name_set a b Hmatch) as Hnb.
  unfold events_match in *. cbv zeta in *.
  apply andb_true_iff in Hmatch as [Hname Hkey].
  pose proof Hname as Hname'.
  apply name_match_true in Hname' as (Hna & _ & _).
  apply (normalized_set a "name") in Hna.
  rewrite (extends_get a' a (py "name")), (extends_get b' b (py "name")) by done.
  rewrite Hname. simpl.
  apply orb_true_iff in Hkey as [Hdate|Hvenue].
  - apply both_set_and_equal_true in Hdate as Hd. destruct Hd as (Hda & Hdb & _).
    rewrite (extends_get a' a (py "date")), (extends_get b' b (py "date")) by done.
    by rewrite Hdate.
  - destruct (negb (bool_decide (normalize_event_name (get a (py "venueName") (VStr [])) = []))
              && negb (bool_decide (normalize_event_name (get b (py "venueName") (VStr [])) = [])))
      eqn:Hne; [|done].
    apply andb_true_iff in Hne as Hne'. destruct Hne' as [Hva Hvb].
    apply negb_true_iff, bool_decide_eq_false in Hva, Hvb.
    apply (normalized_set a "venueName") in Hva.
    apply (normalized_set b "venueName") in Hvb.
    rewrite (extends_get a' a (py "venueName")), (extends_get b' b (py "venueName")) by done.
    rewrite Hne, Hvenue. apply orb_true_r.
Qed.

(** X3. No new record is lost: a record of the batch that is not in the
    merged list is left as it was, and the merged list holds a record
    that matches it and has every attribute set that the record has
    set. *)
Theorem merge_events_represents (h : store) (C N : list loc) (n : loc) :
  let h1 := (merge_events h C N).1 in
  let merged := (merge_events h C N).2 in
  n ∈ N → n ∉ merged →
  h1 n = h n
  ∧ ∃ l, l ∈ merged ∧ events_match (h n) (h1 l) = true ∧ covers (h1 l) (h n).
Proof.
  intros h1 merged Hn Hout. split; [by apply merge_events_frame|].
  subst h1 merged. clear -Hn Hout.
  induction N as [|n0 N IH] using rev_ind; [by apply elem_of_nil in Hn|].
  revert Hout. rewrite merge_events_snoc.
  pose proof (merge_events_frame h C N) as Hframe.
  destruct (merge_events h C N) as [h' M']. simpl in *.
  destruct (find_duplicate h' (h' n0) M') as [l0|] eqn:Hfind; simpl.
  - intros Hout. apply find_duplicate_Some in Hfind as [Hl0 Hmatch].
    apply elem_of_app in Hn as [Hn| ->%list_elem_of_singleton].
    + destruct (IH Hn Hout) as (l & Hl & Hm & Hc). exists l. split; [done|].
      destruct (decide (l = l0)) as [->|Hne].
      * rewrite update_eq. split; [|by apply covers_grows].
        eapply events_match_extends; [apply extends_refl|apply extends_fill_missing|done].
      * by rewrite update_ne.
    + exists l0. rewrite update_eq. rewrite (Hframe n0 Hout) in *.
      split_and!; [done| |apply covers_fill_missing].
      by apply events_match_fill_missing.
  - intros Hout. rewrite not_elem_of_app, list_elem_of_singleton in Hout.
    destruct Hout as [Hout Hne].
    apply elem_of_app in Hn as [Hn| ->%list_elem_of_singleton]; [|done].
    destruct (IH Hn Hout) as (l & Hl & Hm & Hc). exists l.
    split; [|done]. set_solver.
Qed.

End MergeRepresents.

(** X3 on a catalog of one record and a batch of one duplicate of it. *)
Lemma merge_events_represents_witness :
  let h := objects
    [ev [("name", "BBB"); ("date", "2025-11-23")];
     ev [("name", "bbb party"); ("date", "2025-11-23"); ("price", "15")]] in
  let h1 := (@merge_events latin1 h [0%nat] [1%nat]).1 in
  let merged := (@merge_events latin1 h [0%nat] [1%nat]).2 in
  h1 1%nat = h 1%nat
  ∧ ∃ l, l ∈ merged ∧ @events_match latin1 (h 1%nat) (h1 l) = true
         ∧ covers (h1 l) (h 1%nat).
Proof.
  intros h.
  apply (@merge_events_represents latin1 h [0%nat] [1%nat] 1%nat).
  - apply list_elem_of_singleton. reflexivity.
  - replace (@merge_events latin1 h [0%nat] [1%nat]).2 with [0%nat]
      by (vm_compute; reflexivity).
    intros Hin. apply list_elem_of_singleton in Hin. discriminate.
Defined.

(** X4 on a record that is already in the catalog under another name. *)
Lemma merge_events_idempotent_single_witness :
  let h := objects
    [ev [("name", "BBB"); ("date", "2025-11-23")];
     ev [("name", "bbb party"); ("date", "2025-11-23"); ("price", "15")]] in
  let first := @merge_events latin1 h [0%nat] [1%nat] in
  let second := @merge_events latin1 first.1 first.2 [1%nat] in
  contents second.1 second.2 = contents first.1 first.2.
Proof.
  intros h.
  apply (@merge_events_idempotent_single latin1 h [0%nat] 1%nat).
  vm_compute. reflexivity.
Defined.

(** ** More on the section dates *)

Section DateRange.
Context `{U : Unicode}.

Lemma make_datetime_Some (y m d : N) (t : datetime) :
  make_datetime y m d = Some t →
  t = {| year := y; month := m; day := d |}
  ∧ 1 ≤ y ≤ 9999 ∧ 1 ≤ m ≤ 12 ∧ 1 ≤ d ≤ days_in_month y m.
Proof.
  unfold make_datetime.
  destruct (1 <=? y) eqn:H1; simpl; [|done].
  destruct (y <=? 9999) eqn:H2; simpl; [|done].
  destruct (1 <=? m) eqn:H3; simpl; [|done].
  destruct (m <=? 12) eqn:H4; simpl; [|done].
  destruct (1 <=? d) eqn:H5; simpl; [|done].
  destruct (d <=? days_in_month y m) eqn:H6; simpl; [|done].
  intros [= <-]. apply N.leb_le in H1, H2, H3, H4, H5, H6. done.
Qed.

Lemma make_datetime_valid (y m d : N) (t : datetime) :
  make_datetime y m d = Some t → valid_date t.
Proof.
  intros H. pose proof H as (-> & _)%make_datetime_Some. exact H.
Qed.

Lemma days_in_month_pos (y m : N) : 1 ≤ m ≤ 12 → 1 ≤ days_in_month y m.
Proof.
  intros Hm. unfold days_in_month.
  destruct (m =? 2); [destruct (is_leap y); lia|].
  destruct (_ || _); [lia|].
  destruct (1 <=? m) eqn:H1; [|apply N.leb_gt in H1; lia].
  destruct (m <=? 12) eqn:H2; [|apply N.leb_gt in H2; lia].
  simpl. lia.
Qed.

Lemma add_one_day_Some (today t : datetime) :
  valid_date today → add_one_day today = Some t →
  valid_date t ∧ date_lt today t
  ∧ (year t = year today
     ∨ (year t = year today + 1 ∧ month t = 1 ∧ day t = 1 ∧ month today = 12)).
Proof.
  intros (_ & Hy & Hm & Hd)%make_datetime_Some. unfold add_one_day.
  destruct (day today <? _) eqn:Hday.
  - intros [= <-]. apply N.ltb_lt in Hday. unfold valid_date, date_lt. simpl.
    split_and!; [|lia|lia].
    unfold make_datetime.
    repeat match goal with
           | |- context [?a <=? ?b] =>
               let H := fresh in
               destruct (a <=? b) eqn:H; [|apply N.leb_gt in H; lia]
           end.
    done.
  - destruct (month today <? 12) eqn:Hmonth.
    + intros [= <-]. apply N.ltb_lt in Hmonth. unfold valid_date, date_lt. simpl.
      split_and!; [|lia|lia].
      pose proof (days_in_month_pos (year today) (month today + 1)).
      unfold make_datetime.
      repeat match goal with
             | |- context [?a <=? ?b] =>
                 let H := fresh in
                 destruct (a <=? b) eqn:H; [|apply N.leb_gt in H; lia]
             end.
      done.
    + intros Ht. apply N.ltb_ge in Hmonth.
      pose proof (make_datetime_valid _ _ _ _ Ht).
      apply make_datetime_Some in Ht as (-> & _). unfold date_lt. simpl.
      split_and!; [done|lia|lia].
Qed.

(** The range of the dates of a section. *)
Lemma parse_date_range (today : datetime) (s text : str) :
  valid_date today →
  parse_date_from_section today s = Return (Some text) →
  ∃ t, text = strftime_ymd t ∧ length text = 10%nat
       ∧ valid_date t ∧ date_le today t
       ∧ date_lt t {| year := year today + 1; month := month today; day := day today |}.
Proof.
  intros Hvalid. pose proof Hvalid as (_ & Hy & Hm & Hd)%make_datetime_Some.
  unfold parse_date_from_section.
  destruct s as [|c s']; [done|].
  destruct (_ || _).
  { intros [= <-]. exists today. unfold date_le, date_lt. simpl.
    split_and!; [done|done|done|lia|lia]. }
  destruct (_ || _).
  { destruct (add_one_day today) as [t|] eqn:Ht; [|done].
    intros [= <-]. exists t.
    destruct (add_one_day_Some today t Hvalid Ht) as (Hv & Hlt & Hnext).
    unfold date_le, date_lt in *. simpl.
    split_and!; [done|done|done|lia|].
    lia. }
  destruct (search_day_month (c :: s')) as [[group1 group2]|]; [|done].
  destruct (int_of group1) as [d|]; [|done].
  cbv zeta.
  set (m := table_get months_fr (lower group2) (month today)).
  destruct (make_datetime _ m d) as [t|] eqn:Ht; [|done].
  intros [= <-]. exists t.
  pose proof (make_datetime_valid _ _ _ _ Ht) as Hv.
  apply make_datetime_Some in Ht as (-> & _ & _ & _).
  unfold date_le, date_lt. simpl.
  split_and!; [done|done|done| |].
  - destruct (m <? month today) eqn:H1; simpl; [lia|].
    apply N.ltb_ge in H1.
    destruct (m =? month today) eqn:H2; simpl.
    + apply N.eqb_eq in H2. destruct (d <? day today) eqn:H3; [lia|].
      apply N.ltb_ge in H3. lia.
    + apply N.eqb_neq in H2. lia.
  - destruct (m <? month today) eqn:H1; simpl.
    + apply N.ltb_lt in H1. lia.
    + destruct (m =? month today) eqn:H2; simpl.
      * apply N.eqb_eq in H2. destruct (d <? day today) eqn:H3; [|lia].
        apply N.ltb_lt in H3. lia.
      * lia.
Qed.

(** X5. The date of a section is never in the past.  For a valid date
    of today, whatever the header, a result is the text
    [strftime('%Y-%m-%d')] of a day of the calendar that is today or
    later and less than a year after today; it has ten characters,
    digits but for the two dashes. *)
Theorem parse_date_from_section_upcoming (today : datetime) (s text : str) :
  valid_date today →
  parse_date_from_section today s = Return (Some text) →
  (∃ t, text = strftime_ymd t
        ∧ valid_date t ∧ date_le today t
        ∧ date_lt t {| year := year today + 1; month := month today; day := day today |})
  ∧ length text = 10%nat
  ∧ text !! 4%nat = Some 45 ∧ text !! 7%nat = Some 45
  ∧ Forall (λ c, c = 45 ∨ 48 ≤ c ≤ 57) text.
Proof.
  intros Hvalid Hparse.
  destruct (parse_date_range today s text Hvalid Hparse) as (t & -> & Hlen & Ht & Hle & Hlt).
  split; [by exists t|].
  split_and!; [done..|].
  assert (∀ n, 48 ≤ digit n ≤ 57) as Hdigit.
  { intros n. unfold digit.
    assert (n `mod` 10 < 10) as Hmod by (by apply N.mod_upper_bound).
    generalize dependent (n `mod` 10). intros; lia. }
  unfold strftime_ymd. cbn [app].
  repeat (apply Forall_cons; split; [first [by left|right; apply Hdigit]|]).
  apply Forall_nil_2.
Qed.

(** X6. A header that holds no today or tomorrow keyword and no digit
    has no date: the result is [None]. *)
Theorem parse_date_from_section_no_digit (today : datetime) (s : str) :
  contains (py "aujourd'hui") (lower s) || contains (py "today") (lower s) = false →
  contains (py "demain") (lower s) || contains (py "tomorrow") (lower s) = false →
  Forall (λ c, digit_val c = None) s →
  parse_date_from_section today s = Return None.
Proof.
  intros Htoday Htomorrow Hs. unfold parse_date_from_section.
  destruct s as [|c s']; [done|]. rewrite Htoday, Htomorrow.
  rewrite <- (app_nil_r (c :: s')), (search_skips_non_digits _ [] Hs). done.
Qed.

End DateRange.

(** X5 on the header of a section two days from today. *)
Lemma parse_date_from_section_upcoming_witness :
  let text := py "2025-11-21" in
  (∃ t, text = strftime_ymd t
        ∧ valid_date t ∧ date_le nov_19 t
        ∧ date_lt t {| year := year nov_19 + 1; month := month nov_19; day := day nov_19 |})
  ∧ length text = 10%nat
  ∧ text !! 4%nat = Some 45 ∧ text !! 7%nat = Some 45
  ∧ Forall (λ c, c = 45 ∨ 48 ≤ c ≤ 57) text.
Proof.
  apply (@parse_date_from_section_upcoming latin1 nov_19 (py "ven. 21 novembre")).
  - reflexivity.
  - vm_compute. reflexivity.
Defined.

(** X6 on a header that names a day of the week only. *)
Lemma parse_date_from_section_no_digit_witness :
  @parse_date_from_section latin1 nov_19 (py "vendredi") = Return None.
Proof.
  apply (@parse_date_from_section_no_digit latin1).
  - vm_compute. reflexivity.
  - vm_compute. reflexivity.
  - repeat constructor.
Defined.

(** ** More on the description formatter *)

Section FormatterBounds.
Context `{U : Unicode}.

Lemma lstrip_length (s : str) : (length (lstrip s) ≤ length s)%nat.
Proof. apply suffix_length, lstrip_suffix. Qed.

Lemma rstrip_length (s : str) : (length (rstrip s) ≤ length s)%nat.
Proof. apply prefix_length, rstrip_prefix. Qed.

Lemma strip_length (s : str) : (length (strip s) ≤ length s)%nat.
Proof. unfold strip. pose proof (rstrip_length (lstrip s)). pose proof (lstrip_length s). lia. Qed.

Lemma lineup_block_length (lineup_match : option (nat * str)) (lineup_text : str) :
  lineup_block lineup_match = Some lineup_text →
  (20 < length lineup_text < 500)%nat.
Proof.
  unfold lineup_block. destruct lineup_match as [[start group2]|]; [|done]. cbv zeta.
  destruct (strip (collapse_spaces _)) as [|c t]; [done|].
  destruct (20 <? _)%nat eqn:H1; simpl; [|done].
  destruct (_ <? 500)%nat eqn:H2; simpl; [|done].
  intros [= <-]. apply Nat.ltb_lt in H1, H2. done.
Qed.

(** The blocks and their labels have at most 1027 characters together. *)
Lemma description_parts_length (translate : str → outcome str) (raw_description : str) :
  (length (concat (description_parts (description_blocks translate raw_description)))
   ≤ 1027)%nat.
Proof.
  destruct (description_blocks translate raw_description)
    as [[main_text lineup_text] dress_text] eqn:Hblocks.
  rewrite description_parts_concat.
  unfold description_blocks in Hblocks. injection Hblocks as Hmain Hlineup Hdress.
  rewrite !length_app.
  assert (length (default [] main_text) ≤ 300)%nat.
  { destruct main_text as [m|]; simpl; [|lia].
    by eapply main_summary_length. }
  assert (length (from_option (λ t, lineup_header ++ t) [] lineup_text) ≤ 12 + 499)%nat.
  { destruct lineup_text as [l|]; cbn [from_option]; [|simpl; lia].
    apply lineup_block_length in Hlineup. rewrite length_app.
    change (length lineup_header) with 12%nat. lia. }
  assert (length (from_option (λ t, dress_code_header ++ t) [] dress_text) ≤ 16 + 200)%nat.
  { destruct dress_text as [d|]; cbn [from_option]; [|simpl; lia].
    apply dress_code_block_length in Hdress. rewrite length_app.
    change (length dress_code_header) with 16%nat. lia. }
  lia.
Qed.

(** X7. Whatever the translator does and however long the input is, a
    formatted description is not empty, has no white space around it and
    has at most 1027 characters: 300 of summary, the lineup label and
    less than 500 of lineup, the dress-code label and 200 of dress
    code. *)
Theorem parse_and_format_description_bounded
    (translate : str → outcome str) (raw_description result : str) :
  parse_and_format_description translate raw_description = Some result →
  result ≠ [] ∧ trimmed result ∧ (length result ≤ 1027)%nat.
Proof.
  intros Hresult.
  assert (raw_description ≠ []) as Hraw by (by intros ->).
  rewrite parse_and_format_description_unfold in Hresult by done.
  destruct (strip _) as [|c t] eqn:Hs; [done|]. injection Hresult as <-.
  rewrite <- Hs. split_and!.
  - by rewrite Hs.
  - apply strip_trimmed. by rewrite Hs.
  - etrans; [apply strip_length|apply description_parts_length].
Qed.

End FormatterBounds.

(** X7 on a description of one sentence. *)
Lemma parse_and_format_description_bounded_witness :
  let result := py "Big queer party with three rooms of music" in
  result ≠ [] ∧ @trimmed latin1 result ∧ (length result ≤ 1027)%nat.
Proof.
  apply (@parse_and_format_description_bounded latin1 no_translation
           (py "  Big queer party with three rooms of music. ")).
  vm_compute. reflexivity.
Defined.

(** ** Enrichment *)

Section EnrichmentProperties.
Context `{U : Unicode}.
Variable translate : str → outcome str.
Variable visit : str → outcome page.

Lemma format_description_shape (raw : option str) (lineup dress_code : option str)
    (event_name venue_name : value) (text : str) :
  format_description translate raw lineup dress_code event_name venue_name = Some text →
  text ≠ [] ∧ trimmed text ∧ (length text ≤ 1027)%nat.
Proof.
  unfold format_description. destruct raw as [raw|]; [|done].
  intros Hresult.
  assert (raw ≠ []) as Hraw by (by intros ->).
  rewrite parse_and_format_description_unfold in Hresult by done.
  destruct (strip _) as [|c t] eqn:Hs; [done|]. injection Hresult as <-.
  rewrite <- Hs. split_and!.
  - by rewrite Hs.
  - apply strip_trimmed. by rewrite Hs.
  - etrans; [apply strip_length|apply description_parts_length].
Qed.

Lemma fill_from_other (info : event) (key : string) (e : event) (k : str) :
  k ≠ py key → fill_from info key e !! k = e !! k.
Proof.
  intros Hk. unfold fill_from. destruct (_ && _); [|done].
  by rewrite lookup_insert_ne.
Qed.

Lemma fill_from_extends (info : event) (key : string) (e : event) :
  extends (fill_from info key e) e.
Proof.
  intros k v Hk Hv. unfold fill_from.
  destruct (truthy (get info (py key) VNone)); simpl; [|done].
  destruct (truthy (get e (py key) VNone)) eqn:He; simpl; [done|].
  rewrite lookup_insert_ne; [done|]. intros <-.
  unfold get in He. rewrite Hk in He. simpl in He. congruence.
Qed.

Lemma fill_from_is_Some (info : event) (key : string) (e : event) (k : str) :
  is_Some (e !! k) → is_Some (fill_from info key e !! k).
Proof.
  intros Hk. unfold fill_from. destruct (_ && _); [|done].
  rewrite lookup_insert_is_Some. destruct (decide (py key = k)); auto.
Qed.

Lemma fill_from_missing (info : event) (key : string) (e : event) :
  truthy (get e (py key) VNone) = false →
  truthy (get info (py key) VNone) = true →
  fill_from info key e !! py key = info !! py key.
Proof.
  intros He Hi. unfold fill_from. rewrite He, Hi. simpl.
  rewrite lookup_insert_eq. unfold get in *.
  by destruct (info !! py key).
Qed.

Lemma extends_trans (e1 e2 e3 : event) : extends e3 e2 → extends e2 e1 → extends e3 e1.
Proof. intros H32 H21 k v Hk Hv. apply H32; [|done]. by apply H21. Qed.

Lemma extends_insert_missing (e : event) (k : str) (v : value) :
  truthy (get e k VNone) = false → extends (<[k := v]> e) e.
Proof.
  intros He k' v' Hk Hv. rewrite lookup_insert_ne; [done|]. intros <-.
  unfold get in He. rewrite Hk in He. simpl in He. congruence.
Qed.

(** [enrich_event_from_queerparis] writes five attributes only. *)
Lemma enrich_event_from_queerparis_other
    (extract_event_info_from_queerparis : str → event) (e : event) (k : str) :
  k ∉ py <$> ["description"; "address"; "price"; "ticketLink"; "instagram"] →
  enrich_event_from_queerparis translate extract_event_info_from_queerparis e !! k = e !! k.
Proof.
  intros Hk. rewrite !fmap_cons, !not_elem_of_cons in Hk.
  destruct Hk as (H1 & H2 & H3 & H4 & H5 & _).
  unfold enrich_event_from_queerparis.
  destruct (get e (py "queerParisUrl") VNone) as [|[|c queer_url]]; try done.
  cbv zeta. rewrite !fill_from_other by done.
  destruct (get _ (py "description") VNone) as [|[|d description]]; try done.
  destruct (negb _); [|done].
  destruct (translate _); by rewrite lookup_insert_ne.
Qed.

(** X9. The detail page of queer.paris only fills what is missing.  A
    record keeps every attribute it has set and every key it has; only
    the description, the address, the price, the ticket link and the
    Instagram link can change; each of the last four, when the record
    lacks it and the page gives it, gets the value of the page; and a
    record without a queer.paris link is returned as it is. *)
Theorem enrich_event_from_queerparis_fills
    (extract_event_info_from_queerparis : str → event) (e : event) :
  let e' := enrich_event_from_queerparis translate extract_event_info_from_queerparis e in
  extends e' e
  ∧ (∀ k, is_Some (e !! k) → is_Some (e' !! k))
  ∧ (∀ k, k ∉ py <$> ["description"; "address"; "price"; "ticketLink"; "instagram"] →
       e' !! k = e !! k)
  ∧ (∀ url key, get e (py "queerParisUrl") VNone = VStr url → url ≠ [] →
       key ∈ ["address"; "price"; "ticketLink"; "instagram"] →
       truthy (get e (py key) VNone) = false →
       truthy (get (extract_event_info_from_queerparis url) (py key) VNone) = true →
       e' !! py key = extract_event_info_from_queerparis url !! py key)
  ∧ (truthy (get e (py "queerParisUrl") VNone) = false → e' = e).
Proof.
  intros e'. subst e'. unfold enrich_event_from_queerparis.
  destruct (get e (py "queerParisUrl") VNone) as [|[|c queer_url]] eqn:Hurl;
    try (split_and!; [apply extends_refl|done|done|by intros ? ? [= <-]|done]).
  set (info := extract_event_info_from_queerparis (c :: queer_url)).
  set (e1 := match get info (py "description") VNone with
             | VStr (d :: description) => _
             | _ => e
             end).
  assert (extends e1 e) as Hext1.
  { subst e1. destruct (get info (py "description") VNone) as [|[|d description]];
      try apply extends_refl.
    destruct (truthy (get e (py "description") VNone)) eqn:He; simpl; [apply extends_refl|].
    destruct (translate _); by apply extends_insert_missing. }
  assert (∀ k, is_Some (e !! k) → is_Some (e1 !! k)) as Hsome1.
  { intros k Hk. subst e1.
    destruct (get info (py "description") VNone) as [|[|d description]]; try done.
    destruct (negb _); [|done].
    destruct (translate _); rewrite lookup_insert_is_Some;
      destruct (decide (py "description" = k)); auto. }
  assert (∀ k, k ≠ py "description" → e1 !! k = e !! k) as Hother1.
  { intros k Hk. subst e1.
    destruct (get info (py "description") VNone) as [|[|d description]]; try done.
    destruct (negb _); [|done].
    destruct (translate _); by rewrite lookup_insert_ne. }
  clearbody e1. split_and!.
  - repeat (eapply extends_trans; [apply fill_from_extends|]). done.
  - intros k Hk. by do 4 apply fill_from_is_Some; auto.
  - intros k Hk. rewrite !fmap_cons, !not_elem_of_cons in Hk.
    destruct Hk as (H1 & H2 & H3 & H4 & H5 & _).
    rewrite !fill_from_other by done. by apply Hother1.
  - intros url key [= <-] _ Hkey He Hinfo. fold info in Hinfo |- *.
    assert (py key ≠ py "description") as Hd.
    { rewrite !elem_of_cons in Hkey.
      destruct Hkey as [->|[->|[->|[->|?%elem_of_nil]]]]; done. }
    assert (truthy (get e1 (py key) VNone) = false) as He1.
    { unfold get in *. by rewrite Hother1. }
    assert (∀ key' x, py key ≠ py key' → truthy (get x (py key) VNone) = false →
                      truthy (get (fill_from info key' x) (py key) VNone) = false) as Hkeep.
    { intros key' x Hne Hx. unfold get in *. by rewrite fill_from_other. }
    rewrite !elem_of_cons in Hkey.
    destruct Hkey as [->|[->|[->|[->|?%elem_of_nil]]]]; [| | | |done].
    + rewrite !fill_from_other by done. by apply fill_from_missing.
    + rewrite !fill_from_other by done. apply fill_from_missing; [|done].
      by apply Hkeep.
    + rewrite !fill_from_other by done. apply fill_from_missing; [|done].
      by do 2 (apply Hkeep; [done|]).
    + apply fill_from_missing; [|done].
      by do 3 (apply Hkeep; [done|]).
  - done.
Qed.


End EnrichmentProperties.

Section ShotgunProperties.
Context `{U : Unicode}.
Variable translate : str → outcome str.
Variable visit : str → outcome page.

Lemma insert_if_other (b : bool) (k k' : str) (v : value) (e : event) :
  k' ≠ k → (if b then <[k := v]> e else e) !! k' = e !! k'.
Proof. intros Hk. destruct b; [|done]. by rewrite lookup_insert_ne. Qed.

(** [enrich_event_from_shotgun] writes three attributes only. *)
Lemma enrich_event_from_shotgun_other
    (search_event_on_shotgun : value → value → outcome (value * value))
    (e e' : event) (k : str) :
  enrich_event_from_shotgun translate visit search_event_on_shotgun e = Return e' →
  k ∉ py <$> ["ticketLink"; "imageUrl"; "description"] →
  e' !! k = e !! k.
Proof.
  intros Hret Hk. rewrite !fmap_cons, !not_elem_of_cons in Hk.
  destruct Hk as (H1 & H2 & H3 & _).
  unfold enrich_event_from_shotgun in Hret.
  destruct (search_event_on_shotgun _ _) as [[ticket_link image_url]|]; [|done].
  cbv zeta in Hret.
  set (e2 := if truthy image_url then _ else _) in Hret.
  assert (e2 !! k = e !! k) as He2 by (subst e2; by rewrite !insert_if_other).
  clearbody e2.
  repeat match type of Hret with
         | context [match ?x with _ => _ end] => destruct x
         end;
    injection Hret as <-; rewrite ?lookup_insert_ne by done; done.
Qed.

End ShotgunProperties.

(** A key is not among the keys a function writes. *)
Ltac key_outside :=
  rewrite !fmap_cons, fmap_nil, !not_elem_of_cons;
  split_and!; [done..|apply not_elem_of_nil].

Section DescriptionsProperties.
Context `{U : Unicode}.
Variable translate : str → outcome str.
Variable visit : str → outcome page.

(** X10. The enrichment from shotgun.live, once the search has
    returned: a ticket link and an image that were found replace those
    of the record, set or not; a description is written only when a
    ticket link was found, and it is a formatted one, trimmed and of at
    most 1027 characters; no other attribute changes. *)
Theorem enrich_event_from_shotgun_writes
    (search_event_on_shotgun : value → value → outcome (value * value)) (e e' : event) :
  enrich_event_from_shotgun translate visit search_event_on_shotgun e = Return e' →
  ∃ ticket_link image_url,
    search_event_on_shotgun (get e (py "name") (VStr [])) (get e (py "date") (VStr []))
    = Return (ticket_link, image_url)
    ∧ e' !! py "ticketLink"
      = (if truthy ticket_link then Some ticket_link else e !! py "ticketLink")
    ∧ e' !! py "imageUrl"
      = (if truthy image_url then Some image_url else e !! py "imageUrl")
    ∧ (e' !! py "description" = e !! py "description"
       ∨ (truthy ticket_link = true
          ∧ ∃ text, e' !! py "description" = Some (VStr text)
                    ∧ text ≠ [] ∧ trimmed text ∧ (length text ≤ 1027)%nat))
    ∧ (∀ k, k ∉ py <$> ["ticketLink"; "imageUrl"; "description"] → e' !! k = e !! k).
Proof.
  unfold enrich_event_from_shotgun.
  destruct (search_event_on_shotgun _ _) as [[ticket_link image_url]|]; [|done].
  set (e1 := if truthy ticket_link then <[py "ticketLink" := ticket_link]> e else e).
  set (e2 := if truthy image_url then <[py "imageUrl" := image_url]> e1 else e1).
  assert (e2 !! py "ticketLink"
          = (if truthy ticket_link then Some ticket_link else e !! py "ticketLink")) as H1.
  { subst e2. rewrite insert_if_other by done. subst e1.
    destruct (truthy ticket_link); [by rewrite lookup_insert_eq|done]. }
  assert (e2 !! py "imageUrl"
          = (if truthy image_url then Some image_url else e !! py "imageUrl")) as H2.
  { subst e2. destruct (truthy image_url); [by rewrite lookup_insert_eq|].
    subst e1. by rewrite insert_if_other. }
  assert (∀ k, k ≠ py "ticketLink" → k ≠ py "imageUrl" → e2 !! k = e !! k) as H3.
  { intros k Hk1 Hk2. subst e2 e1. by rewrite !insert_if_other. }
  clearbody e2. clear e1.
  assert (e2 = e' →
          ∃ ticket_link0 image_url0,
            Return (ticket_link, image_url) = Return (ticket_link0, image_url0)
            ∧ e' !! py "ticketLink"
              = (if truthy ticket_link0 then Some ticket_link0 else e !! py "ticketLink")
            ∧ e' !! py "imageUrl"
              = (if truthy image_url0 then Some image_url0 else e !! py "imageUrl")
            ∧ (e' !! py "description" = e !! py "description"
               ∨ (truthy ticket_link0 = true
                  ∧ ∃ text, e' !! py "description" = Some (VStr text)
                            ∧ text ≠ [] ∧ trimmed text ∧ (length text ≤ 1027)%nat))
            ∧ (∀ k, k ∉ py <$> ["ticketLink"; "imageUrl"; "description"] →
                 e' !! k = e !! k)) as Hsame.
  { intros <-. exists ticket_link, image_url. split_and!; [done..| |].
    - left. by apply H3.
    - intros k Hk. rewrite !fmap_cons, !not_elem_of_cons in Hk.
      destruct Hk as (? & ? & ? & _). by apply H3. }
  destruct ticket_link as [|[|c link]] eqn:Hlink; try (intros [= ?]; by apply Hsame).
  destruct (visit (c :: link)) as [p|]; [|intros [= ?]; by apply Hsame].
  destruct (extract_description_from_page p) as [[|d description]|];
    try (intros [= ?]; by apply Hsame).
  destruct (format_description _ _ _ _ _ _) as [[|f formatted_desc]|] eqn:Hformat;
    try (intros [= ?]; by apply Hsame).
  intros [= <-]. exists (VStr (c :: link)), image_url.
  apply format_description_shape in Hformat as (Hne & Htrim & Hlen).
  split_and!; [done| | | |].
  - by rewrite lookup_insert_ne.
  - by rewrite lookup_insert_ne.
  - right. split; [done|]. exists (f :: formatted_desc). by rewrite lookup_insert_eq.
  - intros k Hk. rewrite !fmap_cons, !not_elem_of_cons in Hk.
    destruct Hk as (? & ? & ? & _). rewrite lookup_insert_ne by done. by apply H3.
Qed.

(** What one turn of [enrich_event_descriptions] does to a record. *)
Lemma enrich_event_descriptions_step_cases (e : event) :
  let e' := enrich_event_descriptions_step translate visit e in
  let ticket_link := get e (py "ticketLink") (VStr []) in
  (ticket_link ∈ VStr <$> bad_links → e' = <[py "ticketLink" := VStr []]> e)
  ∧ (ticket_link ∉ VStr <$> bad_links →
     e' !! py "ticketLink" = e !! py "ticketLink"
     ∧ (e' = e
        ∨ ∃ link text,
            ticket_link = VStr link
            ∧ startswith link (py "https://shotgun.live") = true
            ∧ e' = <[py "description" := VStr text]> e
            ∧ text ≠ [] ∧ trimmed text ∧ (length text ≤ 1027)%nat)).
Proof.
  intros e' ticket_link. subst e'. unfold enrich_event_descriptions_step.
  fold ticket_link. split.
  - intros Hbad. by rewrite bool_decide_eq_true_2.
  - intros Hgood. rewrite bool_decide_eq_false_2 by done.
    destruct ticket_link as [|[|c link]] eqn:Hlink; try (split; [done|by left]).
    destruct (startswith _ _) eqn:Hstart; [|split; [done|by left]].
    destruct (visit _) as [p|]; [|split; [done|by left]].
    destruct (format_description _ _ _ _ _ _) as [[|f formatted_desc]|] eqn:Hformat;
      try (split; [done|by left]).
    split; [by rewrite lookup_insert_ne|].
    right. exists (c :: link), (f :: formatted_desc).
    apply format_description_shape in Hformat as (Hne & Htrim & Hlen). done.
Qed.

(** X11. [enrich_event_descriptions] keeps the number and the order of
    the records.  A record whose ticket link is the known bad link loses
    that link, which becomes the empty string, and nothing else; any
    other record keeps its ticket link, and changes only if the link
    starts with [https://shotgun.live], and then only by its
    description, which becomes a formatted one. *)
Theorem enrich_event_descriptions_changes (events : list event) :
  let events' := enrich_event_descriptions translate visit events in
  length events' = length events
  ∧ ∀ i e, events !! i = Some e →
      ∃ e', events' !! i = Some e'
        ∧ let ticket_link := get e (py "ticketLink") (VStr []) in
          (ticket_link ∈ VStr <$> bad_links → e' = <[py "ticketLink" := VStr []]> e)
          ∧ (ticket_link ∉ VStr <$> bad_links →
             e' !! py "ticketLink" = e !! py "ticketLink"
             ∧ (e' = e
                ∨ ∃ link text,
                    ticket_link = VStr link
                    ∧ startswith link (py "https://shotgun.live") = true
                    ∧ e' = <[py "description" := VStr text]> e
                    ∧ text ≠ [] ∧ trimmed text ∧ (length text ≤ 1027)%nat)).
Proof.
  intros events'. subst events'. unfold enrich_event_descriptions. split.
  - apply length_fmap.
  - intros i e He. exists (enrich_event_descriptions_step translate visit e).
    split; [by rewrite list_lookup_fmap, He|].
    apply enrich_event_descriptions_step_cases.
Qed.

(** X12. Enrichment never touches the identity of a record: the name,
    the date and the venue name are those of the record before, whichever
    of the three enrichment functions ran, so that two records match
    after their enrichment exactly when they matched before. *)
Theorem enrichment_keeps_identity
    (search_event_on_shotgun : value → value → outcome (value * value))
    (extract_event_info_from_queerparis : str → event) (a b : event) :
  (∀ a' b',
     enrich_event_from_shotgun translate visit search_event_on_shotgun a = Return a' →
     enrich_event_from_shotgun translate visit search_event_on_shotgun b = Return b' →
     same_key a' a ∧ events_match a' b' = events_match a b)
  ∧ (let a' := enrich_event_from_queerparis translate extract_event_info_from_queerparis a in
     let b' := enrich_event_from_queerparis translate extract_event_info_from_queerparis b in
     same_key a' a ∧ events_match a' b' = events_match a b)
  ∧ (let a' := enrich_event_descriptions_step translate visit a in
     let b' := enrich_event_descriptions_step translate visit b in
     same_key a' a ∧ events_match a' b' = events_match a b).
Proof.
  assert (∀ (e e' : event) (keys : list string),
            (∀ k, k ∉ py <$> keys → e' !! k = e !! k) →
            py "name" ∉ py <$> keys → py "date" ∉ py <$> keys →
            py "venueName" ∉ py <$> keys →
            same_key e' e) as Hkey.
  { intros e e' keys Hother H1 H2 H3. split_and!; by apply Hother. }
  assert (∀ e : event,
            same_key (enrich_event_descriptions_step translate visit e) e) as Hstep.
  { intros e. pose proof (enrich_event_descriptions_step_cases e) as [Hbad Hgood].
    cbv zeta in *.
    destruct (decide (get e (py "ticketLink") (VStr []) ∈ VStr <$> bad_links)) as [Hin|Hout].
    - rewrite (Hbad Hin). split_and!; by rewrite lookup_insert_ne.
    - destruct (Hgood Hout) as [_ [->|(link & text & _ & _ & -> & _)]]; [done|].
      split_and!; by rewrite lookup_insert_ne. }
  split_and!.
  - intros a' b' Ha Hb.
    assert (same_key a' a)
      by (eapply Hkey;
          [intros k; by apply (enrich_event_from_shotgun_other _ _ _ _ _ _ Ha)
          |key_outside..]).
    assert (same_key b' b)
      by (eapply Hkey;
          [intros k; by apply (enrich_event_from_shotgun_other _ _ _ _ _ _ Hb)
          |key_outside..]).
    split; [done|]. by apply events_match_same_key.
  - intros a' b'.
    assert (same_key a' a)
      by (eapply Hkey; [apply enrich_event_from_queerparis_other|key_outside..]).
    assert (same_key b' b)
      by (eapply Hkey; [apply enrich_event_from_queerparis_other|key_outside..]).
    split; [done|]. by apply events_match_same_key.
  - intros a' b'. split; [apply Hstep|]. apply events_match_same_key; apply Hstep.
Qed.

End DescriptionsProperties.

(** X9 on a record that has a price and no address, and a detail page
    that gives both: the address is taken, the price is kept. *)
Lemma enrich_event_from_queerparis_fills_witness :
  let e := ev [("name", "BBB"); ("queerParisUrl", "https://queer.paris/e/bbb");
               ("price", "15")] in
  let info := ev [("address", "10 rue de la Roquette, 75011 Paris"); ("price", "20")] in
  let e' := @enrich_event_from_queerparis no_translation (λ _, info) e in
  e' !! py "address" = info !! py "address" ∧ e' !! py "price" = e !! py "price".
Proof.
  intros e info e'.
  destruct (@enrich_event_from_queerparis_fills no_translation (λ _, info) e)
    as (Hkeeps & _ & _ & Hfills & _).
  split.
  - apply (Hfills (py "https://queer.paris/e/bbb") "address").
    + reflexivity.
    + discriminate.
    + apply list_elem_of_here.
    + reflexivity.
    + reflexivity.
  - etrans; [apply (Hkeeps (py "price") (VStr (py "15"))); reflexivity|reflexivity].
Defined.

(** X10 on a search that finds a ticket link and a page that cannot be
    opened: the link replaces the one of the record. *)
Lemma enrich_event_from_shotgun_writes_witness :
  let e := ev [("name", "BBB"); ("ticketLink", "https://example.org/bbb")] in
  let link := VStr (py "https://shotgun.live/fr/events/bbb") in
  let e' := <[py "ticketLink" := link]> e in
  ∃ ticket_link image_url,
    Return (link, VNone) = Return (ticket_link, image_url)
    ∧ e' !! py "ticketLink"
      = (if truthy ticket_link then Some ticket_link else e !! py "ticketLink")
    ∧ e' !! py "imageUrl"
      = (if truthy image_url then Some image_url else e !! py "imageUrl")
    ∧ (e' !! py "description" = e !! py "description"
       ∨ (truthy ticket_link = true
          ∧ ∃ text, e' !! py "description" = Some (VStr text)
                    ∧ text ≠ [] ∧ @trimmed latin1 text ∧ (length text ≤ 1027)%nat))
    ∧ (∀ k, k ∉ py <$> ["ticketLink"; "imageUrl"; "description"] → e' !! k = e !! k).
Proof.
  intros e link e'.
  apply (@enrich_event_from_shotgun_writes latin1 no_translation (λ _, Raise)
           (λ _ _, Return (link, VNone)) e e').
  reflexivity.
Defined.

(** ** The listing of the homepage *)

Section Listing.
Context `{U : Unicode}.

Lemma listed_weaken (today : datetime) (event_urls : list (str * str))
    (lines lines' : list str) (current current' : option str) (e : event) :
  (∀ x, x ∈ lines' → x ∈ lines) →
  (∀ s, current' = Some s →
        current = Some s ∨ (s ∈ lines ∧ is_date_section s = true)) →
  listed today event_urls lines' current' e → listed today event_urls lines current e.
Proof.
  intros Hsub Hcur (line & nl & nnl & section & t & d & H1 & H2 & H3 & Hs & Hrest).
  exists line, nl, nnl, section, t, d. split_and!; auto; try tauto.
  destruct Hs as [Hs|[Hs1 Hs2]]; [by apply Hcur|right; auto].
Qed.

Lemma parse_listing_listed (today : datetime) (event_urls : list (str * str))
    (lines : list str) :
  ∀ current events,
    parse_listing today event_urls current lines = Return events →
    Forall (listed today event_urls lines current) events
    ∧ (3 * length events ≤ length lines)%nat.
Proof.
  cut (∀ n lines, (length lines < n)%nat →
         ∀ current events,
           parse_listing today event_urls current lines = Return events →
           Forall (listed today event_urls lines current) events
           ∧ (3 * length events ≤ length lines)%nat).
  { intros H. apply (H (S (length lines))). lia. }
  clear lines. intros n. induction n as [|n IH]; [lia|].
  intros lines Hn current events.
  destruct lines as [|line rest]; [intros [= <-]; split; [constructor|simpl; lia]|].
  cbn [parse_listing].
  set (current' := if is_date_section line then Some line else current).
  assert (∀ s, current' = Some s →
               current = Some s ∨ (s ∈ line :: rest ∧ is_date_section s = true)) as Hcur.
  { intros s. subst current'. destruct (is_date_section line) eqn:Hd; [|auto].
    intros [= <-]. right. split; [apply list_elem_of_here|done]. }
  assert (∀ events,
            parse_listing today event_urls current' rest = Return events →
            Forall (listed today event_urls (line :: rest) current) events
            ∧ (3 * length events ≤ length (line :: rest))%nat) as Hskip.
  { intros evs Hevs.
    destruct (IH rest ltac:(simpl in Hn; lia) _ _ Hevs) as [Hall Hlen].
    split; [|simpl; lia].
    eapply Forall_impl; [exact Hall|]. intros e.
    apply listed_weaken; [|done]. intros x Hx. by apply list_elem_of_further. }
  clearbody current'.
  destruct (any_in line_skip_keywords (lower line)) eqn:Hkw; [apply Hskip|].
  destruct current' as [[|c section]|]; [apply Hskip| |apply Hskip].
  destruct rest as [|next_line [|next_next_line rest']]; [apply Hskip..|].
  destruct (search_time next_line) as [time_str|] eqn:Htime; [|apply Hskip].
  destruct (3 <? length line)%nat eqn:Hlen; [|apply Hskip].
  destruct (parse_date_from_section today (c :: section)) as [event_date|] eqn:Hdate;
    [|done].
  destruct (parse_listing today event_urls (Some (c :: section)) rest')
    as [evs|] eqn:Hevs; [|done].
  intros [= <-].
  destruct (IH rest' ltac:(simpl in Hn; lia) _ _ Hevs) as [Hall Hlen'].
  split; [|simpl in *; lia].
  constructor.
  - exists line, next_line, next_next_line, (c :: section), time_str, event_date.
    apply Nat.ltb_lt in Hlen.
    split_and!; try done.
    + apply list_elem_of_here.
    + apply list_elem_of_further, list_elem_of_here.
    + do 2 apply list_elem_of_further. apply list_elem_of_here.
    + by apply Hcur.
  - eapply Forall_impl; [exact Hall|]. intros e.
    apply listed_weaken; [|done].
    intros x Hx. by do 3 apply list_elem_of_further.
Qed.

Lemma match_time_clock (s t : str) : match_time s = Some t → clock_time t.
Proof.
  unfold match_time, clock_time.
  repeat match goal with
         | |- context [match ?x with _ => _ end] => is_var x; destruct x
         | |- context [if ?b then _ else _] => destruct b eqn:?
         end; intros [= <-];
    repeat match goal with
           | H : _ && _ = true |- _ => apply andb_true_iff in H as [? ?]
           end; eauto 15.
Qed.

Lemma search_time_clock (s t : str) : search_time s = Some t → clock_time t.
Proof.
  induction s as [|c s IH]; cbn [search_time].
  - destruct (match_time []) eqn:Hm; [|done]. intros [= <-]. by eapply match_time_clock.
  - destruct (match_time (c :: s)) eqn:Hm; [|done].
    intros [= <-]. by eapply match_time_clock.
Qed.

End Listing.

Section ListingShape.
Context `{U : Unicode}.

Lemma listed_event_lookup (event_name time_str : str) (venue event_date event_url : value) :
  let e := listed_event event_name time_str venue event_date event_url in
  e !! py "name" = Some (VStr event_name)
  ∧ e !! py "time" = Some (VStr time_str)
  ∧ e !! py "venueName" = Some venue
  ∧ e !! py "date" = Some event_date
  ∧ e !! py "queerParisUrl" = Some event_url
  ∧ e !! py "source" = Some (VStr (py "queer.paris"))
  ∧ ∀ k, is_Some (e !! k) ↔ k ∈ py <$> listing_keys.
Proof.
  intros e. subst e. unfold listed_event.
  split_and!; try reflexivity.
  intros k. rewrite <- elem_of_dom, dom_list_to_map_L, elem_of_list_to_set.
  reflexivity.
Qed.

Lemma venue_of_shape (next_next_line : str) :
  venue_of next_next_line = VNone
  ∨ ∃ venue, venue_of next_next_line = VStr venue ∧ trimmed venue ∧ (3 ≤ length venue)%nat.
Proof.
  unfold venue_of. destruct next_next_line as [|c l]; [by left|].
  destruct (contains _ _); [|by left]. cbv zeta.
  destruct (bool_decide _) eqn:Hne; simpl; [by left|].
  destruct (_ <? 3)%nat eqn:Hlen; [by left|]. right.
  apply bool_decide_eq_false in Hne. apply Nat.ltb_ge in Hlen.
  eexists. split; [done|]. split; [by apply strip_trimmed|done].
Qed.

Lemma url_get_in (event_urls : list (str * str)) (event_name url : str) :
  url_get event_urls event_name = Some url → (event_name, url) ∈ event_urls.
Proof.
  induction event_urls as [|[name u] urls IH]; simpl; [done|].
  case_bool_decide as Heq.
  - intros [= <-]. subst. apply list_elem_of_here.
  - intros H. apply list_elem_of_further. by apply IH.
Qed.

Lemma url_fuzzy_in (event_urls : list (str * str)) (event_name url : str) :
  url_fuzzy event_urls event_name = Some url →
  ∃ name, (name, url) ∈ event_urls
          ∧ (contains (lower event_name) (lower name) = true
             ∨ contains (lower name) (lower event_name) = true).
Proof.
  induction event_urls as [|[name u] urls IH]; simpl; [done|].
  destruct (_ || _) eqn:Hc.
  - intros [= <-]. exists name. split; [apply list_elem_of_here|].
    by apply orb_true_iff in Hc.
  - intros H. destruct (IH H) as (name' & Hin & Hm). exists name'.
    split; [by apply list_elem_of_further|done].
Qed.

Lemma url_of_in (event_urls : list (str * str)) (event_name : str) :
  url_of event_urls event_name = VNone
  ∨ ∃ name url, url_of event_urls event_name = VStr url ∧ (name, url) ∈ event_urls
                ∧ (name = event_name
                   ∨ contains (lower event_name) (lower name) = true
                   ∨ contains (lower name) (lower event_name) = true).
Proof.
  unfold url_of.
  destruct (url_get event_urls event_name) as [[|c url]|] eqn:Hget.
  - destruct (url_fuzzy event_urls event_name) as [url|] eqn:Hfuzzy.
    + right. apply url_fuzzy_in in Hfuzzy as (name & Hin & Hm).
      exists name, url. auto.
    + right. apply url_get_in in Hget. exists event_name, []. auto.
  - right. apply url_get_in in Hget. exists event_name, (c :: url). auto.
  - destruct (url_fuzzy event_urls event_name) as [url|] eqn:Hfuzzy; [|by left].
    right. apply url_fuzzy_in in Hfuzzy as (name & Hin & Hm).
    exists name, url. auto.
Qed.

Lemma add_event_url_from_link (links : list link) (event_urls : list (str * str)) (l : link) :
  l ∈ links → Forall (from_link links) event_urls → NoDup event_urls.*1 →
  Forall (from_link links) (add_event_url event_urls l)
  ∧ NoDup (add_event_url event_urls l).*1.
Proof.
  intros Hl Hall Hnd. unfold add_event_url.
  destruct (link_href l) as [|[|c href]] eqn:Hhref; try done.
  cbv zeta.
  destruct (bool_decide (strip (link_text l) = [])) eqn:Hne; cbn [orb]; [done|].
  destruct (_ <? 3)%nat eqn:Hlen; [done|].
  destruct (any_in link_skip_keywords _) eqn:Hkw; [done|].
  destruct (contains (py "queer.paris") _) eqn:Hqp; [|done].
  destruct (bool_decide (_ ∈ _)) eqn:Hin; [done|].
  apply bool_decide_eq_false in Hin.
  split.
  - apply Forall_app. split; [done|]. constructor; [|constructor].
    exists l, (c :: href). apply Nat.ltb_ge in Hlen. split_and!; done.
  - rewrite fmap_app. apply NoDup_app. split_and!; [done| |].
    + intros x Hx ->%list_elem_of_singleton. done.
    + apply NoDup_singleton.
Qed.

Lemma collect_event_urls_from_link (links : list link) :
  Forall (from_link links) (collect_event_urls links)
  ∧ NoDup (collect_event_urls links).*1.
Proof.
  unfold collect_event_urls.
  cut (∀ seen, (∀ l, l ∈ seen → l ∈ links) →
               Forall (from_link links) (foldl add_event_url [] seen)
               ∧ NoDup (foldl add_event_url [] seen).*1).
  { intros H. by apply H. }
  intros seen. induction seen as [|l seen IH] using rev_ind; intros Hsub.
  - split; [constructor|apply NoDup_nil_2].
  - rewrite foldl_app. simpl.
    destruct IH as [Hall Hnd]; [intros x Hx; apply Hsub; set_solver|].
    apply add_event_url_from_link; [apply Hsub; set_solver|done..].
Qed.

Lemma full_url_http (href : str) : startswith (full_url href) (py "http") = true.
Proof.
  unfold full_url. destruct (startswith href (py "http")) eqn:Hh; cbn [negb]; [done|].
  destruct (startswith href (py "/")); reflexivity.
Qed.

Lemma stripped_lines_trimmed (text line : str) :
  line ∈ stripped_lines text → trimmed line.
Proof.
  unfold stripped_lines. intros [Hne Hin]%list_elem_of_filter.
  apply list_elem_of_fmap in Hin as (raw & -> & _). by apply strip_trimmed.
Qed.

(** The events of the listing, one by one. *)
Lemma extract_events_listed (today : datetime) (p : homepage) :
  let events := extract_events_from_queerparis_homepage today p in
  Forall (listed today (collect_event_urls (all_links p))
            (stripped_lines (all_text p)) None) events
  ∧ (3 * length events ≤ length (stripped_lines (all_text p)))%nat.
Proof.
  intros events. subst events. unfold extract_events_from_queerparis_homepage.
  destruct (parse_listing _ _ _ _) as [events|] eqn:Hparse.
  - by apply parse_listing_listed.
  - split; [constructor|simpl; lia].
Qed.

End ListingShape.

Section ListingProperties.
Context `{U : Unicode}.

(** X13. Every event of the listing has exactly the six attributes
    name, time, venueName, date, queerParisUrl and source; the source is
    [queer.paris]; the name is a line of the page, without white space
    around it, of more than three characters and free of the keywords
    that mark a line as not an event; the time has the form [H:MM] or
    [HH:MM]; the venue name is [None] or a text without white space
    around it of at least three characters. *)
Theorem listed_events_shape (today : datetime) (p : homepage) (e : event) :
  e ∈ extract_events_from_queerparis_homepage today p →
  ∃ event_name time_str venue event_date event_url,
    e = listed_event event_name time_str venue event_date event_url
    ∧ (∀ k, is_Some (e !! k) ↔ k ∈ py <$> listing_keys)
    ∧ e !! py "source" = Some (VStr (py "queer.paris"))
    ∧ event_name ∈ stripped_lines (all_text p)
    ∧ trimmed event_name ∧ (3 < length event_name)%nat
    ∧ any_in line_skip_keywords (lower event_name) = false
    ∧ clock_time time_str
    ∧ (venue = VNone ∨ ∃ v, venue = VStr v ∧ trimmed v ∧ (3 ≤ length v)%nat).
Proof.
  intros He. destruct (extract_events_listed today p) as [Hall _].
  rewrite Forall_forall in Hall.
  destruct (Hall e He)
    as (line & nl & nnl & section & t & d & H1 & H2 & H3 & Hs & Hne & Hkw & Hlen & Ht & Hd & ->).
  eexists line, t, _, _, _. split; [reflexivity|].
  pose proof (listed_event_lookup line t (venue_of nnl) (from_option VStr VNone d)
                (url_of (collect_event_urls (all_links p)) line)) as Hlook.
  cbv zeta in Hlook. destruct Hlook as (_ & _ & _ & _ & _ & Hsource & Hkeys).
  split_and!; try done.
  - by eapply stripped_lines_trimmed.
  - by eapply search_time_clock.
  - apply venue_of_shape.
Qed.

(** X14. The link of an event of the listing is [None] or the full URL
    of a link of the page: it starts with [http], it holds
    [queer.paris], and the text of the link, stripped, is the name of the
    event, or one holds the other once both are lowered. *)
Theorem listed_events_url (today : datetime) (p : homepage) (e : event) :
  e ∈ extract_events_from_queerparis_homepage today p →
  e !! py "queerParisUrl" = Some VNone
  ∨ ∃ url event_name l href,
      e !! py "queerParisUrl" = Some (VStr url)
      ∧ e !! py "name" = Some (VStr event_name)
      ∧ l ∈ all_links p ∧ link_href l = VStr href ∧ href ≠ []
      ∧ url = full_url href
      ∧ startswith url (py "http") = true
      ∧ contains (py "queer.paris") url = true
      ∧ (strip (link_text l) = event_name
         ∨ contains (lower event_name) (lower (strip (link_text l))) = true
         ∨ contains (lower (strip (link_text l))) (lower event_name) = true).
Proof.
  intros He. destruct (extract_events_listed today p) as [Hall _].
  rewrite Forall_forall in Hall.
  destruct (Hall e He)
    as (line & nl & nnl & section & t & d & H1 & H2 & H3 & Hs & Hne & Hkw & Hlen & Ht & Hd & ->).
  pose proof (listed_event_lookup line t (venue_of nnl) (from_option VStr VNone d)
                (url_of (collect_event_urls (all_links p)) line)) as Hlook.
  cbv zeta in Hlook. destruct Hlook as (Hname & _ & _ & _ & Hurl & _).
  rewrite Hurl, Hname.
  destruct (url_of_in (collect_event_urls (all_links p)) line)
    as [->|(name & url & -> & Hin & Hmatch)]; [by left|right].
  destruct (collect_event_urls_from_link (all_links p)) as [Hfrom _].
  rewrite Forall_forall in Hfrom.
  destruct (Hfrom _ Hin) as (l & href & Hl & Hhref & Hnonempty & Htext & _ & _ & Hfull & Hqp).
  simpl in Htext, Hfull, Hqp. subst name url.
  exists (full_url href), line, l, href.
  split_and!; try done. apply full_url_http.
Qed.

Lemma parse_date_Some_nonempty (today : datetime) (s text : str) :
  parse_date_from_section today s = Return (Some text) → text ≠ [].
Proof.
  unfold parse_date_from_section. destruct s as [|c s]; [done|].
  repeat match goal with
         | |- context [if ?b then _ else _] => destruct b
         | |- context [match ?x with _ => _ end] => destruct x
         end; try done; by intros [= <-].
Qed.

(** X15. The date of an event of the listing is [None] or the date the
    header of a section of the page parses to, a line that one of the
    two date patterns matches; for a valid date of today it is a day of
    the calendar, today or later and less than a year ahead. *)
Theorem listed_events_date (today : datetime) (p : homepage) (e : event) :
  valid_date today →
  e ∈ extract_events_from_queerparis_homepage today p →
  e !! py "date" = Some VNone
  ∨ ∃ section text t,
      e !! py "date" = Some (VStr text)
      ∧ section ∈ stripped_lines (all_text p)
      ∧ is_date_section section = true
      ∧ parse_date_from_section today section = Return (Some text)
      ∧ text = strftime_ymd t ∧ valid_date t ∧ date_le today t
      ∧ date_lt t {| year := year today + 1; month := month today; day := day today |}.
Proof.
  intros Hvalid He. destruct (extract_events_listed today p) as [Hall _].
  rewrite Forall_forall in Hall.
  destruct (Hall e He)
    as (line & nl & nnl & section & t & d & H1 & H2 & H3 & Hs & Hne & Hkw & Hlen & Ht & Hd & ->).
  pose proof (listed_event_lookup line t (venue_of nnl) (from_option VStr VNone d)
                (url_of (collect_event_urls (all_links p)) line)) as Hlook.
  cbv zeta in Hlook. destruct Hlook as (_ & _ & _ & Hdate & _).
  rewrite Hdate. destruct d as [text|]; [right|by left].
  destruct Hs as [?|[Hin Hsec]]; [done|].
  destruct (parse_date_range today section text Hvalid Hd)
    as (t' & -> & _ & Hv & Hle & Hlt).
  by exists section, (strftime_ymd t'), t'.
Qed.

(** X16. An event takes three lines of the page and a date section
    above it: the listing has at most a third as many events as the page
    has lines that are not blank, and none when no line is the header of
    a date section. *)
Theorem listing_needs_date_section (today : datetime) (p : homepage) :
  let events := extract_events_from_queerparis_homepage today p in
  let lines := stripped_lines (all_text p) in
  (3 * length events ≤ length lines)%nat
  ∧ (Forall (λ line, is_date_section line = false) lines → events = []).
Proof.
  intros events lines. destruct (extract_events_listed today p) as [Hall Hlen].
  fold events lines in Hall, Hlen. split; [done|].
  intros Hnone. destruct events as [|e events']; [done|].
  apply Forall_cons in Hall as [He _].
  destruct He as (_ & _ & _ & section & _ & _ & _ & _ & _ & Hs & _).
  destruct Hs as [?|[Hin Hsec]]; [done|].
  rewrite Forall_forall in Hnone. rewrite (Hnone _ Hin) in Hsec. done.
Qed.

(** X17. What the merge can do with an event of the listing.  An event
    without date and without venue name matches no record and no record
    matches it, itself included; an event with a date is its own
    duplicate as soon as its name is not empty after normalization. *)
Theorem listed_events_identity (today : datetime) (p : homepage) (e : event) :
  e ∈ extract_events_from_queerparis_homepage today p →
  (e !! py "date" = Some VNone → e !! py "venueName" = Some VNone →
   ∀ x, events_match e x = false ∧ events_match x e = false)
  ∧ (e !! py "date" ≠ Some VNone → normalized e "name" ≠ [] →
     events_match e e = true).
Proof.
  intros He. split.
  - intros Hdate Hvenue x. unfold events_match, get. rewrite Hdate, Hvenue. simpl.
    split.
    + first [done|apply andb_false_r].
    + unfold both_set_and_equal. rewrite ?andb_false_r. simpl.
      first [done|apply andb_false_r].
  - intros Hdate Hname.
    destruct (extract_events_listed today p) as [Hall _].
    rewrite Forall_forall in Hall.
    destruct (Hall e He)
      as (line & nl & nnl & section & t & d & H1 & H2 & H3 & Hs & Hne & Hkw & Hlen & Ht & Hd & ->).
    pose proof (listed_event_lookup line t (venue_of nnl) (from_option VStr VNone d)
                  (url_of (collect_event_urls (all_links p)) line)) as Hlook.
    cbv zeta in Hlook. destruct Hlook as (_ & _ & _ & Hlookup & _).
    rewrite Hlookup in Hdate. destruct d as [text|]; [|done]. simpl in Hlookup.
    apply parse_date_Some_nonempty in Hd.
    unfold events_match. cbv zeta.
    rewrite name_match_refl by done. simpl.
    apply orb_true_iff. left. apply both_set_and_equal_true.
    unfold get. rewrite Hlookup. simpl. by destruct text.
Qed.

End ListingProperties.

(** X13 on the page of one event. *)
Lemma listed_events_shape_witness :
  ∃ event_name time_str venue event_date event_url,
    bbb_event = listed_event event_name time_str venue event_date event_url
    ∧ (∀ k, is_Some (bbb_event !! k) ↔ k ∈ py <$> listing_keys)
    ∧ bbb_event !! py "source" = Some (VStr (py "queer.paris"))
    ∧ event_name ∈ @stripped_lines latin1 (all_text bbb_homepage)
    ∧ @trimmed latin1 event_name ∧ (3 < length event_name)%nat
    ∧ any_in line_skip_keywords (@lower latin1 event_name) = false
    ∧ @clock_time latin1 time_str
    ∧ (venue = VNone ∨ ∃ v, venue = VStr v ∧ @trimmed latin1 v ∧ (3 ≤ length v)%nat).
Proof.
  apply (@listed_events_shape latin1 nov_19 bbb_homepage bbb_event).
  vm_compute. apply list_elem_of_here.
Defined.

(** X14 on the page of one event. *)
Lemma listed_events_url_witness :
  bbb_event !! py "queerParisUrl" = Some VNone
  ∨ ∃ url event_name l href,
      bbb_event !! py "queerParisUrl" = Some (VStr url)
      ∧ bbb_event !! py "name" = Some (VStr event_name)
      ∧ l ∈ all_links bbb_homepage ∧ link_href l = VStr href ∧ href ≠ []
      ∧ url = full_url href
      ∧ startswith url (py "http") = true
      ∧ contains (py "queer.paris") url = true
      ∧ (@strip latin1 (link_text l) = event_name
         ∨ contains (@lower latin1 event_name) (@lower latin1 (@strip latin1 (link_text l))) = true
         ∨ contains (@lower latin1 (@strip latin1 (link_text l))) (@lower latin1 event_name) = true).
Proof.
  apply (@listed_events_url latin1 nov_19 bbb_homepage bbb_event).
  vm_compute. apply list_elem_of_here.
Defined.

(** X15 on the page of one event. *)
Lemma listed_events_date_witness :
  bbb_event !! py "date" = Some VNone
  ∨ ∃ section text t,
      bbb_event !! py "date" = Some (VStr text)
      ∧ section ∈ @stripped_lines latin1 (all_text bbb_homepage)
      ∧ @is_date_section latin1 section = true
      ∧ @parse_date_from_section latin1 nov_19 section = Return (Some text)
      ∧ text = strftime_ymd t ∧ valid_date t ∧ date_le nov_19 t
      ∧ date_lt t {| year := year nov_19 + 1; month := month nov_19; day := day nov_19 |}.
Proof.
  apply (@listed_events_date latin1 nov_19 bbb_homepage bbb_event).
  - reflexivity.
  - vm_compute. apply list_elem_of_here.
Defined.

(** X17 on the page of one event: the event is its own duplicate. *)
Lemma listed_events_identity_witness :
  @events_match latin1 bbb_event bbb_event = true.
Proof.
  destruct (@listed_events_identity latin1 nov_19 bbb_homepage bbb_event) as [_ Hself].
  - vm_compute. apply list_elem_of_here.
  - apply Hself; vm_compute; discriminate.
Defined.

(** X2 on a catalog of one record, a batch of one duplicate of it and a
    third dictionary that takes no part in the merge. *)
Lemma merge_events_frame_witness :
  let h := objects
    [ev [("name", "BBB"); ("date", "2025-11-23")];
     ev [("name", "bbb party"); ("date", "2025-11-23"); ("price", "15")];
     ev [("name", "bbb"); ("date", "2025-11-23"); ("price", "20")]] in
  (@merge_events latin1 h [0%nat] [1%nat]).1 2%nat = h 2%nat.
Proof.
  intros h.
  apply (@merge_events_frame latin1 h [0%nat] [1%nat] 2%nat).
  replace (@merge_events latin1 h [0%nat] [1%nat]).2 with [0%nat]
    by (vm_compute; reflexivity).
  intros Hin. apply list_elem_of_singleton in Hin. discriminate.
Defined.

(** ** The lengths of the extracted descriptions *)

Lemma split_on_go_join (sep : N) (cur s : str) :
  join [sep] (split_on_go sep cur s) = reverse cur ++ s.
Proof.
  revert cur. induction s as [|c s IH]; intros cur; simpl.
  - by rewrite app_nil_r.
  - destruct (c =? sep) eqn:Hc.
    + apply N.eqb_eq in Hc as ->.
      specialize (IH []). simpl in IH.
      destruct (split_on_go sep [] s) as [|piece pieces] eqn:Hs.
      * by destruct s; simpl in Hs; [|destruct (_ =? _)].
      * change (join [sep] (reverse cur :: piece :: pieces))
          with (reverse cur ++ [sep] ++ join [sep] (piece :: pieces)).
        by rewrite IH.
    + rewrite IH, reverse_cons, <- app_assoc. done.
Qed.

(** [sep.join(s.split(sep)) == s] *)
Lemma join_split_on (sep : N) (s : str) : join [sep] (split_on sep s) = s.
Proof. apply split_on_go_join. Qed.

Lemma join_cons_length (sep p : str) (pieces : list str) :
  (length (join sep pieces) ≤ length (join sep (p :: pieces)))%nat
  ∧ (length p ≤ length (join sep (p :: pieces)))%nat.
Proof.
  destruct pieces as [|q pieces]; [simpl; lia|].
  change (join sep (p :: q :: pieces)) with (p ++ sep ++ join sep (q :: pieces)).
  rewrite !length_app. lia.
Qed.

Lemma join_suffix_length (sep : str) (l1 l2 : list str) :
  l1 `suffix_of` l2 → (length (join sep l1) ≤ length (join sep l2))%nat.
Proof.
  intros [k ->]. induction k as [|p k IH]; [done|].
  destruct (join_cons_length sep p (k ++ l1)) as [H _].
  rewrite <- app_comm_cons. lia.
Qed.

Lemma join_elem_length (sep : str) (pieces : list str) (p : str) :
  p ∈ pieces → (length p ≤ length (join sep pieces))%nat.
Proof.
  induction pieces as [|q pieces IH]; [by intros ?%elem_of_nil|].
  destruct (join_cons_length sep q pieces) as [H1 H2].
  intros [->|Hin]%elem_of_cons; [done|]. specialize (IH Hin). lia.
Qed.

(** Joining at most three pieces of at most [n] characters with one
    space. *)
Lemma join_three_length (pieces : list str) (n : nat) :
  Forall (λ p, (length p ≤ n)%nat) pieces → (length pieces ≤ 3)%nat →
  (length (join (py " ") pieces) ≤ 3 * n + 2)%nat.
Proof.
  intros Hall Hlen. change (py " ") with [32].
  destruct pieces as [|p1 [|p2 [|p3 [|p4 pieces]]]]; simpl in Hlen; [..|lia];
    rewrite ?Forall_cons in Hall; cbn [join];
    rewrite ?length_app; simpl; lia.
Qed.

Section ExtractionLengths.
Context `{U : Unicode}.

Lemma stripped_lines_length (text line : str) :
  line ∈ stripped_lines text → (length line ≤ length text)%nat.
Proof.
  unfold stripped_lines. intros [_ Hin]%list_elem_of_filter.
  apply list_elem_of_fmap in Hin as (raw & -> & Hraw).
  pose proof (join_elem_length [10] _ _ Hraw) as Hlen.
  rewrite join_split_on in Hlen.
  pose proof (strip_length raw). lia.
Qed.

Lemma drop_separators_suffix (s : str) : drop_separators s `suffix_of` s.
Proof.
  induction s as [|c s IH]; simpl; [done|].
  destruct (is_separator c); [by apply suffix_cons_r|done].
Qed.

Lemma drop_separators_head (s : str) (c : N) :
  head (drop_separators s) = Some c → is_space c = false.
Proof.
  induction s as [|a s IH]; simpl; [done|].
  destruct (is_separator a) eqn:Ha; [done|].
  simpl. intros [= <-]. unfold is_separator in Ha.
  by apply orb_false_iff in Ha as [_ ?].
Qed.

Lemma remove_heading_suffix (labels : list str) (s : str) :
  remove_heading labels s `suffix_of` s.
Proof.
  induction labels as [|label labels IH]; simpl; [done|].
  destruct (ci_startswith s label); [|done].
  etrans; [apply drop_separators_suffix|apply suffix_drop].
Qed.

(** Removing a heading from a text without white space around it leaves
    such a text, or nothing. *)
Lemma remove_heading_trimmed (labels : list str) (s : str) :
  trimmed s → remove_heading labels s ≠ [] → trimmed (remove_heading labels s).
Proof.
  intros Hs Hne.
  assert (remove_heading labels s = s
          ∨ ∃ n, remove_heading labels s = drop_separators (drop n s)) as Hcases.
  { clear. induction labels as [|label labels IH]; simpl; [by left|].
    destruct (ci_startswith s label); [right; eauto|]. apply IH. }
  destruct Hcases as [->|[n Hn]]; [done|].
  split.
  - rewrite Hn in *. destruct (drop_separators (drop n s)) as [|c r] eqn:Hd; [done|].
    exists c. split; [done|]. apply (drop_separators_head (drop n s)). by rewrite Hd.
  - destruct Hs as [_ (d & Hd & Hsd)]. exists d. split; [|done].
    destruct (remove_heading_suffix labels s) as [k Hk].
    rewrite Hk in Hd. rewrite last_app in Hd.
    by destruct (last (remove_heading labels s)) eqn:Hl;
      [|apply last_None in Hl].
Qed.

Lemma labelled_section_length (patterns : list (str * bool)) (all_text text : str) :
  labelled_section patterns all_text = Some text →
  trimmed text ∧ (200 < length text)%nat.
Proof.
  induction patterns as [|pattern patterns IH]; cbn [labelled_section]; [done|].
  destruct (search_description pattern all_text) as [group1|]; [|done].
  cbv zeta. set (extracted := remove_heading [py "description"] _).
  destruct (200 <? length extracted)%nat eqn:Hlen; [|done].
  intros [= <-]. apply Nat.ltb_lt in Hlen.
  assert (trimmed extracted) as Htrim.
  { subst extracted. unfold remove_a_propos in *.
    set (s0 := strip group1) in *.
    set (s1 := remove_heading [a_propos; py "a propos"] s0) in *.
    set (s2 := remove_heading [py "about"] s1) in *.
    assert (∀ labels s, (length s ≤ length (remove_heading labels s))%nat →
                        remove_heading labels s = s) as Hsame.
    { intros labels s Hle. destruct (remove_heading_suffix labels s) as [k Hk].
      rewrite Hk in Hle at 1. rewrite length_app in Hle.
      destruct k; [done|simpl in Hle; lia]. }
    assert (s2 ≠ []) as H2.
    { intros Heq. pose proof (suffix_length _ _ (remove_heading_suffix [py "description"] s2)).
      rewrite Heq in *. simpl in *. lia. }
    assert (s1 ≠ []) as H1.
    { intros Heq. apply H2. subst s2. rewrite Heq.
      pose proof (suffix_length _ _ (remove_heading_suffix [py "about"] [])) as Hl.
      destruct (remove_heading [py "about"] []); [done|simpl in Hl; lia]. }
    assert (s0 ≠ []) as H0.
    { intros Heq. apply H1. subst s1. rewrite Heq.
      pose proof (suffix_length _ _ (remove_heading_suffix [a_propos; py "a propos"] [])) as Hl.
      destruct (remove_heading [a_propos; py "a propos"] []); [done|simpl in Hl; lia]. }
    apply remove_heading_trimmed; [|intros Heq; rewrite Heq in Hlen; simpl in Hlen; lia].
    apply remove_heading_trimmed; [|done].
    apply remove_heading_trimmed; [|done].
    by apply strip_trimmed. }
  rewrite (strip_id _ Htrim). done.
Qed.

Lemma about_start_suffix (lines after : list str) :
  about_start lines = Some after → after `suffix_of` lines.
Proof.
  induction lines as [|line rest IH]; simpl; [done|].
  destruct (_ && _).
  - intros [= <-]. by apply suffix_cons_r.
  - intros H. by apply suffix_cons_r, IH.
Qed.

Lemma extracted_lines_Return (lines collected : list str) :
  extracted_lines lines = Return collected → collected = lines.
Proof.
  revert collected. induction lines as [|line rest IH]; intros collected; simpl.
  - by intros [= <-].
  - destruct (_ && _); [done|].
    destruct (extracted_lines rest) as [c|]; [|done].
    intros [= <-]. by rewrite (IH c).
Qed.

Lemma description_of_div_length (content text : str) :
  description_of_div content = Return text → (length text ≤ length content)%nat.
Proof.
  unfold description_of_div.
  pose proof (strip_length content) as Hstrip.
  destruct (about_start _) as [after|] eqn:Hafter; [|by intros [= <-]].
  destruct (extracted_lines after) as [collected|] eqn:Hcollected; [|done].
  apply extracted_lines_Return in Hcollected as ->.
  apply about_start_suffix in Hafter.
  destruct after as [|l rest]; [by intros [= <-]|].
  cbv zeta. set (result := remove_a_propos _).
  assert (length (strip result) ≤ length content)%nat as Hresult.
  { pose proof (join_suffix_length [10] _ _ Hafter) as Hjoin.
    rewrite join_split_on in Hjoin.
    pose proof (strip_length result).
    pose proof (suffix_length _ _ (remove_heading_suffix [a_propos; py "a propos"]
                                     (strip (join [10] (l :: rest))))).
    pose proof (strip_length (join [10] (l :: rest))).
    subst result. unfold remove_a_propos in *. lia. }
  clearbody result.
  destruct (_ <? _)%nat; intros [= <-]; lia.
Qed.

Lemma section_description_length (section : element) (text : str) :
  section_description section = Some text → (50 < length text ≤ 2999)%nat.
Proof.
  unfold section_description. cbv zeta.
  destruct (_ && _) eqn:Hok; [|done].
  pose proof (first_three_Forall section_line_ok
                (stripped_lines (strip (inner_text section)))) as Hall.
  assert (length (first_three section_line_ok
                    (stripped_lines (strip (inner_text section)))) ≤ 3)%nat as Hthree.
  { unfold first_three. rewrite length_take. lia. }
  destruct (first_three _ _) as [|l ls] eqn:Hls; [done|].
  destruct (50 <? _)%nat eqn:Hlen; [|done].
  intros Heq. apply (inj Some) in Heq. subst text.
  apply Nat.ltb_lt in Hlen. split; [done|].
  cut (length (join (py " ") (l :: ls)) ≤ 3 * 999 + 2)%nat; [lia|].
  apply join_three_length; [|done].
  eapply Forall_impl; [exact Hall|]. intros line [Hin _].
  apply stripped_lines_length in Hin.
  repeat (apply andb_true_iff in Hok as [Hok ?]).
  match goal with H : (_ <? 1000)%nat = true |- _ => apply Nat.ltb_lt in H end.
  lia.
Qed.

Lemma paragraphs_description_length (p : page) (text : str) :
  paragraphs_description p = Some text → (80 < length text ≤ 1499)%nat.
Proof.
  unfold paragraphs_description.
  destruct (query_selector p SelMain) as [main_content|]; [|done].
  set (texts := filter _ _).
  assert (Forall (λ t, (length t ≤ 499)%nat) texts) as Hall.
  { apply Forall_forall. intros t [Hok _]%list_elem_of_filter.
    unfold paragraph_ok in Hok.
    repeat (apply andb_true_iff in Hok as [Hok ?]).
    match goal with H : (_ <? 500)%nat = true |- _ => apply Nat.ltb_lt in H end.
    lia. }
  destruct texts as [|t ts] eqn:Htexts; [done|]. cbv zeta.
  destruct (80 <? _)%nat eqn:Hlen; [|done].
  intros Heq. apply (inj Some) in Heq. subst text.
  apply Nat.ltb_lt in Hlen. split; [done|].
  cut (length (join (py " ") (take 3 (t :: ts))) ≤ 3 * 499 + 2)%nat; [lia|].
  apply join_three_length; [by apply Forall_take|].
  rewrite length_take. lia.
Qed.

Lemma lines_description_length (p : page) (text : str) :
  lines_description p = Some text → (80 < length text ≤ 1199)%nat.
Proof.
  unfold lines_description.
  destruct (query_selector p SelMainOrEvent) as [main_content|]; [|done].
  pose proof (first_three_Forall line_qualifies (stripped_lines (inner_text main_content)))
    as Hall.
  assert (length (first_three line_qualifies
                    (stripped_lines (inner_text main_content))) ≤ 3)%nat as Hthree.
  { unfold first_three. rewrite length_take. lia. }
  destruct (first_three _ _) as [|l ls] eqn:Hls; [done|]. cbv zeta.
  destruct (80 <? _)%nat eqn:Hlen; [|done].
  intros Heq. apply (inj Some) in Heq. subst text.
  apply Nat.ltb_lt in Hlen. split; [done|].
  cut (length (join (py " ") (l :: ls)) ≤ 3 * 399 + 2)%nat; [lia|].
  apply join_three_length; [|done].
  eapply Forall_impl; [exact Hall|]. intros line [_ Hok].
  unfold line_qualifies in Hok. cbv zeta in Hok.
  repeat (apply andb_true_iff in Hok as [Hok ?]).
  match goal with H : (_ <? 400)%nat = true |- _ => apply Nat.ltb_lt in H end.
  lia.
Qed.

Lemma structured_description_length (p : page) (text : str) :
  structured_description p = Some text → (50 < length text)%nat.
Proof.
  assert (∀ object, long_description object = Some text → (50 < length text)%nat) as Hlong.
  { intros object. unfold long_description.
    destruct (description object) as [desc|]; [|done].
    destruct (50 <? _)%nat eqn:Hlen; [|done]. intros [= <-]. by apply Nat.ltb_lt. }
  unfold structured_description.
  intros (data & _ & Hdata)%first_some_Some.
  destruct data as [[object|items|]|]; simpl in Hdata; try done.
  - by eapply Hlong.
  - apply first_some_Some in Hdata as (item & _ & Hitem).
    destruct item as [object|]; simpl in Hitem; [|done].
    destruct (bool_decide _); [|done]. by eapply Hlong.
Qed.

(** X18. The lengths of what the cascade returns, by the strategy that
    produced it: more than 200 characters and no white space around them
    for a labelled section of the page text; fewer than 10000 for the
    best [div]; more than 50 for structured data; more than 80 and fewer
    than 2000 for an element with a description-like class; more than 50
    and at most 2999 for a section; more than 80 and at most 1499 for
    the paragraphs; more than 80 and at most 1199 for the line scan. *)
Theorem extract_description_lengths (p : page) (text : str) :
  extract_description_from_page p = Some text →
  (labelled_section description_patterns (body_text p) = Some text
   ∧ trimmed text ∧ (200 < length text)%nat)
  ∨ (best_div p = Return (Some text) ∧ N.of_nat (length text) < 10000)
  ∨ (structured_description p = Some text ∧ (50 < length text)%nat)
  ∨ (selected_description p = Some text ∧ (80 < length text < 2000)%nat)
  ∨ (sections_description p = Some text ∧ (50 < length text ≤ 2999)%nat)
  ∨ (paragraphs_description p = Some text ∧ (80 < length text ≤ 1499)%nat)
  ∨ (lines_description p = Some text ∧ (80 < length text ≤ 1199)%nat).
Proof.
  unfold extract_description_from_page.
  destruct (labelled_section _ _) as [t|] eqn:Hlabel.
  { intros [= ->]. left. split; [done|]. by eapply labelled_section_length. }
  destruct (best_div p) as [[t|]|] eqn:Hdiv; [| |done].
  { intros [= ->]. right; left. split; [done|].
    apply best_div_Some in Hdiv as (content & _ & Hbest & Hdesc & _).
    apply best_content_qualifies in Hbest as [_ Hq].
    apply description_of_div_length in Hdesc.
    unfold div_qualifies in Hq. cbv zeta in Hq.
    repeat (apply andb_true_iff in Hq as [Hq ?]).
    match goal with H : (_ <? 10000) = true |- _ => apply N.ltb_lt in H end.
    lia. }
  destruct (structured_description p) as [t|] eqn:Hstructured.
  { intros [= ->]. do 2 right; left. split; [done|].
    by apply (structured_description_length p). }
  destruct (selected_description p) as [t|] eqn:Hsel.
  { intros [= ->]. do 3 right; left. split; [done|].
    apply selected_description_Some in Hsel as [Ha _].
    unfold selector_accepts in Ha.
    repeat (apply andb_true_iff in Ha as [Ha ?]).
    repeat match goal with H : (_ <? _)%nat = true |- _ => apply Nat.ltb_lt in H end.
    lia. }
  destruct (sections_description p) as [t|] eqn:Hsections.
  { intros [= ->]. do 4 right; left. split; [done|].
    unfold sections_description in Hsections.
    apply first_some_Some in Hsections as (section & _ & Hsection).
    by eapply section_description_length. }
  destruct (paragraphs_description p) as [t|] eqn:Hparagraphs.
  { intros [= ->]. do 5 right; left. split; [done|].
    by apply (paragraphs_description_length p). }
  simpl. intros Hlines. do 6 right. split; [done|].
  by apply (lines_description_length p).
Qed.

End ExtractionLengths.

Section ExtractionAborts.
Context `{U : Unicode}.

Lemma extracted_lines_Raise (lines : list str) :
  Exists (λ line, any_in stop_keywords (strip (lower line)) = true
                  ∧ (length (strip line) < 80)%nat) lines →
  extracted_lines lines = Raise.
Proof.
  induction 1 as [line rest [Hkw Hlen]|line rest _ IH]; cbn [extracted_lines].
  - apply Nat.ltb_lt in Hlen. by rewrite Hkw, Hlen.
  - destruct (_ && _); [done|]. by rewrite IH.
Qed.

(** X19. The cascade gives up on a short stop line.  When no labelled
    section is found in the page text and the best [div] has, after its
    about line, a line of fewer than 80 characters with one of the stop
    keywords, the test the source makes on that line raises, and
    [extract_description_from_page] returns [None], whatever the later
    strategies would have found. *)
Theorem extract_description_stop_line (p : page) (content : str) (after : list str) :
  labelled_section description_patterns (body_text p) = None →
  best_content (query_selector_all p SelDiv) = Some content →
  about_start (split_on 10 content) = Some after →
  Exists (λ line, any_in stop_keywords (strip (lower line)) = true
                  ∧ (length (strip line) < 80)%nat) after →
  extract_description_from_page p = None.
Proof.
  intros Hlabel Hbest Hafter Hstop.
  unfold extract_description_from_page, best_div. rewrite Hlabel, Hbest.
  apply best_content_qualifies in Hbest as [_ Hq].
  unfold div_qualifies in Hq. cbv zeta in Hq.
  repeat (apply andb_true_iff in Hq as [Hq ?]).
  rewrite Hq.
  unfold description_of_div. rewrite Hafter.
  by rewrite (extracted_lines_Raise after Hstop).
Qed.

End ExtractionAborts.

(** X18 on a page whose only candidate is an element with a description
    class. *)
Lemma extract_description_lengths_witness :
  let p := page_with SelClassDescription party_text in
  (@labelled_section latin1 description_patterns (body_text p) = Some party_text
   ∧ @trimmed latin1 party_text ∧ (200 < length party_text)%nat)
  ∨ (@best_div latin1 p = Return (Some party_text) ∧ N.of_nat (length party_text) < 10000)
  ∨ (@structured_description p = Some party_text ∧ (50 < length party_text)%nat)
  ∨ (@selected_description latin1 p = Some party_text ∧ (80 < length party_text < 2000)%nat)
  ∨ (@sections_description latin1 p = Some party_text ∧ (50 < length party_text ≤ 2999)%nat)
  ∨ (@paragraphs_description latin1 p = Some party_text
     ∧ (80 < length party_text ≤ 1499)%nat)
  ∨ (@lines_description latin1 p = Some party_text ∧ (80 < length party_text ≤ 1199)%nat).
Proof.
  intros p. apply (@extract_description_lengths latin1 p party_text).
  vm_compute. reflexivity.
Defined.

(** X19 on a page with such a [div] and with structured data that the
    next strategy would have returned. *)
Lemma extract_description_stop_line_witness :
  @extract_description_from_page latin1 page_with_stop_line = None
  ∧ structured_description page_with_stop_line = Some party_text.
Proof.
  split; [|vm_compute; reflexivity].
  apply (@extract_description_stop_line latin1 page_with_stop_line div_with_stop_line
           (drop 1 (split_on 10 div_with_stop_line))).
  - vm_compute. reflexivity.
  - vm_compute. reflexivity.
  - vm_compute. reflexivity.
  - apply Exists_cons_tl, Exists_cons_hd. vm_compute. split; [reflexivity|lia].
Defined.

(** ** The choice of a search result *)

Section ShotgunChoice.
Context `{U : Unicode}.

(** The state of the loop after the results [seen]: no result with a
    positive score yet, or the first of those with the highest score. *)
Lemma consider_first_best (event_name : str) (seen : list search_result) :
  match foldl (consider event_name) None seen with
  | None =>
      ∀ r url score, r ∈ seen → scored event_name r = Some (url, score) → score = O
  | Some (url, score) =>
      ∃ i r, seen !! i = Some r ∧ scored event_name r = Some (url, score)
             ∧ (0 < score)%nat
             ∧ ∀ j r' url' score',
                 seen !! j = Some r' → scored event_name r' = Some (url', score') →
                 (score' ≤ score)%nat ∧ ((j < i)%nat → (score' < score)%nat)
  end.
Proof.
  induction seen as [|result seen IH] using rev_ind; simpl.
  { intros r url score Hr. by apply elem_of_nil in Hr. }
  rewrite foldl_snoc. unfold consider at 1.
  destruct (scored event_name result) as [[href score]|] eqn:Hscored.
  - destruct (0 <? score)%nat eqn:Hpos.
    + apply Nat.ltb_lt in Hpos.
      destruct (foldl (consider event_name) None seen) as [[url best_score]|].
      * destruct IH as (i & r & Hi & Hr & Hbest & Hmax).
        destruct (best_score <? score)%nat eqn:Hlt.
        -- apply Nat.ltb_lt in Hlt.
           exists (length seen), result. split_and!; [by apply list_lookup_middle|done..|].
           intros j r' url' score' Hj Hr'.
           apply lookup_snoc_Some in Hj as [[Hj Hseen]|[-> <-]].
           ++ destruct (Hmax _ _ _ _ Hseen Hr'). lia.
           ++ rewrite Hscored in Hr'. injection Hr' as <- <-. lia.
        -- apply Nat.ltb_ge in Hlt.
           exists i, r. split_and!; [by apply lookup_app_l_Some|done..|].
           intros j r' url' score' Hj Hr'.
           apply lookup_snoc_Some in Hj as [[Hj Hseen]|[-> <-]]; [by eapply Hmax|].
           rewrite Hscored in Hr'. injection Hr' as <- <-.
           apply lookup_lt_Some in Hi. split; lia.
      * exists (length seen), result. split_and!; [by apply list_lookup_middle|done..|].
        intros j r' url' score' Hj Hr'.
        apply lookup_snoc_Some in Hj as [[Hj Hseen]|[-> <-]].
        -- apply list_elem_of_lookup_2 in Hseen. rewrite (IH _ _ _ Hseen Hr'). lia.
        -- rewrite Hscored in Hr'. injection Hr' as <- <-. lia.
    + apply Nat.ltb_ge in Hpos.
      destruct (foldl (consider event_name) None seen) as [[url best_score]|].
      * destruct IH as (i & r & Hi & Hr & Hbest & Hmax).
        exists i, r. split_and!; [by apply lookup_app_l_Some|done..|].
        intros j r' url' score' Hj Hr'.
        apply lookup_snoc_Some in Hj as [[Hj Hseen]|[-> <-]]; [by eapply Hmax|].
        rewrite Hscored in Hr'. injection Hr' as <- <-.
        apply lookup_lt_Some in Hi. split; lia.
      * intros r url' score' [Hr| ->%list_elem_of_singleton]%elem_of_app Hr'.
        -- by eapply IH.
        -- rewrite Hscored in Hr'. injection Hr' as <- <-. lia.
  - destruct (foldl (consider event_name) None seen) as [[url best_score]|].
    + destruct IH as (i & r & Hi & Hr & Hbest & Hmax).
      exists i, r. split_and!; [by apply lookup_app_l_Some|done..|].
      intros j r' url' score' Hj Hr'.
      apply lookup_snoc_Some in Hj as [[Hj Hseen]|[-> <-]]; [by eapply Hmax|].
      congruence.
    + intros r url' score' [Hr| ->%list_elem_of_singleton]%elem_of_app Hr'.
      * by eapply IH.
      * congruence.
Qed.

Lemma shotgun_url_http (href : str) : startswith (shotgun_url href) (py "http") = true.
Proof.
  unfold shotgun_url. destruct (startswith href (py "http")) eqn:Hh; cbn [negb]; [done|].
  destruct (startswith href (py "/")); reflexivity.
Qed.

Lemma scored_http (event_name : str) (r : search_result) (url : str) (score : nat) :
  scored event_name r = Some (url, score) → startswith url (py "http") = true.
Proof.
  unfold scored. destruct (result_href r) as [|[|c href]]; try done.
  intros [= <- _]. apply shotgun_url_http.
Qed.

(** X20. The ticket link [search_event_on_shotgun] chooses is the full
    URL of the first of the results that have the highest score, and
    that score is positive: no result scores more, and every result
    before it scores less.  The link starts with [http]. *)
Theorem best_match_url_first_best (event_name : str) (results : list search_result)
    (url : str) :
  best_match_url event_name results = Some url →
  startswith url (py "http") = true
  ∧ ∃ i r score,
      results !! i = Some r ∧ scored event_name r = Some (url, score)
      ∧ (0 < score)%nat
      ∧ ∀ j r' url' score',
          results !! j = Some r' → scored event_name r' = Some (url', score') →
          (score' ≤ score)%nat ∧ ((j < i)%nat → (score' < score)%nat).
Proof.
  unfold best_match_url. pose proof (consider_first_best event_name results) as Hloop.
  destruct (foldl (consider event_name) None results) as [[url' score]|]; [|done].
  intros [= <-]. destruct Hloop as (i & r & Hi & Hr & Hpos & Hmax).
  split; [by eapply scored_http|]. by exists i, r, score.
Qed.

(** X21. No link is chosen exactly when no result with an [href] has a
    positive score. *)
Theorem best_match_url_none (event_name : str) (results : list search_result) :
  best_match_url event_name results = None
  ↔ ∀ r url score, r ∈ results → scored event_name r = Some (url, score) → score = O.
Proof.
  unfold best_match_url. pose proof (consider_first_best event_name results) as Hloop.
  destruct (foldl (consider event_name) None results) as [[url score]|]; simpl.
  - split; [done|]. intros Hzero.
    destruct Hloop as (i & r & Hi & Hr & Hpos & _).
    apply list_elem_of_lookup_2 in Hi. rewrite (Hzero _ _ _ Hi Hr) in Hpos. lia.
  - done.
Qed.

Lemma contains_nil (hay : str) : contains [] hay = true.
Proof. by destruct hay. Qed.

(** X22. A name that is empty, or made of at most five white-space
    characters, matches every result: each result with an [href] scores
    11, and the link chosen is the full URL of the first of them. *)
Theorem best_match_url_empty_name (event_name : str) (results : list search_result) :
  (length event_name ≤ 5)%nat → strip (lower event_name) = [] →
  (∀ r url score, scored event_name r = Some (url, score) → score = 11%nat)
  ∧ best_match_url event_name results
    = head (omap (λ r, fst <$> scored event_name r) results).
Proof.
  intros Hlen Hempty.
  assert (∀ r url score, scored event_name r = Some (url, score) → score = 11%nat) as Hscore.
  { intros r url score. unfold scored.
    destruct (result_href r) as [|[|c href]]; try done.
    intros [= _ <-]. unfold match_score, event_words. cbv zeta.
    apply Nat.leb_le in Hlen. rewrite Hlen, Hempty. simpl.
    by rewrite !contains_nil. }
  split; [done|].
  unfold best_match_url.
  cut (∀ best : option (str * nat),
         (∀ url score, best = Some (url, score) → score = 11%nat) →
         fst <$> foldl (consider event_name) best results
         = match best with
           | Some (url, _) => Some url
           | None => head (omap (λ r, fst <$> scored event_name r) results)
           end).
  { intros H. by apply (H None). }
  induction results as [|r results IH]; intros best Hbest.
  { by destruct best as [[url score]|]. }
  cbn [foldl omap]. unfold consider at 2.
  destruct (scored event_name r) as [[href score]|] eqn:Hr; cbn [fmap option_fmap option_map fst].
  - rewrite (Hscore _ _ _ Hr). cbn [Nat.ltb Nat.leb].
    destruct best as [[url best_score]|].
    + rewrite (Hbest _ _ eq_refl). cbn [Nat.ltb Nat.leb].
      rewrite IH; [done|]. intros ? ? [= <- <-]. done.
    + rewrite IH; [|by intros ? ? [= <- <-]]. simpl. by rewrite ?Hr.
  - rewrite IH by done. simpl. by rewrite Hr.
Qed.

End ShotgunChoice.

(** X20 on two results for a short name: the second has the name in its
    text and in its link. *)
Lemma best_match_url_first_best_witness :
  let results :=
    [ {| result_text := py "La Dimanche"; result_href := VStr (py "/fr/events/la-dimanche") |};
      {| result_text := py "BBB x Aya"; result_href := VStr (py "/fr/events/bbb-aya") |} ] in
  let url := py "https://shotgun.live/fr/events/bbb-aya" in
  startswith url (py "http") = true
  ∧ ∃ i r score,
      results !! i = Some r ∧ @scored latin1 (py "BBB") r = Some (url, score)
      ∧ (0 < score)%nat
      ∧ ∀ j r' url' score',
          results !! j = Some r' → @scored latin1 (py "BBB") r' = Some (url', score') →
          (score' ≤ score)%nat ∧ ((j < i)%nat → (score' < score)%nat).
Proof.
  intros results url.
  apply (@best_match_url_first_best latin1 (py "BBB") results url).
  vm_compute. reflexivity.
Defined.

(** X22 on the empty name: the first link of the page is chosen. *)
Lemma best_match_url_empty_name_witness :
  let results :=
    [ {| result_text := py "La Dimanche"; result_href := VNone |};
      {| result_text := py "La Dimanche"; result_href := VStr (py "/fr/events/la-dimanche") |};
      {| result_text := py "BBB x Aya"; result_href := VStr (py "/fr/events/bbb-aya") |} ] in
  @best_match_url latin1 [] results = Some (py "https://shotgun.live/fr/events/la-dimanche").
Proof.
  intros results.
  destruct (@best_match_url_empty_name latin1 [] results) as [_ ->].
  - simpl. lia.
  - reflexivity.
  - vm_compute. reflexivity.
Defined.

(** ** The normal form of a name *)

Section NormalForm.
Context `{U : Unicode} `{!Latin1Exact U}.

Lemma is_space_32 : is_space 32 = true.
Proof. by rewrite is_space_latin1. Qed.

Lemma lower_char_idemp (c : N) : Latin1.lower_char (Latin1.lower_char c) = Latin1.lower_char c.
Proof.
  unfold Latin1.lower_char.
  destruct (((65 <=? c) && (c <=? 90)) || ((192 <=? c) && (c <=? 222) && negb (c =? 215)))
    eqn:Hc; [|by rewrite Hc].
  destruct (((65 <=? c + 32) && (c + 32 <=? 90))
            || ((192 <=? c + 32) && (c + 32 <=? 222) && negb (c + 32 =? 215))) eqn:Hc';
    [|done].
  exfalso.
  repeat match goal with
         | H : _ || _ = true |- _ => apply orb_true_iff in H as [H|H]
         | H : _ && _ = true |- _ => apply andb_true_iff in H as [? ?]
         | H : negb _ = true |- _ => apply negb_true_iff in H
         | H : (_ <=? _) = true |- _ => apply N.leb_le in H
         | H : (_ =? _) = false |- _ => apply N.eqb_neq in H
         end; lia.
Qed.

Lemma lower_char_latin1 (c : N) : c < 256 → Latin1.lower_char c < 256.
Proof.
  intros Hc. unfold Latin1.lower_char.
  destruct (((65 <=? c) && (c <=? 90)) || ((192 <=? c) && (c <=? 222) && negb (c =? 215)))
    eqn:Hup; [|done].
  repeat match goal with
         | H : _ || _ = true |- _ => apply orb_true_iff in H as [H|H]
         | H : _ && _ = true |- _ => apply andb_true_iff in H as [? ?]
         | H : (_ <=? _) = true |- _ => apply N.leb_le in H
         end; lia.
Qed.

Lemma single_spaced_collapse (b b' : bool) (s : str) :
  (b' = true → b = true) → single_spaced b' (collapse_from b s) = true.
Proof.
  revert b b'. induction s as [|c s IH]; intros b b' Hb; simpl; [done|].
  destruct (is_space c) eqn:Hc.
  - destruct b; [by apply IH|]. simpl. rewrite is_space_32.
    destruct b'; [by discriminate Hb|]. simpl. by apply IH.
  - simpl. rewrite Hc. by apply IH.
Qed.

Lemma single_spaced_id (b : bool) (s : str) :
  single_spaced b s = true → collapse_from b s = s.
Proof.
  revert b. induction s as [|c s IH]; intros b; simpl; [done|].
  destruct (is_space c).
  - destruct b; simpl; [done|].
    intros [Hc Hs]%andb_true_iff. apply N.eqb_eq in Hc as ->. by rewrite IH.
  - intros Hs. by rewrite IH.
Qed.

Lemma single_spaced_weaken (b : bool) (s : str) :
  single_spaced b s = true → single_spaced false s = true.
Proof.
  destruct s as [|c s]; simpl; [done|].
  destruct (is_space c); [|done]. destruct b; [done|done].
Qed.

Lemma single_spaced_suffix (b : bool) (s t : str) :
  t `suffix_of` s → single_spaced b s = true → single_spaced false t = true.
Proof.
  intros [k ->]. revert b. induction k as [|c k IH]; intros b; simpl.
  - apply single_spaced_weaken.
  - destruct (is_space c).
    + intros [_ Hs]%andb_true_iff. by eapply IH.
    + by eapply IH.
Qed.

Lemma single_spaced_prefix (b : bool) (s t : str) :
  t `prefix_of` s → single_spaced b s = true → single_spaced b t = true.
Proof.
  intros [k ->]. revert b. induction t as [|c t IH]; intros b; simpl; [done|].
  destruct (is_space c).
  - intros [Hc Hs]%andb_true_iff. rewrite Hc. simpl. by eapply IH.
  - by eapply IH.
Qed.

Lemma single_spaced_strip (b : bool) (s : str) :
  single_spaced b s = true → single_spaced false (strip s) = true.
Proof.
  intros Hs. unfold strip.
  eapply single_spaced_prefix; [apply rstrip_prefix|].
  eapply single_spaced_suffix; [apply lstrip_suffix|done].
Qed.

Lemma collapse_from_elem (b : bool) (s : str) (c : N) :
  c ∈ collapse_from b s → c = 32 ∨ (c ∈ s ∧ is_space c = false).
Proof.
  revert b. induction s as [|a s IH]; intros b; simpl; [by intros ?%elem_of_nil|].
  destruct (is_space a) eqn:Ha.
  - destruct b.
    + intros [?|[? ?]]%IH; [by left|right]. split; [by apply list_elem_of_further|done].
    + intros [->|[?|[? ?]]%IH]%elem_of_cons; [by left|by left|right].
      split; [by apply list_elem_of_further|done].
  - intros [->|[?|[? ?]]%IH]%elem_of_cons; [right|by left|right].
    + split; [apply list_elem_of_here|done].
    + split; [by apply list_elem_of_further|done].
Qed.

Lemma strip_elem (s : str) (c : N) : c ∈ strip s → c ∈ s.
Proof.
  unfold strip. intros Hc.
  destruct (rstrip_prefix (lstrip s)) as [k Hk].
  destruct (lstrip_suffix s) as [k' Hk'].
  rewrite Hk', Hk. set_solver.
Qed.

(** The characters of a normalized name. *)
Lemma normalize_event_name_elem (name : str) (c : N) :
  Forall (λ c, c < 256) name →
  c ∈ normalize_event_name (VStr name) →
  c < 256 ∧ Latin1.lower_char c = c ∧ (is_word c || is_space c = true).
Proof.
  intros Hname. destruct name as [|a name]; simpl; [by intros ?%elem_of_nil|].
  intros Hc%strip_elem%collapse_from_elem.
  destruct Hc as [->|[Hc Hsp]].
  - split_and!; [done|done|]. by rewrite is_space_32, orb_true_r.
  - unfold drop_punctuation in Hc. apply list_elem_of_filter in Hc as [Hok Hc].
    rewrite (lower_latin1 (a :: name) Hname) in Hc.
    apply list_elem_of_fmap in Hc as (d & -> & Hd).
    rewrite Forall_forall in Hname. specialize (Hname d Hd). simpl in Hname.
    split_and!; [by apply lower_char_latin1|apply lower_char_idemp|done].
Qed.

(** X23. The normal form of a name is stable.  For a name of Latin-1
    characters, on a runtime whose tables are those of Latin-1 below
    256: normalizing a normalized name changes nothing; the lowered
    name has the normal form of the name; and the normal form is empty
    or has no white space around it, its white space is single spaces,
    and its other characters are word characters in lower case. *)
Theorem normalize_event_name_normal_form (name : str) :
  Forall (λ c, c < 256) name →
  let normalized := normalize_event_name (VStr name) in
  normalize_event_name (VStr normalized) = normalized
  ∧ normalize_event_name (VStr (lower name)) = normalized
  ∧ (normalized = [] ∨ trimmed normalized)
  ∧ single_spaced false normalized = true
  ∧ Forall (λ c, c = 32 ∨ (is_word c = true ∧ is_space c = false
                           ∧ Latin1.lower_char c = c)) normalized.
Proof.
  intros Hname normalized.
  assert (single_spaced false normalized = true) as Hsingle.
  { subst normalized. destruct name as [|a name]; [done|]. simpl.
    apply (single_spaced_strip false). by apply single_spaced_collapse. }
  assert (normalized = [] ∨ trimmed normalized) as Htrim.
  { subst normalized. destruct name as [|a name]; [by left|]. simpl.
    destruct (strip _) eqn:Hs; [by left|right]. rewrite <- Hs.
    apply strip_trimmed. by rewrite Hs. }
  assert (∀ c, c ∈ normalized →
               c < 256 ∧ Latin1.lower_char c = c ∧ (is_word c || is_space c = true))
    as Helem by (intros c; by apply normalize_event_name_elem).
  split_and!; [| |done|done|].
  - destruct normalized as [|c n] eqn:Hn; [done|].
    destruct Htrim as [?|Htrim]; [done|].
    cbn [normalize_event_name].
    assert (lower (c :: n) = c :: n) as ->.
    { rewrite lower_latin1 by (apply Forall_forall; intros d Hd; by apply Helem).
      rewrite <- (list_fmap_id (c :: n)) at 2. apply list_fmap_ext.
      intros i d Hd. apply list_elem_of_lookup_2 in Hd. by apply Helem. }
    assert (drop_punctuation (c :: n) = c :: n) as ->.
    { unfold drop_punctuation.
      assert (Forall (λ d, is_word d || is_space d = true) (c :: n)) as Hall
        by (apply Forall_forall; intros d Hd; by apply Helem).
      clear -Hall. induction Hall as [|d l Hd _ IH]; [done|].
      by rewrite filter_cons_True, IH. }
    unfold collapse_spaces. rewrite (single_spaced_id false) by done.
    by apply strip_id.
  - subst normalized. destruct name as [|a name]; [by rewrite lower_latin1|].
    assert (lower (a :: name) = Latin1.lower_char a :: (Latin1.lower_char <$> name)) as Hlow
      by (by rewrite lower_latin1).
    rewrite Hlow. cbn [normalize_event_name]. rewrite <- Hlow.
    assert (lower (lower (a :: name)) = lower (a :: name)) as ->; [|done].
    rewrite (lower_latin1 (lower (a :: name))).
    + rewrite lower_latin1 by done. rewrite <- list_fmap_compose.
      apply list_fmap_ext. intros i c _. apply lower_char_idemp.
    + rewrite lower_latin1 by done. apply Forall_fmap.
      eapply Forall_impl; [exact Hname|]. intros c. apply lower_char_latin1.
  - apply Forall_forall. intros c Hc.
    destruct (Helem c Hc) as (_ & Hlow & Hok).
    destruct (is_space c) eqn:Hsp; [left|right].
    + clear -Hsingle Hc Hsp. revert Hsingle. generalize false.
      induction normalized as [|d n IH]; intros b; [by apply elem_of_nil in Hc|].
      simpl. apply elem_of_cons in Hc as [->|Hc].
      * rewrite Hsp. intros [[_ Hd]%andb_true_iff _]%andb_true_iff. by apply N.eqb_eq.
      * destruct (is_space d); [intros [_ ?]%andb_true_iff|intros ?]; by eapply IH.
    + rewrite orb_false_r in Hok. done.
Qed.

End NormalForm.

(** X23 on a name with capitals, punctuation and runs of spaces. *)
Lemma normalize_event_name_normal_form_witness :
  let normalized := @normalize_event_name latin1 (VStr (py "  BBB   Party!! ")) in
  @normalize_event_name latin1 (VStr normalized) = normalized
  ∧ @normalize_event_name latin1 (VStr (@lower latin1 (py "  BBB   Party!! "))) = normalized
  ∧ (normalized = [] ∨ @trimmed latin1 normalized)
  ∧ @single_spaced latin1 false normalized = true
  ∧ Forall (λ c, c = 32 ∨ (@is_word latin1 c = true ∧ @is_space latin1 c = false
                           ∧ Latin1.lower_char c = c)) normalized.
Proof.
  apply (@normalize_event_name_normal_form latin1 latin1_exact (py "  BBB   Party!! ")).
  repeat constructor.
Defined.

(** ** The decision rule of the identity resolver *)

Section DecisionRule.
Context `{U : Unicode} `{!Latin1Exact U}.












End DecisionRule.


(** The normal form at work: case, punctuation and the amount of white
    space make no difference, nor does white space around the name. *)
Example canonical_name :
  @canonical latin1 (ev [("name", "  Queer   Night: WINTER-Edition! ")]) "name"
  = py "queer night winteredition".
Proof. vm_compute. reflexivity. Qed.

(** The underscore is a word character, not punctuation: it stays in the
    normal form, as it does in the name the code compares. *)
Example canonical_underscore :
  @canonical latin1 (ev [("name", "Queer_Night")]) "name" = py "queer_night"
  ∧ @normalize_event_name latin1 (VStr (py "Queer_Night")) = py "queer_night".
Proof. vm_compute. split; reflexivity. Qed.

(** ** The forbidden word in the extracted description *)

Section ForbiddenWord.
Context `{U : Unicode}.

Lemma strip_part (s : str) : ∃ pre post, s = pre ++ strip s ++ post.
Proof.
  destruct (lstrip_suffix s) as [pre Hpre].
  destruct (rstrip_prefix (lstrip s)) as [post Hpost].
  exists pre, post. unfold strip. by rewrite <- Hpost.
Qed.

Lemma join_suffix (sep : str) (after lines : list str) :
  after `suffix_of` lines → join sep after `suffix_of` join sep lines.
Proof.
  intros [k ->]. induction k as [|x k IH]; [done|].
  destruct (k ++ after) as [|y rest] eqn:Hrest.
  { apply app_eq_nil in Hrest as [_ ->]. apply suffix_nil. }
  change (join sep ((x :: k) ++ after)) with (join sep (x :: k ++ after)).
  rewrite Hrest.
  change (join sep (x :: y :: rest)) with (x ++ sep ++ join sep (y :: rest)).
  rewrite app_assoc. by apply suffix_app_r.
Qed.

(** The description cut from a [div] is a part of the text of the
    [div]. *)
Lemma description_of_div_part (content text : str) :
  description_of_div content = Return text → ∃ pre post, content = pre ++ text ++ post.
Proof.
  unfold description_of_div.
  destruct (about_start _) as [after|] eqn:Hafter; [|intros [= <-]; apply strip_part].
  destruct (extracted_lines after) as [collected|] eqn:Hcollected; [|done].
  apply extracted_lines_Return in Hcollected as ->.
  apply about_start_suffix in Hafter.
  destruct after as [|l rest]; [intros [= <-]; apply strip_part|].
  cbv zeta. set (joined := join [10] (l :: rest)).
  assert (joined `suffix_of` content) as [k1 Hk1].
  { subst joined. rewrite <- (join_split_on 10 content) at 1. by apply join_suffix. }
  clearbody joined.
  destruct (_ <? _)%nat; intros [= <-]; [|apply strip_part].
  destruct (strip_part joined) as (a & b & Hjoined).
  destruct (remove_heading_suffix [a_propos; py "a propos"] (strip joined)) as [c Hc].
  fold (remove_a_propos (strip joined)) in Hc.
  destruct (strip_part (remove_a_propos (strip joined))) as (d & e & Hd).
  exists (k1 ++ a ++ c ++ d), (e ++ b).
  rewrite Hk1, Hjoined at 1. rewrite Hc at 1. rewrite Hd at 1.
  by rewrite <- !app_assoc.
Qed.

(** C8, as the code has it.  The description the cascade returns is the
    product of one of its seven strategies, and three of them filter
    their candidates.  The best [div] has no "cookie" in its whole
    lowered text, and the description is a part of that text.  An
    element with a description class is returned, stripped, only if its
    whole lowered text has no "cookie".  The line scan joins stripped
    lines of the main content that have no "cookie" in their first 50
    lowered characters.  The pattern on the page text, the structured
    data, the sections and the paragraphs are not inspected for the
    word. *)
Theorem extract_description_rejects_cookie (p : page) (text : str) :
  extract_description_from_page p = Some text →
  labelled_section description_patterns (body_text p) = Some text
  ∨ (∃ content pre post,
       content ∈ inner_text <$> query_selector_all p SelDiv
       ∧ best_div p = Return (Some text)
       ∧ content = pre ++ text ++ post
       ∧ contains (py "cookie") (lower content) = false)
  ∨ structured_description p = Some text
  ∨ (∃ sel elem,
       selected_description p = Some text
       ∧ sel ∈ description_selectors ∧ elem ∈ query_selector_all p sel
       ∧ text = strip (inner_text elem)
       ∧ contains (py "cookie") (lower text) = false)
  ∨ sections_description p = Some text
  ∨ paragraphs_description p = Some text
  ∨ (∃ main_content lines,
       lines_description p = Some text
       ∧ query_selector p SelMainOrEvent = Some main_content
       ∧ text = join (py " ") lines
       ∧ Forall (λ l, l ∈ stripped_lines (inner_text main_content)
                      ∧ contains (py "cookie") (take 50 (lower l)) = false) lines).
Proof.
  unfold extract_description_from_page.
  destruct (labelled_section _ _) as [t|]; [intros [= ->]; by left|].
  destruct (best_div p) as [[t|]|] eqn:Hdiv; [| |done].
  { intros [= ->]. right; left.
    apply best_div_Some in Hdiv as (content & Hin & _ & Hdesc & Hcookie).
    destruct (description_of_div_part _ _ Hdesc) as (pre & post & Hpart).
    by exists content, pre, post. }
  destruct (structured_description p) as [t|]; [intros [= ->]; auto 10|].
  destruct (selected_description p) as [t|] eqn:Hsel.
  { intros [= ->]. do 3 right; left.
    apply selected_description_Some in Hsel as [Ha (sel & elem & Hs & He & Ht)].
    exists sel, elem. split_and!; [done..|]. by apply selector_accepts_no_cookie. }
  destruct (sections_description p) as [t|]; [intros [= ->]; auto 10|].
  destruct (paragraphs_description p) as [t|]; [intros [= ->]; auto 10|].
  simpl. intros Hlines. do 6 right.
  apply lines_description_Some in Hlines as Hl.
  destruct Hl as (main_content & lines & Hmain & -> & Hall).
  exists main_content, lines. split_and!; [done..|].
  eapply Forall_impl; [exact Hall|]. simpl. intros l [Hin Hq].
  split; [done|]. by apply line_qualifies_no_cookie.
Qed.

End ForbiddenWord.

(** C8 on a page whose only candidate is an element with a description
    class: it is returned, and has no "cookie". *)
Lemma extract_description_rejects_cookie_witness :
  let p := page_with SelClassDescription party_text in
  ∃ sel elem,
    @selected_description latin1 p = Some party_text
    ∧ sel ∈ description_selectors ∧ elem ∈ query_selector_all p sel
    ∧ party_text = @strip latin1 (inner_text elem)
    ∧ contains (py "cookie") (@lower latin1 party_text) = false.
Proof.
  intros p.
  assert (@extract_description_from_page latin1 p = Some party_text) as Hpage.
  { vm_compute. reflexivity. }
  destruct (@extract_description_rejects_cookie latin1 p party_text Hpage)
    as [H|[(? & ? & ? & _ & H & _)|[H|[H|[H|[H|(? & ? & H & _)]]]]]].
  - vm_compute in H. discriminate.
  - vm_compute in H. discriminate.
  - vm_compute in H. discriminate.
  - exact H.
  - vm_compute in H. discriminate.
  - vm_compute in H. discriminate.
  - vm_compute in H. discriminate.
Defined.

(** C8 as stated fails: a text with "cookie" in the zone a filter
    inspects is returned all the same.  The text of [cookie_page] is the
    candidate of the selector strategy, whose filter rejects it for the
    word alone; the line scan then takes the same text, where the word
    comes after the 50 characters it inspects, and the cascade returns
    it. *)
Lemma extract_description_returns_cookie :
  contains (py "cookie") (@lower latin1 cookie_line) = true
  ∧ query_selector_all cookie_page SelClassContent
    = [ {| inner_text := cookie_line; paragraphs := [] |} ]
  ∧ @strip latin1 cookie_line = cookie_line
  ∧ @selector_accepts latin1 cookie_line = false
  ∧ @selector_accepts latin1 (take 90 cookie_line ++ py "cake" ++ drop 96 cookie_line) = true
  ∧ @selected_description latin1 cookie_page = None
  ∧ @extract_description_from_page latin1 cookie_page = Some cookie_line.
Proof. vm_compute. split_and!; reflexivity. Qed.
